(** * whynot: weighted random phrases from a small grammar

    A shallow embedding of the [whynot] package: the weighted pools of
    [weight.py], the reference handles and templates of [refs.py], the
    line-oriented grammar parser of [config.py] and the top-level call of
    [__init__.py].

    Conventions.
    - Text is a list of characters ([str]).  The source runs under Python 2
      with [unicode_literals]; splitting the file contents on a unicode
      separator decodes them as ASCII, so every character is a 7-bit one.
    - Python exceptions are values of [exn]; a computation returns a
      [result].
    - The random source is the sequence of numbers it is going to produce;
      [random.choice] takes the next one, reduced modulo the pool size.
      Quantifying over all sequences covers every behaviour of the source.
    - The grammar is a mutable, insertion-ordered dictionary shared by every
      reference; rendering threads it explicitly.
    - Integers are unbounded, as Python's are; [sys.maxsize] is that of a
      64-bit build.  A list of up to [capacity] items is taken to fit in
      memory; for a longer one the model gives no verdict. *)

From Stdlib Require Import Ascii String DecimalString DecimalNat.
From Stdlib Require Import ZArith Lia Bool Arith List.
Import ListNotations.

Local Open Scope list_scope.

Definition str := list ascii.

(** Literal text: [chars "abc"] is the three-character text abc. *)
Definition chars (s : string) : str := list_ascii_of_string s.

(** ** Exceptions and results *)

Inductive exn : Type :=
| ValueError (msg : str)
| KeyError (key : str)
| IndexError (msg : str)
| ParseException
| ConfigException (lineno : nat) (line : str) (cause : exn)
| OverflowError
| ZeroDivisionError.

(** Why a run of the model gives no verdict: the recursion budget of
    the renderer ran out, a format string left the fragment of
    [str.format] that the model covers, or a list is so long that
    whether it can be built depends on the memory of the machine. *)
Inductive gap : Type :=
| FuelExhausted
| FormatFieldNotModelled
| MemoryNotModelled.

Inductive result (A : Type) : Type :=
| Ok (a : A)
| Raise (e : exn)
| Stuck (g : gap).

Arguments Ok {A} a.
Arguments Raise {A} e.
Arguments Stuck {A} g.

Definition bind {A B} (r : result A) (k : A -> result B) : result B :=
  match r with
  | Ok a => k a
  | Raise e => Raise e
  | Stuck g => Stuck g
  end.

Notation "x <- r ;; k" := (bind r (fun x => k))
  (at level 61, r at next level, right associativity).

(** ** Python built-ins used by the source *)

Module Py.

Definition newline : ascii := "010"%char.
Definition tab : ascii := "009"%char.
Definition cr : ascii := "013"%char.
Definition space : ascii := " "%char.

Definition str_eqb (a b : str) : bool :=
  if list_eq_dec ascii_dec a b then true else false.

(** [text.split("\n")] *)
Fixpoint split_newline (s : str) : list str :=
  match s with
  | [] => [[]]
  | c :: s' =>
      if Ascii.eqb c newline then [] :: split_newline s'
      else match split_newline s' with
           | l :: ls => (c :: l) :: ls
           | [] => [[c]]
           end
  end.

(** [unicode.isspace] on the 7-bit range: TAB, LF, VT, FF, CR,
    FS, GS, RS, US and SPACE. *)
Definition isspace (c : ascii) : bool :=
  let n := nat_of_ascii c in
  ((9 <=? n) && (n <=? 13)) || ((28 <=? n) && (n <=? 32)).

Fixpoint lstrip (s : str) : str :=
  match s with
  | c :: s' => if isspace c then lstrip s' else s
  | [] => []
  end.

Definition rstrip (s : str) : str := rev (lstrip (rev s)).

Definition strip (s : str) : str := rstrip (lstrip s).

(** [str.expandtabs()] with the default tab size of 8; [col] is the
    current column, reset by LF and CR. *)
Fixpoint expandtabs_from (col : nat) (s : str) : str :=
  match s with
  | [] => []
  | c :: s' =>
      if Ascii.eqb c tab then
        let incr := 8 - col mod 8 in
        repeat space incr ++ expandtabs_from (col + incr) s'
      else if Ascii.eqb c newline || Ascii.eqb c cr then
        c :: expandtabs_from 0 s'
      else c :: expandtabs_from (S col) s'
  end.

Definition expandtabs (s : str) : str := expandtabs_from 0 s.

(** [s.startswith(p)] *)
Fixpoint startswith (p s : str) : bool :=
  match p, s with
  | [], _ => true
  | a :: p', b :: s' => Ascii.eqb a b && startswith p' s'
  | _ :: _, [] => false
  end.

(** [s.replace(old, new)] for a non-empty [old]: every occurrence,
    leftmost first, without overlap.  [skip] counts the characters of
    the occurrence just replaced that are still to be passed over. *)
Fixpoint replace_from (old new : str) (skip : nat) (s : str) : str :=
  match s with
  | [] => []
  | c :: s' =>
      match skip with
      | S k => replace_from old new k s'
      | O =>
          if startswith old s
          then new ++ replace_from old new (length old - 1) s'
          else c :: replace_from old new 0 s'
      end
  end.

Definition replace (old new s : str) : str := replace_from old new 0 s.

Definition isdigit (c : ascii) : bool :=
  let n := nat_of_ascii c in (48 <=? n) && (n <=? 57).

Definition digit_value (c : ascii) : Z := Z.of_nat (nat_of_ascii c - 48).

(** [int(digits)] for a run of decimal digits. *)
Definition int (digits : str) : Z :=
  fold_left (fun acc c => (10 * acc + digit_value c)%Z) digits 0%Z.

(** ["{:d}".format(n)] for a list index [n]. *)
Definition decimal (n : nat) : str :=
  chars (NilEmpty.string_of_uint (Nat.to_uint n)).

(** The inverse reading of a field index inside a format string. *)
Definition index_of_digits (digits : str) : option nat :=
  match NilEmpty.uint_of_string (string_of_list_ascii digits) with
  | Some u => Some (Nat.of_uint u)
  | None => None
  end.

(** [c.upper()] on the 7-bit range. *)
Definition upper (c : ascii) : ascii :=
  let n := nat_of_ascii c in
  if (97 <=? n) && (n <=? 122) then ascii_of_nat (n - 32) else c.

(** The longest prefix whose characters satisfy [p], and the rest. *)
Fixpoint span (p : ascii -> bool) (s : str) : str * str :=
  match s with
  | c :: s' =>
      if p c then let (a, b) := span p s' in (c :: a, b) else ([], s)
  | [] => ([], [])
  end.

End Py.

(** ** weight.py *)

Section Weighted.

Variable V : Type.

(** [WeightedItem]: the setter stores [int(value)], any integer. *)
Record WeightedItem : Type := mkItem { value : V; weight : Z }.

(** [WeightedCollection.items] *)
Definition WeightedCollection := list WeightedItem.

(** [WeightedCollection.add] *)
Definition add (self : WeightedCollection) (v : V) (w : Z)
  : WeightedCollection :=
  self ++ [mkItem v w].

(** [WeightedCollection.__len__] *)
Definition len (self : WeightedCollection) : Z :=
  fold_left (fun acc i => (acc + weight i)%Z) self 0%Z.

(** [WeightedCollection.__iter__]: [range(w)] is empty for [w <= 0]. *)
Fixpoint iter (self : WeightedCollection) : list WeightedItem :=
  match self with
  | [] => []
  | item :: rest => repeat item (Z.to_nat (weight item)) ++ iter rest
  end.

End Weighted.

Arguments mkItem {V} value weight.
Arguments value {V} w.
Arguments weight {V} w.
Arguments add {V} self v w.
Arguments len {V} self.
Arguments iter {V} self.

(** [sys.maxsize], the largest [Py_ssize_t]; the value is that of a
    64-bit build. *)
Definition maxsize : Z := (2 ^ 63 - 1)%Z.

(** The built-in [len] on an object whose [__len__] returns [n]: the
    number has to fit a [Py_ssize_t], and must not be negative. *)
Definition builtin_len (n : Z) : result Z :=
  if (maxsize <? n)%Z || (n <? - maxsize - 1)%Z then Raise OverflowError
  else if (n <? 0)%Z
  then Raise (ValueError (chars "__len__() should return >= 0"))
  else Ok n.

(** The longest list that the model takes to fit in memory on every
    machine.  A longer one may or may not raise [MemoryError]; there
    the model gives no verdict. *)
Definition capacity : Z := (2 ^ 20)%Z.

(** What [__iter__] yields into a list with [room] slots left:
    [range(item.weight)] refuses a weight above [sys.maxsize] and is
    empty for a weight below 1. *)
Fixpoint expand {V} (room : Z) (self : WeightedCollection V)
  : result (list (WeightedItem V)) :=
  match self with
  | [] => Ok []
  | item :: rest =>
      if (maxsize <? weight item)%Z then Raise OverflowError
      else if (room <? weight item)%Z then Stuck MemoryNotModelled
      else
        slots <- expand (room - Z.max 0 (weight item)) rest ;;
        Ok (repeat item (Z.to_nat (weight item)) ++ slots)
  end.

(** [list(self)]: the constructor asks [len(self)] for the size to
    reserve and then runs [__iter__]. *)
Definition list_of {V} (self : WeightedCollection V)
  : result (list (WeightedItem V)) :=
  size <- builtin_len (len self) ;;
  if (capacity <? size)%Z then Stuck MemoryNotModelled
  else expand capacity self.

(** The random source: the numbers still to come.  An exhausted
    sequence keeps answering 0. *)
Definition Rand := list nat.

Definition next_random (rng : Rand) : nat * Rand :=
  match rng with
  | [] => (0, [])
  | x :: rng' => (x, rng')
  end.

(** [random.choice(seq)]: Python 2 evaluates
    [seq[int(self.random() * len(seq))]], so the source advances even
    when the sequence is empty and the indexing fails. *)
Definition random_choice {A} (seq : list A) (rng : Rand)
  : result A * Rand :=
  let (x, rng') := next_random rng in
  match nth_error seq (x mod length seq) with
  | Some a => (Ok a, rng')
  | None => (Raise (IndexError (chars "list index out of range")), rng')
  end.

(** ** refs.py *)

(** What a collection holds: a plain string, a [Reference] or a
    [ReferenceFormat].  A reference keeps a pointer to the dictionary it
    reads ([_source]); here that is always the grammar, which the
    renderer passes along, so the handle is its key. *)
Inductive TemplateValue : Type :=
| Text (s : str)
| Reference (key : str)
| ReferenceFormat (format_string : str) (substitutions : list str).

(** [[-_a-zA-Z0-9]]: the character class of [RE_SECTION_NAME]. *)
Definition name_char (c : ascii) : bool :=
  let n := nat_of_ascii c in
  (n =? 45) || (n =? 95) || ((97 <=? n) && (n <=? 122))
  || ((65 <=? n) && (n <=? 90)) || ((48 <=? n) && (n <=? 57)).

Definition marker (name : str) : str :=
  chars "<" ++ name ++ chars ">".

Arguments marker name : simpl never.

(** A match of [<([-_a-zA-Z0-9]+)>] at the head of [s]: the run of
    name characters is taken greedily and no shorter run can be followed
    by the closing bracket, which is not a name character. *)
Definition match_marker (s : str) : option str :=
  match s with
  | c :: s' =>
      if Ascii.eqb c "<" then
        match Py.span name_char s' with
        | ((_ :: _) as name, d :: _) =>
            if Ascii.eqb d ">" then Some name else None
        | _ => None
        end
      else None
  | [] => None
  end.

Arguments match_marker s : simpl never.

(** [re.findall(r'<(' + pattern + r')>', raw_text)]: the group of every
    match, scanning left to right and resuming after each match. *)
Fixpoint findall_from (skip : nat) (s : str) : list str :=
  match s with
  | [] => []
  | _ :: s' =>
      match skip with
      | S k => findall_from k s'
      | O =>
          match match_marker s with
          | Some name => name :: findall_from (S (length name)) s'
          | None => findall_from 0 s'
          end
      end
  end.

Definition findall (raw_text : str) : list str := findall_from 0 raw_text.

Definition mem (x : str) (l : list str) : bool := existsb (Py.str_eqb x) l.

(** [unique]: the comprehension keeps [x] unless it has been seen. *)
Fixpoint unique_from (seen : list str) (seq : list str) : list str :=
  match seq with
  | [] => []
  | x :: rest =>
      if mem x seen then unique_from seen rest
      else x :: unique_from (x :: seen) rest
  end.

Definition unique (seq : list str) : list str := unique_from [] seq.

(** *** [str.format] on positional arguments

    The fragment covered: literal text, the escapes [{{] and [}}], the
    two complaints about a single brace, and fields of the shape
    [{<digits>!s}], which is what [ReferenceCollection.format] writes.
    Any other field gives [Stuck FormatFieldNotModelled].  The index
    of a field is read as a number of any size; [str.format] refuses
    one above [sys.maxsize], which the fields written by
    [ReferenceCollection.format] never reach, a text having fewer
    markers than characters. *)

Inductive format_mode : Type :=
| Top
| AfterOpen
| AfterClose
| FieldIndex (digits : str)
| FieldBang (digits : str)
| FieldConv (digits : str).

Definition lift_prefix {S} (pre : str) (r : result str * S)
  : result str * S :=
  match r with
  | (Ok out, st) => (Ok (pre ++ out), st)
  | other => other
  end.

Section Format.

Variable S : Type.
(** [str(args[idx])], which may run arbitrary code. *)
Variable arg_str : nat -> S -> result str * S.

Fixpoint format_from (m : format_mode) (fs : str) (st : S)
  : result str * S :=
  match fs with
  | [] =>
      match m with
      | Top => (Ok [], st)
      | AfterOpen =>
          (Raise (ValueError
                    (chars "Single '{' encountered in format string")), st)
      | AfterClose =>
          (Raise (ValueError
                    (chars "Single '}' encountered in format string")), st)
      | _ => (Stuck FormatFieldNotModelled, st)
      end
  | c :: fs' =>
      match m with
      | Top =>
          if Ascii.eqb c "{" then format_from AfterOpen fs' st
          else if Ascii.eqb c "}" then format_from AfterClose fs' st
          else lift_prefix [c] (format_from Top fs' st)
      | AfterOpen =>
          if Ascii.eqb c "{" then lift_prefix [c] (format_from Top fs' st)
          else if Py.isdigit c then format_from (FieldIndex [c]) fs' st
          else (Stuck FormatFieldNotModelled, st)
      | AfterClose =>
          if Ascii.eqb c "}" then lift_prefix [c] (format_from Top fs' st)
          else
            (Raise (ValueError
                      (chars "Single '}' encountered in format string")),
             st)
      | FieldIndex ds =>
          if Py.isdigit c then format_from (FieldIndex (ds ++ [c])) fs' st
          else if Ascii.eqb c "!" then format_from (FieldBang ds) fs' st
          else (Stuck FormatFieldNotModelled, st)
      | FieldBang ds =>
          if Ascii.eqb c "s" then format_from (FieldConv ds) fs' st
          else (Stuck FormatFieldNotModelled, st)
      | FieldConv ds =>
          if Ascii.eqb c "}" then
            match Py.index_of_digits ds with
            | Some idx =>
                match arg_str idx st with
                | (Ok v, st1) => lift_prefix v (format_from Top fs' st1)
                | other => other
                end
            | None => (Stuck FormatFieldNotModelled, st)
            end
          else (Stuck FormatFieldNotModelled, st)
      end
  end.

(** [format_string.format] applied to the unpacked arguments. *)
Definition py_format (fs : str) (st : S) : result str * S :=
  format_from Top fs st.

End Format.

Arguments format_from {S} arg_str m fs st.
Arguments py_format {S} arg_str fs st.

Definition tuple_index_error : exn :=
  IndexError (chars "tuple index out of range").

(** [ReferenceFormat.__init__]: the format string is tried on as many
    copies of ["test"] as there are substitutions. *)
Definition ReferenceFormat_init (format_string : str)
  (substitutions : list str) : result TemplateValue :=
  let n := length substitutions in
  let test := fun (idx : nat) (_ : unit) =>
    if idx <? n then (Ok (chars "test"), tt)
    else (Raise tuple_index_error, tt) in
  match fst (py_format test format_string tt) with
  | Ok _ => Ok (ReferenceFormat format_string substitutions)
  | Raise e => Raise e
  | Stuck g => Stuck g
  end.

(** [ReferenceCollection]: the dictionary of references made so far,
    kept as the list of its keys.  The list stands for the set of keys:
    a Python 2 [dict] is iterated in an order of its own, which the
    order of the list does not tell. *)
Definition ReferenceCollection := list str.

(** [self[key]] with [ReferenceCollection.__missing__]. *)
Definition ReferenceCollection_getitem (self : ReferenceCollection)
  (key : str) : ReferenceCollection :=
  if mem key self then self else self ++ [key].

(** ["{{{:d}!s}}".format(idx)] *)
Definition field (idx : nat) : str :=
  chars "{" ++ Py.decimal idx ++ chars "!s}".

Arguments field idx : simpl never.

(** The loop of [format] over [enumerate(replace)]. *)
Fixpoint replace_markers (idx : nat) (names : list str) (string_format : str)
  : str :=
  match names with
  | [] => string_format
  | name :: rest =>
      replace_markers (S idx) rest
        (Py.replace (marker name) (field idx) string_format)
  end.

(** [ReferenceCollection.format] *)
Definition format (self : ReferenceCollection) (raw_text : str)
  : result TemplateValue * ReferenceCollection :=
  let refnames := findall raw_text in
  match refnames with
  | [] => (Ok (Text raw_text), self)
  | first :: _ =>
      if Py.str_eqb raw_text (marker first) then
        (Ok (Reference first), ReferenceCollection_getitem self first)
      else
        let replace := unique refnames in
        let string_format := replace_markers 0 replace raw_text in
        let self' := fold_left ReferenceCollection_getitem replace self in
        (ReferenceFormat_init string_format replace, self')
  end.

(** ** pyparsing, as far as [config.py] uses it

    Every token skips the default white characters first; [parseString]
    expands tabs before parsing and does not ask for the whole line to be
    consumed. *)

Module Pyparsing.

(** Named results of one line. *)
Record ParseResults : Type := mkResults {
  COMMENT : option str;
  SECTION : option str;
  WEIGHT : option Z;
  VALUE : option str
}.

Definition no_results : ParseResults := mkResults None None None None.

Definition Parser := str -> option (ParseResults * str).

(** [DEFAULT_WHITE_CHARS]: space, LF, TAB, CR. *)
Definition white (c : ascii) : bool :=
  Ascii.eqb c Py.space || Ascii.eqb c Py.newline
  || Ascii.eqb c Py.tab || Ascii.eqb c Py.cr.

Fixpoint preParse (s : str) : str :=
  match s with
  | c :: s' => if white c then preParse s' else s
  | [] => []
  end.

(** [Suppress(lit)] for a one-character literal. *)
Definition Suppress (lit : ascii) (s : str) : option str :=
  match preParse s with
  | c :: rest => if Ascii.eqb c lit then Some rest else None
  | [] => None
  end.

(** A token made of the longest non-empty run of [cls]:
    [Word(nums)] and [Regex("[-_a-zA-Z0-9]+")]. *)
Definition run_of (cls : ascii -> bool) (s : str) : option (str * str) :=
  match Py.span cls (preParse s) with
  | ((_ :: _) as tok, rest) => Some (tok, rest)
  | _ => None
  end.

Definition not_newline (c : ascii) : bool := negb (Ascii.eqb c Py.newline).

(** [Regex(".*$")]: the dot stops at LF, the dollar wants the end of
    the input or a final LF. *)
Definition Regex_dot_star_end (s : str) : option (str * str) :=
  match Py.span not_newline (preParse s) with
  | (tok, []) => Some (tok, [])
  | (tok, [c]) => Some (tok, [c])
  | _ => None
  end.

(** [Regex(".+")] *)
Definition Regex_dot_plus (s : str) : option (str * str) :=
  run_of not_newline s.

(** [SECTION_LINE] *)
Definition SECTION_LINE : Parser := fun s =>
  match Suppress "[" s with
  | Some s1 =>
      match run_of name_char s1 with
      | Some (name, s2) =>
          match Suppress "]" s2 with
          | Some s3 => Some (mkResults None (Some name) None None, s3)
          | None => None
          end
      | None => None
      end
  | None => None
  end.

(** [COMMENT_LINE] *)
Definition COMMENT_LINE : Parser := fun s =>
  match Suppress "#" s with
  | Some s1 =>
      match Regex_dot_star_end s1 with
      | Some (text, s2) => Some (mkResults (Some text) None None None, s2)
      | None => None
      end
  | None => None
  end.

(** [VALUE_LINE]; the parse action turns the digits into an [int]. *)
Definition VALUE_LINE : Parser := fun s =>
  match run_of Py.isdigit s with
  | Some (digits, s1) =>
      match Suppress ":" s1 with
      | Some s2 =>
          match Regex_dot_plus s2 with
          | Some (text, s3) =>
              Some (mkResults None None (Some (Py.int digits)) (Some text),
                    s3)
          | None => None
          end
      | None => None
      end
  | None => None
  end.

(** [a ^ b]: every alternative is tried and the longest match wins,
    the earlier one on a tie. *)
Definition Or (a b : Parser) : Parser := fun s =>
  match a s, b s with
  | Some (ra, resta), Some (rb, restb) =>
      if length resta <=? length restb
      then Some (ra, resta) else Some (rb, restb)
  | Some m, None => Some m
  | None, other => other
  end.

(** [CONFIG_LINE] *)
Definition CONFIG_LINE : Parser := Or (Or COMMENT_LINE SECTION_LINE) VALUE_LINE.

(** [CONFIG_LINE.parseString(line)] *)
Definition parseString (line : str) : result ParseResults :=
  match CONFIG_LINE (Py.expandtabs line) with
  | Some (r, _) => Ok r
  | None => Raise ParseException
  end.

End Pyparsing.

Import Pyparsing.

(** ** config.py *)

Definition RandomString := WeightedCollection TemplateValue.

(** [Config]: an [OrderedDict] from section names to [RandomString]s. *)
Definition Config := list (str * RandomString).

Fixpoint Config_get (self : Config) (key : str) : option RandomString :=
  match self with
  | [] => None
  | (k, v) :: rest => if Py.str_eqb k key then Some v else Config_get rest key
  end.

(** [key in self] *)
Definition Config_contains (self : Config) (key : str) : bool :=
  match Config_get self key with Some _ => true | None => false end.

(** [self[key] = v]: an existing key keeps its place. *)
Fixpoint Config_setitem (self : Config) (key : str) (v : RandomString)
  : Config :=
  match self with
  | [] => [(key, v)]
  | (k, v0) :: rest =>
      if Py.str_eqb k key then (k, v) :: rest
      else (k, v0) :: Config_setitem rest key v
  end.

(** [Config.__missing__] *)
Definition Config_missing (self : Config) (section_name : option str)
  : result RandomString * Config :=
  match section_name with
  | None => (Raise (ValueError (chars "Invalid section name")), self)
  | Some name => (Ok [], Config_setitem self name [])
  end.

(** [self[key]]: a missing key goes through [__missing__]. *)
Definition Config_getitem (self : Config) (key : str)
  : result RandomString * Config :=
  match Config_get self key with
  | Some v => (Ok v, self)
  | None => Config_missing self (Some key)
  end.

(** [parse_config]: one triple per line; the generator raises when it
    reaches a line that does not parse. *)
Fixpoint parse_config_from (lineno : nat) (lines : list str)
  : list (nat * str * result (option ParseResults)) :=
  match lines with
  | [] => []
  | line :: rest =>
      (lineno, line,
       match Py.strip line with
       | [] => Ok None
       | _ :: _ =>
           match parseString line with
           | Ok data => Ok (Some data)
           | Raise e => Raise (ConfigException lineno line e)
           | Stuck g => Stuck g
           end
       end) :: parse_config_from (S lineno) rest
  end.

Definition parse_config (text : str)
  : list (nat * str * result (option ParseResults)) :=
  parse_config_from 1 (Py.split_newline text).

(** The variables of the loop in [Config.from_string]. *)
Record Loop : Type := mkLoop {
  config : Config;
  references : ReferenceCollection;
  current_section : option str
}.

Definition quoted (prefix : string) (name : str) : str :=
  chars prefix ++ chars "'" ++ name ++ chars "'".

(** [check_section] inside [from_string] *)
Definition check_section (conf : Config) (name : option str)
  : result Config :=
  match name with
  | None => Ok conf
  | Some n =>
      match Config_getitem conf n with
      | (Ok section, conf') =>
          size <- builtin_len (len section) ;;
          if (size <? 1)%Z
          then Raise (ValueError (quoted "Empty collection " n))
          else Ok conf'
      | (Raise e, _) => Raise e
      | (Stuck g, _) => Stuck g
      end
  end.

(** [config[current_section].add(text, weight=weight)] *)
Definition Config_add (self : Config) (name : str) (text : TemplateValue)
  (w : Z) : result Config :=
  match Config_getitem self name with
  | (Ok section, self') => Ok (Config_setitem self' name (add section text w))
  | (Raise e, _) => Raise e
  | (Stuck g, _) => Stuck g
  end.

(** The body of the [try] block for one line. *)
Definition loop_body (st : Loop) (parsed : option ParseResults)
  : result Loop :=
  match parsed with
  | None =>
      conf <- check_section (config st) (current_section st) ;;
      Ok (mkLoop conf (references st) None)
  | Some r =>
      match COMMENT r, SECTION r, VALUE r, WEIGHT r with
      | Some _, _, _, _ => Ok st
      | None, Some name, _, _ =>
          conf <- check_section (config st) (current_section st) ;;
          Ok (mkLoop conf (references st) (Some name))
      | None, None, Some raw, Some w =>
          match current_section st with
          | None => Raise (ValueError (chars "Item outside section"))
          | Some cur =>
              let (text, refs) := format (references st) raw in
              text <- text ;;
              conf <- Config_add (config st) cur text w ;;
              Ok (mkLoop conf refs (Some cur))
          end
      | _, _, _, _ => Raise (ValueError (chars "Invalid line"))
      end
  end.

(** [except Exception as e: raise ConfigException(lineno, line, e)] *)
Definition wrap {A} (lineno : nat) (line : str) (r : result A) : result A :=
  match r with
  | Raise e => Raise (ConfigException lineno line e)
  | other => other
  end.

(** The [for] loop over [parse_config(config_string)]. *)
Fixpoint run_loop (st : Loop)
  (lines : list (nat * str * result (option ParseResults)))
  : result Loop :=
  match lines with
  | [] => Ok st
  | (lineno, line, parsed) :: rest =>
      parsed <- parsed ;;
      st' <- wrap lineno line (loop_body st parsed) ;;
      run_loop st' rest
  end.

(** The final loop: a reference that names no collection.  With
    several of them the dictionary's own order decides which one the
    code reports; the model reports the one that comes first in its
    list. *)
Fixpoint check_references (conf : Config) (refs : list str) : result unit :=
  match refs with
  | [] => Ok tt
  | ref :: rest =>
      if Config_contains conf ref then check_references conf rest
      else Raise (ValueError (quoted "Reference to missing collection " ref))
  end.

Definition initial_loop : Loop := mkLoop [] [] None.

(** [Config.from_string] *)
Definition from_string (config_string : str) : result Config :=
  st <- run_loop initial_loop (parse_config config_string) ;;
  _ <- check_references (config st) (references st) ;;
  Ok (config st).

(** ** Rendering *)

(** The two mutable things a render touches. *)
Record World : Type := mkWorld { grammar : Config; rng : Rand }.

Section Render.

(** [str] of a [RandomString] one level further down. *)
Variable render : RandomString -> World -> result str * World.

(** [Reference.__str__]: [str(self._source[self.key])] *)
Definition Reference_str (key : str) (w : World) : result str * World :=
  match Config_getitem (grammar w) key with
  | (Ok section, g) => render section (mkWorld g (rng w))
  | (Raise e, g) => (Raise e, mkWorld g (rng w))
  | (Stuck x, g) => (Stuck x, mkWorld g (rng w))
  end.

(** [str(args[idx])] for the arguments of [ReferenceFormat.__str__],
    the references [substitutions]. *)
Definition substitution_str (substitutions : list str) (idx : nat)
  (w : World) : result str * World :=
  match nth_error substitutions idx with
  | Some key => Reference_str key w
  | None => (Raise tuple_index_error, w)
  end.

(** [ReferenceFormat.__str__]: every field converts its argument with
    [!s] when the field is reached. *)
Definition ReferenceFormat_str (format_string : str)
  (substitutions : list str) (w : World) : result str * World :=
  py_format (substitution_str substitutions) format_string w.

(** [str(item)] for the three kinds of value; none is callable. *)
Definition str_item (item : TemplateValue) (w : World)
  : result str * World :=
  match item with
  | Text s => (Ok s, w)
  | Reference key => Reference_str key w
  | ReferenceFormat fs subs => ReferenceFormat_str fs subs w
  end.

End Render.

(** [RandomString.__str__]; [fuel] bounds the depth of nested calls. *)
Fixpoint RandomString_str (fuel : nat) (self : RandomString) (w : World)
  : result str * World :=
  match fuel with
  | O => (Stuck FuelExhausted, w)
  | S fuel' =>
      match list_of self with
      | Ok slots =>
          match random_choice slots (rng w) with
          | (Ok item, rng') =>
              str_item (RandomString_str fuel') (value item)
                (mkWorld (grammar w) rng')
          | (Raise e, rng') => (Raise e, mkWorld (grammar w) rng')
          | (Stuck g, rng') => (Stuck g, mkWorld (grammar w) rng')
          end
      | Raise e => (Raise e, w)
      | Stuck g => (Stuck g, w)
      end
  end.

(** ** __init__.py *)

Definition DEFAULT_SOURCE : str := chars "default".

(** [str(self.data[source])], the first statement of [Why.__call__]. *)
Definition Why_reason (fuel : nat) (data : Config) (source : str) (r : Rand)
  : result str * World :=
  match Config_getitem data source with
  | (Ok section, g) => RandomString_str fuel section (mkWorld g r)
  | (Raise e, g) => (Raise e, mkWorld g r)
  | (Stuck x, g) => (Stuck x, mkWorld g r)
  end.

(** [reason[0].upper() + reason[1:]] *)
Definition capitalize (reason : str) : result str :=
  match reason with
  | c :: rest => Ok (Py.upper c :: rest)
  | [] => Raise (IndexError (chars "string index out of range"))
  end.

(** [Why.__call__] *)
Definition Why_call (fuel : nat) (data : Config) (source : str) (r : Rand)
  : result str * World :=
  let (reason, w) := Why_reason fuel data source r in
  (bind reason capitalize, w).

(** ** files.py *)

(** The functions of [os.path] on POSIX that the module calls. *)
Module Posixpath.

Definition sep : ascii := "/"%char.
Definition extsep : ascii := "."%char.
Definition pathsep : ascii := ":"%char.

(** [s.rfind(c)]: the index of the last [c], or -1. *)
Fixpoint rfind (c : ascii) (s : str) : Z :=
  match s with
  | [] => (-1)%Z
  | x :: s' =>
      let r := rfind c s' in
      if (0 <=? r)%Z then (r + 1)%Z
      else if Ascii.eqb x c then 0%Z else (-1)%Z
  end.

(** [os.path.splitext]: the extension starts at the last dot, when that
    dot comes after the last separator and after a character of the
    file name that is not a dot. *)
Definition splitext (p : str) : str * str :=
  let sepIndex := rfind sep p in
  let dotIndex := rfind extsep p in
  if (sepIndex <? dotIndex)%Z then
    if existsb (fun x => negb (Ascii.eqb x extsep))
         (firstn (Z.to_nat (dotIndex - (sepIndex + 1)))
            (skipn (Z.to_nat (sepIndex + 1)) p))
    then (firstn (Z.to_nat dotIndex) p, skipn (Z.to_nat dotIndex) p)
    else (p, [])
  else (p, []).

(** [os.path.join(a, b)] *)
Definition join (a b : str) : str :=
  match b with
  | "/"%char :: _ => b
  | _ =>
      match rev a with
      | [] => a ++ b
      | "/"%char :: _ => a ++ b
      | _ => a ++ sep :: b
      end
  end.

(** [s.split(c)] for a one-character separator. *)
Fixpoint split (c : ascii) (s : str) : list str :=
  match s with
  | [] => [[]]
  | x :: s' =>
      if Ascii.eqb x c then [] :: split c s'
      else match split c s' with
           | l :: ls => (x :: l) :: ls
           | [] => [[x]]
           end
  end.

End Posixpath.

(** What the module asks of its surroundings: the environment, the
    file system, the home directory and the two directories computed
    when the module is loaded.  [listdir] is [None] where [os.listdir]
    raises [OSError]. *)
Record System : Type := mkSystem {
  environ : str -> option str;
  isdir : str -> bool;
  access_rx : str -> bool;
  listdir : str -> option (list str);
  home : str;
  INSTALL_DIR : str;
  SOURCE_DIR : str
}.

Definition ENV_DEFAULT_DIR : str := chars "WHYNOT_DEFAULT_DIR".
Definition ENV_PATH : str := chars "WHYNOT_PATH".

(** [is_readable_dir]: [None] and the empty string are false. *)
Definition is_readable_dir (sys : System) (path : option str) : bool :=
  match path with
  | None => false
  | Some [] => false
  | Some p => isdir sys p && access_rx sys p
  end.

(** [get_default_path] *)
Definition get_default_path (sys : System) : option str :=
  match
    find (is_readable_dir sys)
      [environ sys ENV_DEFAULT_DIR; Some (INSTALL_DIR sys);
       Some (SOURCE_DIR sys)]
  with
  | Some path => path
  | None => None
  end.

(** The paths among [candidates] that [filter(is_readable_dir, ...)]
    keeps. *)
Fixpoint readable (sys : System) (candidates : list (option str))
  : list str :=
  match candidates with
  | [] => []
  | Some p :: rest =>
      if is_readable_dir sys (Some p) then p :: readable sys rest
      else readable sys rest
  | None :: rest => readable sys rest
  end.

(** [get_config_paths] *)
Definition get_config_paths (sys : System) : list str :=
  readable sys
    (map Some
       (rev (Posixpath.split Posixpath.pathsep
               match environ sys ENV_PATH with
               | Some v => v
               | None => []
               end))
     ++ [Some (Posixpath.join (home sys) (chars ".whynot"));
         get_default_path sys]).

(** How [find_config] ends: with the path of a file, with [None], or
    with the [OSError] of [os.listdir]. *)
Inductive search : Type :=
| Found (path : str)
| NotFound
| ListingFails (path : str).

(** The inner loop of [find_config], over the names in one directory. *)
Fixpoint find_in (name path : str) (filenames : list str) : option str :=
  match filenames with
  | [] => None
  | filename :: rest =>
      let (base, ext) := Posixpath.splitext filename in
      if Py.str_eqb ext (chars ".cfg") && Py.str_eqb base name
      then Some (Posixpath.join path filename)
      else find_in name path rest
  end.

(** The outer loop of [find_config]. *)
Fixpoint find_config_in (sys : System) (name : str) (paths : list str)
  : search :=
  match paths with
  | [] => NotFound
  | path :: rest =>
      match listdir sys path with
      | None => ListingFails path
      | Some filenames =>
          match find_in name path filenames with
          | Some file => Found file
          | None => find_config_in sys name rest
          end
      end
  end.

(** [if not paths: paths = get_config_paths()] *)
Definition search_paths (sys : System) (paths : option (list str))
  : list str :=
  match paths with
  | None => get_config_paths sys
  | Some [] => get_config_paths sys
  | Some ps => ps
  end.

(** [find_config] *)
Definition find_config (sys : System) (name : str)
  (paths : option (list str)) : search :=
  find_config_in sys name (search_paths sys paths).

(** ** Vocabulary of the statements *)

(** The entries of a pool numbered from [k], so that a slot of the
    expanded pool tells which entry it came from even when two entries
    are equal. *)
Fixpoint tagged {V} (k : nat) (pool : WeightedCollection V)
  : WeightedCollection (nat * V) :=
  match pool with
  | [] => []
  | item :: rest => mkItem (k, value item) (weight item) :: tagged (S k) rest
  end.

(** For every slot of the expanded pool, the position of its entry. *)
Definition slot_owners {V} (pool : WeightedCollection V) : list nat :=
  map (fun slot => fst (value slot)) (iter (tagged 0 pool)).

(** Source text written line by line: the lines joined by LF. *)
Fixpoint join_lines (lines : list string) : str :=
  match lines with
  | [] => []
  | [l] => chars l
  | l :: rest => chars l ++ Py.newline :: join_lines rest
  end.

(** Whether a failure is a [KeyError]; [IndexError] is the other
    subclass of Python's [LookupError]. *)
Definition is_KeyError (e : exn) : bool :=
  match e with KeyError _ => true | _ => false end.

(** The references a stored value holds. *)
Definition refs_of (v : TemplateValue) : list str :=
  match v with
  | Text _ => []
  | Reference key => [key]
  | ReferenceFormat _ substitutions => substitutions
  end.

(** Every reference held anywhere in the grammar names one of its
    collections. *)
Definition refs_closed (cfg : Config) : Prop :=
  forall name section item key,
    Config_get cfg name = Some section ->
    In item section ->
    In key (refs_of (value item)) ->
    Config_contains cfg key = true.

(** The values of one collection refer to collections of [cfg]. *)
Definition resolves (cfg : Config) (self : RandomString) : Prop :=
  forall item key,
    In item self -> In key (refs_of (value item)) ->
    Config_contains cfg key = true.

(** What validation asks of a grammar: no collection is empty and no
    reference dangles. *)
Definition validated (cfg : Config) : Prop :=
  (forall name section,
     Config_get cfg name = Some section -> (1 <= len section)%Z)
  /\ refs_closed cfg.

(** Several top-level calls in a row on the same grammar object and the
    same random source. *)
Fixpoint Why_calls (fuel : nat) (data : Config) (sources : list str)
  (r : Rand) : list (result str) * World :=
  match sources with
  | [] => ([], mkWorld data r)
  | source :: rest =>
      let (out, w) := Why_call fuel data source r in
      let (outs, w') := Why_calls fuel (grammar w) rest (rng w) in
      (out :: outs, w')
  end.

(** The section a parsed line declares, if it is a header. *)
Definition section_of (parsed : option ParseResults) : list str :=
  match parsed with
  | Some r =>
      match COMMENT r, SECTION r with
      | None, Some name => [name]
      | _, _ => []
      end
  | None => []
  end.

(** The names a parsed line refers to, if it is a weighted entry. *)
Definition references_of (parsed : option ParseResults) : list str :=
  match parsed with
  | Some r =>
      match COMMENT r, SECTION r, VALUE r, WEIGHT r with
      | None, None, Some raw, Some _ => findall raw
      | _, _, _, _ => []
      end
  | None => []
  end.

Definition parsed_of (entry : nat * str * result (option ParseResults))
  : option ParseResults :=
  match snd entry with
  | Ok parsed => parsed
  | _ => None
  end.

(** The section names that the headers of a text declare. *)
Definition declared_sections (text : str) : list str :=
  flat_map (fun entry => section_of (parsed_of entry)) (parse_config text).

(** The names that the entries of a text refer to. *)
Definition referenced_names (text : str) : list str :=
  flat_map (fun entry => references_of (parsed_of entry)) (parse_config text).

(** One successful turn of the loop of [from_string], case by case. *)
Inductive step : Loop -> option ParseResults -> Loop -> Prop :=
| step_blank st :
    check_section (config st) (current_section st) = Ok (config st) ->
    step st None (mkLoop (config st) (references st) None)
| step_comment st r text :
    COMMENT r = Some text ->
    step st (Some r) st
| step_section st r name :
    COMMENT r = None -> SECTION r = Some name ->
    check_section (config st) (current_section st) = Ok (config st) ->
    step st (Some r) (mkLoop (config st) (references st) (Some name))
| step_value st r raw w cur text refs conf :
    COMMENT r = None -> SECTION r = None ->
    VALUE r = Some raw -> WEIGHT r = Some w ->
    current_section st = Some cur ->
    format (references st) raw = (Ok text, refs) ->
    Config_add (config st) cur text w = Ok conf ->
    step st (Some r) (mkLoop conf refs (Some cur)).

Inductive steps : Loop -> list (option ParseResults) -> Loop -> Prop :=
| steps_nil st : steps st [] st
| steps_cons st parsed st1 rest st2 :
    step st parsed st1 -> steps st1 rest st2 ->
    steps st (parsed :: rest) st2.

(** The collection under [name], or the empty one that a lookup of a
    missing name creates. *)
Definition section_or_new (conf : Config) (name : str) : RandomString :=
  match Config_get conf name with
  | Some section => section
  | None => []
  end.

(** A collection-name token: one or more characters of
    [[-_a-zA-Z0-9]]. *)
Definition valid_name (name : str) : Prop :=
  name <> [] /\ forallb name_char name = true.

(** The weight of a parsed line is not negative. *)
Definition weight_ok (parsed : option ParseResults) : Prop :=
  forall r w, parsed = Some r -> WEIGHT r = Some w -> (0 <= w)%Z.

(** Every stored reference is in the registry, and no stored weight is
    negative. *)
Definition values_ok (st : Loop) : Prop :=
  forall name section item,
    Config_get (config st) name = Some section -> In item section ->
    (0 <= weight item)%Z
    /\ forall key, In key (refs_of (value item)) -> In key (references st).

(** The registry holds exactly the names referred to so far. *)
Definition registry_ok (done : list (option ParseResults)) (st : Loop)
  : Prop :=
  forall x, In x (references st) <-> In x (flat_map references_of done).

(** The keys of the grammar and the name of the open collection come
    from headers, and every header read so far is a key or still open. *)
Definition sections_ok (done : list (option ParseResults)) (st : Loop)
  : Prop :=
  (forall n, Config_contains (config st) n = true ->
             In n (flat_map section_of done))
  /\ (forall n, current_section st = Some n ->
                In n (flat_map section_of done))
  /\ (forall n, In n (flat_map section_of done) ->
                Config_contains (config st) n = true
                \/ current_section st = Some n).

(** The value text as the specification words it: what follows the
    first colon of the line, less one space if a space comes first. *)
Fixpoint after_first_colon (line : str) : option str :=
  match line with
  | [] => None
  | c :: rest => if Ascii.eqb c ":" then Some rest else after_first_colon rest
  end.

Definition drop_one_space (s : str) : str :=
  match s with
  | c :: rest => if Ascii.eqb c Py.space then rest else s
  | [] => []
  end.

Definition value_text_as_specified (line : str) : option str :=
  option_map drop_one_space (after_first_colon line).

(** *** Texts cut into tokens

    A value text is a sequence of plain characters and of markers; the
    format string made from it has fields where the markers were. *)
Inductive token : Type :=
| Chr (c : ascii)
| Mark (name : str)
| Fld (idx : nat).

Definition token_text (t : token) : str :=
  match t with
  | Chr c => [c]
  | Mark name => marker name
  | Fld idx => field idx
  end.

Definition text_of (ts : list token) : str := flat_map token_text ts.

(** The tokens of a text, found the way [findall] finds the markers. *)
Fixpoint tokenize_from (skip : nat) (s : str) : list token :=
  match s with
  | [] => []
  | c :: s' =>
      match skip with
      | S k => tokenize_from k s'
      | O =>
          match match_marker s with
          | Some name => Mark name :: tokenize_from (S (length name)) s'
          | None => Chr c :: tokenize_from 0 s'
          end
      end
  end.

Definition tokenize (raw : str) : list token := tokenize_from 0 raw.

Definition marks (ts : list token) : list str :=
  flat_map (fun t => match t with Mark name => [name] | _ => [] end) ts.

(** Whether the tokens continue a marker that has been opened: name
    characters up to a closing bracket, all of them plain characters. *)
Fixpoint closes (ts : list token) : bool :=
  match ts with
  | Chr d :: rest => if name_char d then closes rest else Ascii.eqb d ">"
  | _ => false
  end.

Definition opens (ts : list token) : bool :=
  match ts with
  | Chr d :: rest => name_char d && closes rest
  | _ => false
  end.

(** No plain character starts a marker, and the markers have names. *)
Fixpoint well_formed (ts : list token) : Prop :=
  match ts with
  | [] => True
  | Chr c :: rest => (c = "<"%char -> opens rest = false) /\ well_formed rest
  | Mark name :: rest => valid_name name /\ well_formed rest
  | Fld _ :: rest => well_formed rest
  end.

(** The place of a name in the list of distinct names. *)
Fixpoint position (name : str) (names : list str) : option nat :=
  match names with
  | [] => None
  | n :: rest =>
      if Py.str_eqb n name then Some 0 else option_map S (position name rest)
  end.

(** One replacement: the markers of [name] become the field [idx]. *)
Definition subst (name : str) (idx : nat) (t : token) : token :=
  match t with
  | Mark m => if Py.str_eqb m name then Fld idx else Mark m
  | other => other
  end.

(** All the replacements for [names], numbered from [idx]. *)
Definition assign (idx : nat) (names : list str) (t : token) : token :=
  match t with
  | Mark m =>
      match position m names with
      | Some p => Fld (idx + p)
      | None => Mark m
      end
  | other => other
  end.

Definition is_brace (c : ascii) : bool := Ascii.eqb c "{" || Ascii.eqb c "}".

(** A text without braces: no character of it can be read as part of a
    replacement field. *)
Definition brace_free (raw : str) : Prop :=
  forallb (fun c => negb (is_brace c)) raw = true.

Section Walk.

Variable S : Type.
Variable mark_str : str -> S -> result str * S.
Variable fld_str : nat -> S -> result str * S.

(** The string of a token sequence: plain characters as they are, a
    marker or field by converting what it stands for at that moment. *)
Fixpoint walk (ts : list token) (st : S) : result str * S :=
  match ts with
  | [] => (Ok [], st)
  | Chr c :: rest => lift_prefix [c] (walk rest st)
  | Mark name :: rest =>
      match mark_str name st with
      | (Ok v, st1) => lift_prefix v (walk rest st1)
      | other => other
      end
  | Fld idx :: rest =>
      match fld_str idx st with
      | (Ok v, st1) => lift_prefix v (walk rest st1)
      | other => other
      end
  end.

End Walk.

Arguments walk {S} mark_str fld_str ts st.

(** The value text rendered as the specification words it: the text
    read from left to right, every occurrence of a marker replaced by
    the string of its reference, converted when the occurrence is
    reached. *)
Definition substitute {S} (ref_str : str -> S -> result str * S)
  (raw : str) (st : S) : result str * S :=
  walk ref_str (fun _ st' => (Ok [], st')) (tokenize raw) st.

(** Tokens of a finished format string over a text without braces:
    plain characters that are not braces, and fields. *)
Definition fielded (ts : list token) : Prop :=
  Forall (fun t => match t with
                   | Chr c => is_brace c = false
                   | Mark _ => False
                   | Fld _ => True
                   end) ts.

(** A marker of [name] occurs in the text. *)
Definition occurs (name raw : str) : Prop :=
  exists before after, raw = before ++ marker name ++ after.

(** ** More of weight.py *)


(** ** More vocabulary for config.py *)

(** Every collection of [before] is still there in [after], with its
    entries first and in the same order, and the keys of [before] come
    first among the keys of [after]. *)
Definition extends (before after : Config) : Prop :=
  (forall name section,
     Config_get before name = Some section ->
     exists more, Config_get after name = Some (section ++ more))
  /\ exists more_keys, map fst after = map fst before ++ more_keys.

(** What the loop of [from_string] can report about one line. *)
Definition line_cause (cause : exn) : Prop :=
  cause = ParseException
  \/ (exists name, cause = ValueError (quoted "Empty collection " name))
  \/ cause = ValueError (chars "Item outside section")
  \/ cause = ValueError (chars "Single '{' encountered in format string")
  \/ cause = ValueError (chars "Single '}' encountered in format string")
  \/ cause = tuple_index_error
  \/ cause = OverflowError
  \/ cause = ValueError (chars "__len__() should return >= 0").

(** The three shapes of a line that [CONFIG_LINE] accepts. *)
Definition line_shape (r : ParseResults) : Prop :=
  (exists text, r = mkResults (Some text) None None None)
  \/ (exists name, r = mkResults None (Some name) None None)
  \/ (exists w raw, r = mkResults None None (Some w) (Some raw)).

(** No value of the text has a brace in it. *)
Definition plain_values (text : str) : Prop :=
  forall line r raw,
    In line (Py.split_newline text) -> parseString line = Ok r ->
    VALUE r = Some raw -> brace_free raw.

(** What the loop of [from_string] can report about a line of a text
    whose values have no braces. *)
Definition build_cause (cause : exn) : Prop :=
  cause = ParseException
  \/ (exists name, cause = ValueError (quoted "Empty collection " name))
  \/ cause = ValueError (chars "Item outside section")
  \/ cause = OverflowError.

(** The line numbers of a failure once a line has been put in as
    line [first]: the lines before it keep their numbers, the others
    move one down. *)
Definition renumber {A} (first : nat) (r : result A) : result A :=
  match r with
  | Raise (ConfigException lineno line cause) =>
      Raise (ConfigException (if lineno <? first then lineno else S lineno)
               line cause)
  | other => other
  end.

(** ** What a render can come to *)

(** The outcomes that a grammar in good order allows a conversion: a
    string, not empty where [must] is set, or, where [lax] is set, the
    nesting of calls running out; the state satisfies [Inv] after
    either. *)
Definition fine {S} (lax : bool) (Inv : S -> Prop) (must : bool)
  (r : result str * S) : Prop :=
  match r with
  | (Ok out, st) => Inv st /\ (must = true -> out <> [])
  | (Stuck FuelExhausted, st) => lax = true /\ Inv st
  | _ => False
  end.

(** Whether the scan of a format string from mode [m] has anything left
    to write. *)
Definition some_output (m : format_mode) (fs : str) : bool :=
  match m with
  | Top => match fs with [] => false | _ :: _ => true end
  | _ => true
  end.

(** A stored value as [ReferenceCollection.format] makes it from a text
    that is not empty: a text that is not empty, a reference, or a
    format string that is not empty and has passed the trial of
    [ReferenceFormat.__init__]. *)
Definition sound_value (v : TemplateValue) : Prop :=
  match v with
  | Text s => s <> []
  | Reference _ => True
  | ReferenceFormat fs subs =>
      fs <> [] /\ ReferenceFormat_init fs subs = Ok (ReferenceFormat fs subs)
  end.

Definition values_sound (cfg : Config) : Prop :=
  forall name section item,
    Config_get cfg name = Some section -> In item section ->
    sound_value (value item).

(** The value text of a parsed line is not empty. *)
Definition value_nonempty (parsed : option ParseResults) : Prop :=
  forall r raw, parsed = Some r -> VALUE r = Some raw -> raw <> [].

(** Every reference leads to a collection of lower rank: the references
    of the grammar form no cycle. *)
Definition ranked (cfg : Config) (rank : str -> nat) : Prop :=
  forall name section item key,
    Config_get cfg name = Some section -> In item section ->
    In key (refs_of (value item)) -> rank key < rank name.

(** The collections named in [names] lead only to one another: every
    entry of theirs that can be drawn is a reference to one of them. *)
Definition closed_circle (cfg : Config) (names : list str) : Prop :=
  forall name, In name names ->
    exists section,
      Config_get cfg name = Some section
      /\ forall item, In item section -> (0 < weight item)%Z ->
           exists key, value item = Reference key /\ In key names.

(** ** The [__repr__] methods of weight.py *)

(** [str.format] with fields of any kind, as the scanner of CPython
    reads a format string: literal text runs up to a brace; a doubled
    brace is one brace; a closing brace alone is refused on the spot; an
    opening brace starts a field, which runs to the closing brace that
    matches it.  What a field stands for is left to [field_str], which
    is asked when the field has been read. *)
Inductive markup_mode : Type :=
| Literal
| Braced (depth : nat) (field : str).

Section Markup.

Variable field_str : str -> result str.

Fixpoint markup_from (m : markup_mode) (fs : str) : result str :=
  match fs with
  | [] =>
      match m with
      | Literal => Ok []
      | Braced _ _ => Raise (ValueError (chars "unmatched '{' in format"))
      end
  | c :: fs' =>
      match m with
      | Literal =>
          if Ascii.eqb c "{" then
            match fs' with
            | [] =>
                Raise (ValueError
                         (chars "Single '{' encountered in format string"))
            | d :: fs'' =>
                if Ascii.eqb d "{"
                then out <- markup_from Literal fs'' ;; Ok (c :: out)
                else markup_from (Braced 0 []) fs'
            end
          else if Ascii.eqb c "}" then
            match fs' with
            | [] =>
                Raise (ValueError
                         (chars "Single '}' encountered in format string"))
            | d :: fs'' =>
                if Ascii.eqb d "}"
                then out <- markup_from Literal fs'' ;; Ok (c :: out)
                else
                  Raise (ValueError
                           (chars "Single '}' encountered in format string"))
            end
          else out <- markup_from Literal fs' ;; Ok (c :: out)
      | Braced depth field =>
          if Ascii.eqb c "}" then
            match depth with
            | O =>
                v <- field_str field ;;
                out <- markup_from Literal fs' ;;
                Ok (v ++ out)
            | S d => markup_from (Braced d (field ++ [c])) fs'
            end
          else if Ascii.eqb c "{"
          then markup_from (Braced (S depth) (field ++ [c])) fs'
          else markup_from (Braced depth (field ++ [c])) fs'
      end
  end.

End Markup.

(** The format string of [WeightedItem.__repr__], its three adjacent
    literals put together. *)
Definition WeightedItem_repr_format : str :=
  chars "{0.__class__.__name__}(0.value!r}, weight={0.weight!r})".

(** [WeightedItem.__repr__]; [field_str self] says what a field stands
    for when the one argument of [format] is [self]. *)
Definition WeightedItem_repr {V}
  (field_str : WeightedItem V -> str -> result str) (self : WeightedItem V)
  : result str :=
  markup_from (field_str self) Literal WeightedItem_repr_format.

(** [sep.join(parts)] over a generator: the parts are produced in
    order, and the first that fails ends the call. *)
Fixpoint join_results (sep : str) (parts : list (result str)) : result str :=
  match parts with
  | [] => Ok []
  | [part] => part
  | part :: rest =>
      a <- part ;; b <- join_results sep rest ;; Ok (a ++ sep ++ b)
  end.

(** [WeightedCollection.__repr__]; [run_repr] is the attribute
    [_run_repr], which counts as false while it is not there, and
    [class_name] is [self.__class__.__name__]. *)
Definition WeightedCollection_repr {V}
  (field_str : WeightedItem V -> str -> result str) (class_name : str)
  (self : WeightedCollection V) (run_repr : bool) : result str * bool :=
  if run_repr then (Ok (chars "recursive..."), false)
  else
    match join_results (chars ", ") (map (WeightedItem_repr field_str) self)
    with
    | Ok joined =>
        (Ok (class_name ++ chars "(" ++ joined ++ chars ")"), false)
    | Raise e => (Raise e, true)
    | Stuck g => (Stuck g, true)
    end.

(** * Properties *)

(** ** Weighted pools *)

Section PoolFacts.

Context {V : Type}.
Implicit Types pool : WeightedCollection V.

Lemma len_shift pool : forall a b,
  fold_left (fun acc i => (acc + weight i)%Z) pool (a + b)%Z
  = (a + fold_left (fun acc i => (acc + weight i)%Z) pool b)%Z.
Proof.
  induction pool as [|i rest IH]; intros a b; simpl; [reflexivity|].
  rewrite <- Z.add_assoc. apply IH.
Qed.

Lemma len_from pool a :
  fold_left (fun acc i => (acc + weight i)%Z) pool a = (a + len pool)%Z.
Proof.
  unfold len. rewrite <- len_shift. f_equal. lia.
Qed.

Lemma len_cons (i : WeightedItem V) pool :
  len (i :: pool) = (weight i + len pool)%Z.
Proof. unfold len at 1. simpl. rewrite len_from. lia. Qed.

Lemma len_sum pool :
  len pool = fold_right Z.add 0%Z (map weight pool).
Proof.
  induction pool as [|i rest IH]; [reflexivity|].
  rewrite len_cons, IH. reflexivity.
Qed.

Lemma len_nonneg pool :
  Forall (fun i => (0 <= weight i)%Z) pool -> (0 <= len pool)%Z.
Proof.
  induction 1 as [|i rest Hi _ IH]; [unfold len; simpl; lia|].
  rewrite len_cons. lia.
Qed.

Lemma iter_app pool1 pool2 :
  iter (pool1 ++ pool2) = iter pool1 ++ iter pool2.
Proof.
  induction pool1 as [|i rest IH]; simpl; [reflexivity|].
  rewrite IH, app_assoc. reflexivity.
Qed.

Lemma iter_length pool :
  Forall (fun i => (0 <= weight i)%Z) pool ->
  Z.of_nat (length (iter pool)) = len pool.
Proof.
  induction 1 as [|i rest Hi _ IH]; [reflexivity|].
  simpl. rewrite length_app, repeat_length, len_cons, Nat2Z.inj_add, IH.
  lia.
Qed.

Lemma iter_In pool (slot : WeightedItem V) :
  In slot (iter pool) -> In slot pool.
Proof.
  induction pool as [|i rest IH]; simpl; [tauto|].
  rewrite in_app_iff. intros [H|H]; [left|right; auto].
  symmetry. eapply repeat_spec, H.
Qed.

Lemma iter_tagged pool : forall k,
  map (fun slot => mkItem (snd (value slot)) (weight slot))
      (iter (tagged k pool)) = iter pool.
Proof.
  induction pool as [|[v w] rest IH]; intros k; simpl; [reflexivity|].
  rewrite map_app, IH, map_repeat. reflexivity.
Qed.

Lemma owners_below pool : forall k j,
  j < k ->
  count_occ Nat.eq_dec
    (map (fun slot => fst (value slot)) (iter (tagged k pool))) j = 0.
Proof.
  induction pool as [|i rest IH]; intros k j Hj; simpl; [reflexivity|].
  rewrite map_app, count_occ_app, map_repeat, IH by lia. simpl.
  rewrite Nat.add_0_r. apply count_occ_not_In.
  intros H. apply repeat_spec in H. lia.
Qed.

Lemma owners_count pool : forall k j item,
  nth_error pool j = Some item ->
  count_occ Nat.eq_dec
    (map (fun slot => fst (value slot)) (iter (tagged k pool))) (k + j)
  = Z.to_nat (weight item).
Proof.
  induction pool as [|i rest IH]; intros k j item Hj.
  - destruct j; discriminate.
  - simpl. rewrite map_app, count_occ_app, map_repeat. simpl.
    destruct j as [|j]; simpl in Hj.
    + injection Hj as ->. rewrite Nat.add_0_r, owners_below by lia.
      rewrite count_occ_repeat_eq by reflexivity. lia.
    + rewrite count_occ_repeat_neq by lia.
      replace (k + S j) with (S k + j) by lia. apply (IH _ _ _ Hj).
Qed.

Lemma choice_slot (seq : list (WeightedItem V)) x r :
  seq <> [] ->
  exists slot,
    nth_error seq (x mod length seq) = Some slot /\
    random_choice seq (x :: r) = (Ok slot, r).
Proof.
  intros Hne. unfold random_choice. simpl.
  destruct (nth_error seq (x mod length seq)) as [slot|] eqn:E.
  - exists slot. split; reflexivity.
  - apply nth_error_None in E.
    assert (length seq <> 0) by (destruct seq; [congruence|simpl; lia]).
    pose proof (Nat.mod_upper_bound x (length seq)). lia.
Qed.

End PoolFacts.

(** ** The built-ins [len] and [list] on a pool *)

Lemma builtin_len_Ok n size :
  builtin_len n = Ok size -> size = n /\ (0 <= n <= maxsize)%Z.
Proof.
  unfold builtin_len.
  destruct (Z.ltb_spec maxsize n); [discriminate|].
  destruct (Z.ltb_spec n (- maxsize - 1)); [discriminate|]. simpl.
  destruct (Z.ltb_spec n 0); [discriminate|].
  intros [= <-]. lia.
Qed.

Lemma builtin_len_fits n : (0 <= n <= maxsize)%Z -> builtin_len n = Ok n.
Proof.
  intros H. unfold builtin_len.
  destruct (Z.ltb_spec maxsize n); [lia|].
  destruct (Z.ltb_spec n (- maxsize - 1)); [lia|]. simpl.
  destruct (Z.ltb_spec n 0); [lia|reflexivity].
Qed.



Lemma builtin_len_Raise n e :
  builtin_len n = Raise e ->
  e = OverflowError
  \/ e = ValueError (chars "__len__() should return >= 0") /\ (n < 0)%Z.
Proof.
  unfold builtin_len.
  destruct ((maxsize <? n)%Z || (n <? - maxsize - 1)%Z);
    [intros [= <-]; left; reflexivity|].
  destruct (Z.ltb_spec n 0); [|discriminate].
  intros [= <-]. right. split; [reflexivity|assumption].
Qed.

Lemma builtin_len_Stuck n g : builtin_len n <> Stuck g.
Proof.
  unfold builtin_len.
  destruct ((maxsize <? n)%Z || (n <? - maxsize - 1)%Z); [discriminate|].
  destruct (n <? 0)%Z; discriminate.
Qed.

(** The expanded list is at least as long as [len]: a negative weight
    lowers [len] and adds no slot. *)
Lemma iter_length_ge {V} (pool : WeightedCollection V) :
  (len pool <= Z.of_nat (length (iter pool)))%Z.
Proof.
  induction pool as [|i rest IH]; [unfold len; simpl; lia|].
  simpl. rewrite length_app, repeat_length, len_cons, Nat2Z.inj_add. lia.
Qed.

Lemma capacity_maxsize : (0 <= capacity <= maxsize)%Z.
Proof. unfold capacity, maxsize. lia. Qed.

Lemma expand_Ok {V} (pool : WeightedCollection V) : forall room slots,
  expand room pool = Ok slots -> slots = iter pool.
Proof.
  induction pool as [|item rest IH]; intros room slots; simpl.
  - intros [= <-]. reflexivity.
  - destruct (maxsize <? weight item)%Z; [discriminate|].
    destruct (room <? weight item)%Z; [discriminate|].
    destruct (expand (room - Z.max 0 (weight item)) rest) as [tail| |] eqn:E;
      cbn [bind]; try discriminate.
    intros [= <-]. rewrite (IH _ _ E). reflexivity.
Qed.

Lemma expand_fits {V} (pool : WeightedCollection V) : forall room,
  (room <= maxsize)%Z -> (Z.of_nat (length (iter pool)) <= room)%Z ->
  expand room pool = Ok (iter pool).
Proof.
  induction pool as [|item rest IH]; intros room Hroom Hlen; [reflexivity|].
  simpl in *. rewrite length_app, repeat_length, Nat2Z.inj_add in Hlen.
  destruct (Z.ltb_spec maxsize (weight item)) as [H1|H1]; [lia|].
  destruct (Z.ltb_spec room (weight item)) as [H2|H2]; [lia|].
  rewrite IH by lia. reflexivity.
Qed.

Lemma list_of_Ok {V} (pool : WeightedCollection V) slots :
  list_of pool = Ok slots ->
  slots = iter pool /\ (0 <= len pool <= capacity)%Z.
Proof.
  unfold list_of. destruct (builtin_len (len pool)) as [size| |] eqn:L;
    cbn [bind]; try discriminate.
  apply builtin_len_Ok in L as [-> L].
  destruct (Z.ltb_spec capacity (len pool)) as [H1|H1]; [discriminate|].
  intros H. apply expand_Ok in H. split; [exact H|lia].
Qed.

(** A pool whose expansion has no more than [capacity] slots, and whose
    weights do not add up to less than zero, is expanded. *)
Lemma list_of_fits {V} (pool : WeightedCollection V) :
  (0 <= len pool)%Z ->
  (Z.of_nat (length (iter pool)) <= capacity)%Z ->
  list_of pool = Ok (iter pool).
Proof.
  intros Hlen Hfit. pose proof capacity_maxsize as Hc.
  pose proof (iter_length_ge pool) as Hge.
  unfold list_of. rewrite builtin_len_fits by lia. cbn [bind].
  destruct (Z.ltb_spec capacity (len pool)) as [H1|H1]; [lia|].
  apply expand_fits; lia.
Qed.

Lemma list_of_nonneg {V} (pool : WeightedCollection V) :
  Forall (fun i => (0 <= weight i)%Z) pool -> (len pool <= capacity)%Z ->
  list_of pool = Ok (iter pool).
Proof.
  intros Hw Hlen. apply list_of_fits.
  - apply len_nonneg. exact Hw.
  - rewrite (iter_length pool Hw). exact Hlen.
Qed.



(** ** The grammar as a dictionary *)

Lemma str_eqb_eq a b : Py.str_eqb a b = true <-> a = b.
Proof.
  unfold Py.str_eqb. destruct (list_eq_dec ascii_dec a b); split;
    congruence.
Qed.

Lemma str_eqb_refl a : Py.str_eqb a a = true.
Proof. apply str_eqb_eq. reflexivity. Qed.

Lemma str_eqb_neq a b : a <> b -> Py.str_eqb a b = false.
Proof.
  intros H. destruct (Py.str_eqb a b) eqn:E; [|reflexivity].
  apply str_eqb_eq in E. contradiction.
Qed.

Lemma mem_In x l : mem x l = true <-> In x l.
Proof.
  unfold mem. rewrite existsb_exists. split.
  - intros (y & Hy & E). apply str_eqb_eq in E. subst. exact Hy.
  - intros H. exists x. split; [exact H | apply str_eqb_refl].
Qed.

Lemma Config_get_setitem_same cfg key v :
  Config_get (Config_setitem cfg key v) key = Some v.
Proof.
  induction cfg as [|[k v0] rest IH]; simpl.
  - rewrite str_eqb_refl. reflexivity.
  - destruct (Py.str_eqb k key) eqn:E; simpl; rewrite E; auto.
Qed.

Lemma Config_get_setitem_other cfg key v other :
  other <> key ->
  Config_get (Config_setitem cfg key v) other = Config_get cfg other.
Proof.
  intros Hne. induction cfg as [|[k v0] rest IH]; simpl.
  - rewrite str_eqb_neq by congruence. reflexivity.
  - destruct (Py.str_eqb k key) eqn:E; simpl.
    + apply str_eqb_eq in E. subst k.
      rewrite str_eqb_neq by congruence. reflexivity.
    + rewrite IH. reflexivity.
Qed.

Lemma Config_setitem_new cfg key v :
  Config_contains cfg key = false ->
  Config_setitem cfg key v = cfg ++ [(key, v)].
Proof.
  unfold Config_contains. induction cfg as [|[k v0] rest IH]; simpl;
    [reflexivity|].
  destruct (Py.str_eqb k key); [discriminate|].
  intros H. rewrite IH by exact H. reflexivity.
Qed.

Lemma Config_getitem_present cfg key :
  Config_contains cfg key = true ->
  exists section,
    Config_get cfg key = Some section /\
    Config_getitem cfg key = (Ok section, cfg).
Proof.
  unfold Config_contains, Config_getitem.
  destruct (Config_get cfg key) as [section|]; [|discriminate].
  intros _. exists section. split; reflexivity.
Qed.

Lemma Config_getitem_absent cfg key :
  Config_contains cfg key = false ->
  Config_getitem cfg key = (Ok [], cfg ++ [(key, [])]).
Proof.
  intros H. unfold Config_getitem. pose proof H as H'.
  unfold Config_contains in H'.
  destruct (Config_get cfg key); [discriminate|].
  simpl. rewrite Config_setitem_new by exact H. reflexivity.
Qed.

Lemma Config_contains_grows cfg key v other :
  Config_contains cfg other = true ->
  Config_contains (Config_setitem cfg key v) other = true.
Proof.
  unfold Config_contains. intros H.
  destruct (list_eq_dec ascii_dec other key) as [->|Hne].
  - rewrite Config_get_setitem_same. reflexivity.
  - rewrite Config_get_setitem_other by exact Hne. exact H.
Qed.

(** ** Rendering *)

Lemma lift_prefix_snd {S} pre (r : result str * S) :
  snd (lift_prefix pre r) = snd r.
Proof. destruct r as [[out| |] st]; reflexivity. Qed.

(** A property of the state that every conversion of an argument keeps
    is kept by the whole formatting. *)
Lemma format_from_keeps {S} (P : S -> Prop)
  (arg_str : nat -> S -> result str * S) :
  (forall idx st, P st -> P (snd (arg_str idx st))) ->
  forall fs m st, P st -> P (snd (format_from arg_str m fs st)).
Proof.
  intros Harg. induction fs as [|c fs IH]; intros m st Hst.
  - destruct m; exact Hst.
  - destruct m; simpl;
      repeat match goal with
             | |- context [if ?b then _ else _] => destruct b
             end;
      try rewrite lift_prefix_snd; auto.
    destruct (Py.index_of_digits digits) as [idx|]; [|exact Hst].
    specialize (Harg idx st Hst).
    destruct (arg_str idx st) as [[v| |] st1]; simpl in *; auto.
    rewrite lift_prefix_snd. auto.
Qed.

Section RenderKeepsGrammar.

Variable cfg : Config.
Hypothesis Hclosed : refs_closed cfg.

Lemma Reference_str_keeps render key w :
  (forall self w', resolves cfg self -> grammar w' = cfg ->
                   grammar (snd (render self w')) = cfg) ->
  Config_contains cfg key = true ->
  grammar w = cfg ->
  grammar (snd (Reference_str render key w)) = cfg.
Proof.
  intros Hrender Hkey Hw. unfold Reference_str. rewrite Hw.
  destruct (Config_getitem_present cfg key Hkey) as (section & Hget & ->).
  apply Hrender; [|reflexivity].
  intros item k Hitem Hk. exact (Hclosed key section item k Hget Hitem Hk).
Qed.

Lemma RandomString_str_keeps fuel : forall self w,
  resolves cfg self -> grammar w = cfg ->
  grammar (snd (RandomString_str fuel self w)) = cfg.
Proof.
  induction fuel as [|fuel IH]; intros self w Hself Hw; simpl;
    [exact Hw|].
  destruct (list_of self) as [slots| |] eqn:L; try exact Hw.
  apply list_of_Ok in L as [-> _].
  destruct (random_choice (iter self) (rng w)) as [[item| |] rng'] eqn:E;
    simpl; try exact Hw.
  assert (Hitem : In item self).
  { unfold random_choice in E. destruct (next_random (rng w)) as [x r'].
    destruct (nth_error (iter self) (x mod length (iter self))) eqn:N;
      inversion E; subst.
    apply iter_In. eapply nth_error_In. exact N. }
  destruct (value item) as [s|key|fs subs] eqn:V; simpl.
  - exact Hw.
  - apply Reference_str_keeps; auto.
    apply (Hself item key Hitem). rewrite V. left. reflexivity.
  - unfold ReferenceFormat_str, py_format.
    apply (format_from_keeps (fun w' => grammar w' = cfg)); [|exact Hw].
    intros idx st Hst. unfold substitution_str.
    destruct (nth_error subs idx) as [key|] eqn:N; [|exact Hst].
    apply Reference_str_keeps; auto.
    apply (Hself item key Hitem). rewrite V. eapply nth_error_In, N.
Qed.

Lemma Why_call_keeps fuel source r :
  Config_contains cfg source = true ->
  grammar (snd (Why_call fuel cfg source r)) = cfg.
Proof.
  intros Hsrc. unfold Why_call, Why_reason.
  destruct (Config_getitem_present cfg source Hsrc) as (section & Hget & ->).
  destruct (RandomString_str fuel section (mkWorld cfg r)) as [out w] eqn:E.
  simpl. change w with (snd (out, w)). rewrite <- E.
  apply RandomString_str_keeps; [|reflexivity].
  intros item k Hitem Hk. exact (Hclosed source section item k Hget Hitem Hk).
Qed.

Lemma Why_calls_keep fuel sources : forall r,
  Forall (fun source => Config_contains cfg source = true) sources ->
  grammar (snd (Why_calls fuel cfg sources r)) = cfg.
Proof.
  induction sources as [|source rest IH]; intros r Hall; [reflexivity|].
  inversion Hall as [|? ? Hsrc Hrest]; subst. simpl.
  pose proof (Why_call_keeps fuel source r Hsrc) as Hk.
  destruct (Why_call fuel cfg source r) as [out w]. simpl in Hk.
  rewrite Hk.
  specialize (IH (rng w) Hrest).
  destruct (Why_calls fuel cfg rest (rng w)) as [outs w']. exact IH.
Qed.

End RenderKeepsGrammar.

(** ** The parsing loop *)

Lemma check_section_Ok conf name conf' :
  check_section conf name = Ok conf' ->
  conf' = conf /\
  forall n, name = Some n ->
    exists section, Config_get conf n = Some section /\ (1 <= len section)%Z.
Proof.
  destruct name as [n|]; simpl.
  - unfold Config_getitem. destruct (Config_get conf n) as [section|] eqn:G.
    + destruct (builtin_len (len section)) as [size| |] eqn:B; cbn [bind];
        try discriminate.
      apply builtin_len_Ok in B as [-> _].
      destruct (len section <? 1)%Z eqn:L; [discriminate|].
      intros [= <-]. split; [reflexivity|].
      intros ? [= <-]. exists section. split; [exact G|].
      apply Z.ltb_ge in L. exact L.
    + simpl. discriminate.
  - intros [= <-]. split; [reflexivity|]. discriminate.
Qed.

Lemma check_section_empty conf n :
  len (section_or_new conf n) = 0%Z ->
  check_section conf (Some n)
  = Raise (ValueError (quoted "Empty collection " n)).
Proof.
  unfold section_or_new, check_section, Config_getitem.
  destruct (Config_get conf n) as [section|]; simpl; intros H.
  - rewrite H. reflexivity.
  - reflexivity.
Qed.

Lemma Config_add_Ok conf name text w :
  Config_add conf name text w
  = Ok (Config_setitem (snd (Config_getitem conf name)) name
          (add (section_or_new conf name) text w)).
Proof.
  unfold Config_add, section_or_new, Config_getitem.
  destruct (Config_get conf name); reflexivity.
Qed.

Lemma Config_add_get conf name text w conf' :
  Config_add conf name text w = Ok conf' ->
  Config_get conf' name = Some (add (section_or_new conf name) text w)
  /\ forall other, other <> name ->
       Config_get conf' other = Config_get conf other.
Proof.
  rewrite Config_add_Ok. intros [= <-]. split.
  - apply Config_get_setitem_same.
  - intros other Hne. rewrite Config_get_setitem_other by exact Hne.
    unfold Config_getitem. destruct (Config_get conf name); simpl;
      [reflexivity|].
    apply Config_get_setitem_other. exact Hne.
Qed.

Lemma loop_body_step st parsed st' :
  loop_body st parsed = Ok st' -> step st parsed st'.
Proof.
  destruct parsed as [r|]; simpl.
  - destruct (COMMENT r) as [text|] eqn:C.
    { intros [= <-]. eapply step_comment. exact C. }
    destruct (SECTION r) as [name|] eqn:S.
    { destruct (check_section (config st) (current_section st))
        as [conf| |] eqn:K; simpl; try discriminate.
      intros [= <-]. destruct (check_section_Ok _ _ _ K) as [-> _].
      apply step_section; assumption. }
    destruct (VALUE r) as [raw|] eqn:V; [|discriminate].
    destruct (WEIGHT r) as [w|] eqn:W; [|discriminate].
    destruct (current_section st) as [cur|] eqn:Cur; [|discriminate].
    destruct (format (references st) raw) as [[text| |] refs] eqn:F;
      simpl; try discriminate.
    destruct (Config_add (config st) cur text w) as [conf| |] eqn:A;
      simpl; try discriminate.
    intros [= <-]. eapply step_value; eassumption.
  - destruct (check_section (config st) (current_section st))
      as [conf| |] eqn:K; simpl; try discriminate.
    intros [= <-]. destruct (check_section_Ok _ _ _ K) as [-> _].
    apply step_blank. assumption.
Qed.

Lemma wrap_Ok {A} lineno line (r : result A) a :
  wrap lineno line r = Ok a -> r = Ok a.
Proof. destruct r; simpl; congruence. Qed.

(** A loop that ends normally has parsed every line and taken a
    successful turn on each. *)
Lemma run_loop_steps lines : forall st st',
  run_loop st lines = Ok st' ->
  steps st (map parsed_of lines) st'
  /\ Forall (fun entry => snd entry = Ok (parsed_of entry)) lines.
Proof.
  induction lines as [|[[lineno line] parsed] rest IH]; intros st st' H.
  - simpl in H. injection H as <-. split; constructor.
  - simpl in H. destruct parsed as [p| |]; simpl in H; try discriminate.
    destruct (wrap lineno line (loop_body st p)) as [st1| |] eqn:B;
      simpl in H; try discriminate.
    apply wrap_Ok, loop_body_step in B.
    destruct (IH _ _ H) as [Hsteps Hall].
    split; [econstructor; eassumption|].
    constructor; [reflexivity|assumption].
Qed.

(** Induction over the turns taken so far. *)
Lemma steps_invariant (Q : option ParseResults -> Prop)
  (P : list (option ParseResults) -> Loop -> Prop) :
  (forall done st parsed st',
     Q parsed -> P done st -> step st parsed st' ->
     P (done ++ [parsed]) st') ->
  forall todo done st st',
    Forall Q todo -> P done st -> steps st todo st' -> P (done ++ todo) st'.
Proof.
  intros Hstep. induction todo as [|parsed rest IH];
    intros done st st' HQ HP Hsteps.
  - inversion Hsteps; subst. rewrite app_nil_r. exact HP.
  - inversion Hsteps as [|? ? st1 ? ? H1 H2]; subst.
    inversion HQ as [|? ? Hq Hqs]; subst.
    replace (done ++ parsed :: rest) with ((done ++ [parsed]) ++ rest)
      by (rewrite <- app_assoc; reflexivity).
    eapply IH; eauto.
Qed.

(** ** Markers and the registry of references *)

Lemma span_spec p s : forall a b,
  Py.span p s = (a, b) ->
  s = a ++ b /\ forallb p a = true
  /\ match b with c :: _ => p c = false | [] => True end.
Proof.
  induction s as [|c s IH]; simpl; intros a b H.
  - injection H as <- <-. auto.
  - destruct (p c) eqn:Pc.
    + destruct (Py.span p s) as [a' b'] eqn:E. injection H as <- <-.
      destruct (IH a' b' eq_refl) as (-> & Ha & Hb).
      simpl. rewrite Pc, Ha. auto.
    + injection H as <- <-. simpl. auto.
Qed.

Lemma span_app p a b :
  forallb p a = true ->
  match b with c :: _ => p c = false | [] => True end ->
  Py.span p (a ++ b) = (a, b).
Proof.
  induction a as [|c a IH]; simpl; intros Ha Hb.
  - destruct b as [|c b]; simpl; [reflexivity|]. rewrite Hb. reflexivity.
  - apply andb_prop in Ha as [Hc Ha]. rewrite Hc, IH by assumption.
    reflexivity.
Qed.

Lemma match_marker_Some s name :
  match_marker s = Some name <->
  valid_name name /\ exists rest, s = marker name ++ rest.
Proof.
  unfold match_marker, marker, valid_name. split.
  - destruct s as [|c s']; [discriminate|].
    destruct (Ascii.eqb c "<") eqn:Ec; [|discriminate].
    apply Ascii.eqb_eq in Ec. subst c.
    destruct (Py.span name_char s') as [run rest] eqn:Sp.
    destruct run as [|n0 run]; [discriminate|].
    destruct rest as [|d rest]; [discriminate|].
    destruct (Ascii.eqb d ">") eqn:Ed; [|discriminate].
    apply Ascii.eqb_eq in Ed. subst d. intros [= <-].
    destruct (span_spec _ _ _ _ Sp) as (-> & Hrun & _).
    split; [split; [discriminate|exact Hrun]|].
    exists rest. simpl. rewrite <- !app_assoc. reflexivity.
  - intros [[Hne Hall] [rest ->]]. simpl.
    rewrite <- app_assoc. simpl.
    rewrite (span_app name_char name (">"%char :: rest) Hall eq_refl).
    destruct name; [congruence|reflexivity].
Qed.

Lemma findall_from_cons k c s :
  findall_from k (c :: s)
  = match k with
    | S k' => findall_from k' s
    | O =>
        match match_marker (c :: s) with
        | Some name => name :: findall_from (S (length name)) s
        | None => findall_from 0 s
        end
    end.
Proof. reflexivity. Qed.

Lemma findall_from_short s : forall k,
  length s <= k -> findall_from k s = [].
Proof.
  induction s as [|c s IH]; intros k Hk; [reflexivity|].
  simpl in *. destruct k; [lia|]. apply IH. lia.
Qed.

Lemma findall_marker name :
  valid_name name -> findall (marker name) = [name].
Proof.
  intros Hv. unfold findall.
  assert (M : match_marker (marker name) = Some name).
  { apply match_marker_Some. split; [exact Hv|].
    exists []. rewrite app_nil_r. reflexivity. }
  unfold marker in *. simpl in *. rewrite M. f_equal.
  apply findall_from_short. rewrite length_app. simpl. lia.
Qed.

(** Whatever [findall] reports is a marker that occurs in the text. *)
Lemma findall_from_occurs s : forall k name,
  In name (findall_from k s) ->
  valid_name name /\ exists before after, s = before ++ marker name ++ after.
Proof.
  induction s as [|c s IH]; intros k name H; [contradiction|].
  simpl in H. destruct k as [|k].
  - destruct (match_marker (c :: s)) as [found|] eqn:M.
    + destruct H as [<-|H].
      * apply match_marker_Some in M as [Hv [rest E]].
        split; [exact Hv|]. exists [], rest. exact E.
      * destruct (IH _ _ H) as [Hv (b & a & ->)].
        split; [exact Hv|]. exists (c :: b), a. reflexivity.
    + destruct (IH _ _ H) as [Hv (b & a & ->)].
      split; [exact Hv|]. exists (c :: b), a. reflexivity.
  - destruct (IH _ _ H) as [Hv (b & a & ->)].
    split; [exact Hv|]. exists (c :: b), a. reflexivity.
Qed.

(** A marker that occurs in the text makes [findall] report something. *)
Lemma findall_finds before : forall name after,
  valid_name name ->
  findall (before ++ marker name ++ after) <> [].
Proof.
  unfold findall. induction before as [|c before IH];
    intros name after Hv.
  - assert (M : match_marker (marker name ++ after) = Some name)
      by (apply match_marker_Some; split; [exact Hv|exists after; reflexivity]).
    unfold marker in *. simpl in *. rewrite M. discriminate.
  - rewrite <- app_comm_cons, findall_from_cons.
    destruct (match_marker (c :: before ++ marker name ++ after));
      [discriminate|].
    apply IH. exact Hv.
Qed.

Lemma unique_from_In seq : forall seen x,
  In x (unique_from seen seq) <-> In x seq /\ ~ In x seen.
Proof.
  induction seq as [|y rest IH]; intros seen x; simpl; [tauto|].
  destruct (mem y seen) eqn:M.
  - apply mem_In in M. rewrite IH. split.
    + intros [H1 H2]. auto.
    + intros [[<-|H1] H2]; [contradiction|auto].
  - assert (Hy : ~ In y seen) by (rewrite <- mem_In; congruence).
    simpl. rewrite IH. simpl. split.
    + intros [<-|[H1 H2]]; [auto|]. split; [auto|]. tauto.
    + intros [[<-|H1] H2]; [auto|].
      destruct (list_eq_dec ascii_dec y x) as [->|Hne]; [auto|].
      right. split; [exact H1|]. intros [E|E]; [congruence|contradiction].
Qed.

Lemma unique_from_NoDup seq : forall seen, NoDup (unique_from seen seq).
Proof.
  induction seq as [|y rest IH]; intros seen; simpl; [constructor|].
  destruct (mem y seen); [apply IH|].
  constructor; [|apply IH].
  rewrite unique_from_In. simpl. tauto.
Qed.

Lemma unique_In seq x : In x (unique seq) <-> In x seq.
Proof. unfold unique. rewrite unique_from_In. simpl. tauto. Qed.

Lemma unique_NoDup seq : NoDup (unique seq).
Proof. apply unique_from_NoDup. Qed.

Lemma registry_getitem_In refs key x :
  In x (ReferenceCollection_getitem refs key) <-> In x refs \/ x = key.
Proof.
  unfold ReferenceCollection_getitem. destruct (mem key refs) eqn:M.
  - apply mem_In in M. split; [auto|]. intros [H| ->]; assumption.
  - rewrite in_app_iff. simpl. intuition congruence.
Qed.

Lemma registry_fold_In names : forall refs x,
  In x (fold_left ReferenceCollection_getitem names refs)
  <-> In x refs \/ In x names.
Proof.
  induction names as [|n rest IH]; intros refs x; simpl; [tauto|].
  rewrite IH, registry_getitem_In. intuition congruence.
Qed.

Lemma ReferenceFormat_init_Ok fs subs v :
  ReferenceFormat_init fs subs = Ok v -> v = ReferenceFormat fs subs.
Proof.
  unfold ReferenceFormat_init.
  destruct (fst (py_format _ fs tt)); congruence.
Qed.

(** The three ways [format] can go. *)
Lemma format_cases refs raw :
  (findall raw = [] /\ format refs raw = (Ok (Text raw), refs))
  \/ (exists name,
        valid_name name /\ raw = marker name /\ findall raw = [name]
        /\ format refs raw
           = (Ok (Reference name), ReferenceCollection_getitem refs name))
  \/ (findall raw <> [] /\ (forall name, valid_name name -> raw <> marker name)
      /\ format refs raw
         = (ReferenceFormat_init
              (replace_markers 0 (unique (findall raw)) raw)
              (unique (findall raw)),
            fold_left ReferenceCollection_getitem (unique (findall raw))
              refs)).
Proof.
  unfold format. destruct (findall raw) as [|first others] eqn:F.
  - left. auto.
  - right.
    assert (Hv : valid_name first).
    { eapply (findall_from_occurs raw 0 first). unfold findall in F.
      rewrite F. left. reflexivity. }
    destruct (Py.str_eqb raw (marker first)) eqn:E.
    + left. apply str_eqb_eq in E. exists first.
      rewrite E in F. rewrite findall_marker in F by exact Hv.
      injection F as <-. auto.
    + right. split; [discriminate|]. split; [|reflexivity].
      intros name Hname ->. rewrite findall_marker in F by exact Hname.
      injection F as -> _. rewrite str_eqb_refl in E. discriminate.
Qed.

(** What a successful [format] leaves in the registry and in the value. *)
Lemma format_registers refs raw text refs' :
  format refs raw = (Ok text, refs') ->
  (forall x, In x refs' <-> In x refs \/ In x (findall raw))
  /\ (forall x, In x (refs_of text) -> In x (findall raw)).
Proof.
  destruct (format_cases refs raw)
    as [[F ->]|[(name & Hv & -> & F & ->)|(F & _ & ->)]].
  - intros [= <- <-]. rewrite F. simpl. tauto.
  - intros [= <- <-]. rewrite F. split; intros x.
    + rewrite registry_getitem_In. simpl. intuition congruence.
    + simpl. tauto.
  - intros [= H <-]. apply ReferenceFormat_init_Ok in H. subst text.
    split; intros x.
    + rewrite registry_fold_In, unique_In. tauto.
    + simpl. apply unique_In.
Qed.

(** ** What the loop keeps true *)

Lemma flat_map_snoc {A B} (f : A -> list B) l x :
  flat_map f (l ++ [x]) = flat_map f l ++ f x.
Proof. rewrite flat_map_app. simpl. rewrite app_nil_r. reflexivity. Qed.

Lemma Config_add_section conf cur text w conf' name section :
  Config_add conf cur text w = Ok conf' ->
  Config_get conf' name = Some section ->
  (name = cur /\ section = section_or_new conf cur ++ [mkItem text w])
  \/ (name <> cur /\ Config_get conf name = Some section).
Proof.
  intros Hadd Hget. destruct (Config_add_get _ _ _ _ _ Hadd) as [Hsame Hother].
  destruct (list_eq_dec ascii_dec name cur) as [->|Hne].
  - left. rewrite Hsame in Hget. injection Hget as <-. auto.
  - right. rewrite Hother in Hget by exact Hne. auto.
Qed.

Lemma Config_add_contains conf cur text w conf' n :
  Config_add conf cur text w = Ok conf' ->
  Config_contains conf' n = true <-> Config_contains conf n = true \/ n = cur.
Proof.
  intros Hadd. destruct (Config_add_get _ _ _ _ _ Hadd) as [Hsame Hother].
  unfold Config_contains.
  destruct (list_eq_dec ascii_dec n cur) as [->|Hne].
  - rewrite Hsame. tauto.
  - rewrite Hother by exact Hne. tauto.
Qed.

Lemma section_or_new_In conf cur item :
  In item (section_or_new conf cur) ->
  exists section, Config_get conf cur = Some section /\ In item section.
Proof.
  unfold section_or_new. destruct (Config_get conf cur) as [section|];
    [|contradiction].
  intros H. exists section. auto.
Qed.

Lemma step_values_ok st parsed st' :
  weight_ok parsed -> values_ok st -> step st parsed st' -> values_ok st'.
Proof.
  intros Hq Hst Hstep. inversion Hstep; subst; try exact Hst.
  intros name section item Hget Hitem. simpl in *.
  destruct (format_registers _ _ _ _ H4) as [Hrefs Htext].
  assert (Hold : forall sec it,
             Config_get (config st) name = Some sec -> In it sec ->
             (0 <= weight it)%Z
             /\ forall key, In key (refs_of (value it)) -> In key refs).
  { intros sec it Hg Hi. destruct (Hst name sec it Hg Hi) as [Hw Hk].
    split; [exact Hw|]. intros key Hkey. apply Hrefs. left. auto. }
  destruct (Config_add_section _ _ _ _ _ _ _ H5 Hget)
    as [[-> ->]|[Hne Hget']].
  - apply in_app_iff in Hitem as [Hitem|[<-|[]]].
    + apply section_or_new_In in Hitem as (sec & Hg & Hi). eauto.
    + simpl. split; [eapply Hq; eauto|].
      intros key Hkey. apply Hrefs. right. auto.
  - eauto.
Qed.

Lemma step_registry_ok done st parsed st' :
  registry_ok done st -> step st parsed st' ->
  registry_ok (done ++ [parsed]) st'.
Proof.
  unfold registry_ok. intros Hst Hstep x. rewrite flat_map_snoc, in_app_iff.
  inversion Hstep; subst; simpl.
  - rewrite Hst. tauto.
  - rewrite H. rewrite Hst. simpl. tauto.
  - rewrite H, H0, Hst. simpl. tauto.
  - rewrite H, H0, H1, H2.
    destruct (format_registers _ _ _ _ H4) as [Hrefs _].
    rewrite Hrefs, Hst. tauto.
Qed.

Lemma check_section_contains conf name n :
  check_section conf name = Ok conf -> name = Some n ->
  Config_contains conf n = true.
Proof.
  intros H E. destruct (check_section_Ok _ _ _ H) as [_ Hn].
  destruct (Hn n E) as (section & Hg & _).
  unfold Config_contains. rewrite Hg. reflexivity.
Qed.

Lemma step_sections_ok done st parsed st' :
  sections_ok done st -> step st parsed st' ->
  sections_ok (done ++ [parsed]) st'.
Proof.
  unfold sections_ok. intros (Hkeys & Hcur & Hdecl) Hstep.
  rewrite flat_map_snoc.
  inversion Hstep; subst; simpl.
  - rewrite app_nil_r. split; [exact Hkeys|]. split; [discriminate|].
    intros n Hn. destruct (Hdecl n Hn) as [Hk|Hc]; [auto|].
    left. eapply check_section_contains; eauto.
  - rewrite H, app_nil_r. auto.
  - rewrite H, H0. repeat split.
    + intros n Hn. apply in_app_iff. auto.
    + intros n [= <-]. apply in_app_iff. simpl. auto.
    + intros n Hn. apply in_app_iff in Hn as [Hn|[<-|[]]]; [|auto].
      destruct (Hdecl n Hn) as [Hk|Hc]; [auto|].
      left. eapply check_section_contains; eauto.
  - rewrite H, H0, app_nil_r. repeat split.
    + intros n Hn. apply (Config_add_contains _ _ _ _ _ n H5) in Hn.
      destruct Hn as [Hn| ->]; auto.
    + intros n [= <-]. auto.
    + intros n Hn. destruct (Hdecl n Hn) as [Hk|Hc].
      * left. apply (Config_add_contains _ _ _ _ _ n H5). auto.
      * right. congruence.
Qed.

(** ** Lines *)

Lemma preParse_spec s :
  exists ws,
    s = ws ++ preParse s /\ forallb white ws = true
    /\ match preParse s with c :: _ => white c = false | [] => True end.
Proof.
  induction s as [|c s (ws & E & Hws & Hhd)]; simpl.
  - exists []. auto.
  - destruct (white c) eqn:W.
    + exists (c :: ws). simpl. rewrite W, Hws, <- E. auto.
    + exists []. simpl. auto.
Qed.

Lemma Suppress_spec lit s rest :
  Suppress lit s = Some rest ->
  exists ws, s = ws ++ lit :: rest /\ forallb white ws = true.
Proof.
  unfold Suppress. destruct (preParse_spec s) as (ws & E & Hws & _).
  destruct (preParse s) as [|c tail]; [discriminate|].
  destruct (Ascii.eqb c lit) eqn:Ec; [|discriminate].
  apply Ascii.eqb_eq in Ec. subst c. intros [= <-]. exists ws. auto.
Qed.

Lemma run_of_spec cls s tok rest :
  run_of cls s = Some (tok, rest) ->
  exists ws,
    s = ws ++ tok ++ rest /\ forallb white ws = true
    /\ tok <> [] /\ forallb cls tok = true
    /\ match tok with c :: _ => white c = false | [] => True end
    /\ match rest with c :: _ => cls c = false | [] => True end.
Proof.
  unfold run_of. destruct (preParse_spec s) as (ws & E & Hws & Hhd).
  destruct (Py.span cls (preParse s)) as [run tail] eqn:Sp.
  destruct run as [|c run]; [discriminate|]. intros [= <- <-].
  destruct (span_spec _ _ _ _ Sp) as (E' & Hrun & Htail).
  rewrite E' in E, Hhd. exists ws. repeat split; auto. discriminate.
Qed.

Lemma Or_spec a b s m : Or a b s = Some m -> a s = Some m \/ b s = Some m.
Proof.
  unfold Or. destruct (a s) as [[ra resta]|], (b s) as [[rb restb]|];
    try destruct (length resta <=? length restb); auto.
Qed.

Lemma COMMENT_LINE_spec s r rest :
  COMMENT_LINE s = Some (r, rest) ->
  exists text, r = mkResults (Some text) None None None.
Proof.
  unfold COMMENT_LINE. destruct (Suppress "#" s) as [s1|]; [|discriminate].
  destruct (Regex_dot_star_end s1) as [[text s2]|]; [|discriminate].
  intros [= <- <-]. eauto.
Qed.

Lemma SECTION_LINE_spec s r rest :
  SECTION_LINE s = Some (r, rest) ->
  exists name, r = mkResults None (Some name) None None /\ valid_name name.
Proof.
  unfold SECTION_LINE. destruct (Suppress "[" s) as [s1|]; [|discriminate].
  destruct (run_of name_char s1) as [[name s2]|] eqn:R; [|discriminate].
  destruct (Suppress "]" s2) as [s3|]; [|discriminate].
  intros [= <- <-]. exists name. split; [reflexivity|].
  destruct (run_of_spec _ _ _ _ R) as (ws & _ & _ & Hne & Hall & _).
  split; assumption.
Qed.

(** The anatomy of a weighted entry: white space, the digits, white
    space, the colon, white space, the value. *)
Lemma VALUE_LINE_spec s r rest :
  VALUE_LINE s = Some (r, rest) ->
  exists lead digits gap1 gap2 raw,
    s = lead ++ digits ++ gap1 ++ ":"%char :: gap2 ++ raw ++ rest
    /\ forallb white lead = true /\ forallb white gap1 = true
    /\ forallb white gap2 = true
    /\ digits <> [] /\ forallb Py.isdigit digits = true
    /\ raw <> [] /\ forallb not_newline raw = true
    /\ match raw with c :: _ => white c = false | [] => True end
    /\ match rest with c :: _ => c = Py.newline | [] => True end
    /\ r = mkResults None None (Some (Py.int digits)) (Some raw).
Proof.
  unfold VALUE_LINE, Regex_dot_plus.
  destruct (run_of Py.isdigit s) as [[digits s1]|] eqn:R1; [|discriminate].
  destruct (Suppress ":" s1) as [s2|] eqn:R2; [|discriminate].
  destruct (run_of not_newline s2) as [[raw s3]|] eqn:R3; [|discriminate].
  intros [= <- <-].
  destruct (run_of_spec _ _ _ _ R1) as (lead & -> & Hlead & Hd & Hdig & _).
  destruct (Suppress_spec _ _ _ R2) as (gap1 & -> & Hgap1).
  destruct (run_of_spec _ _ _ _ R3)
    as (gap2 & -> & Hgap2 & Hraw & Hnl & Hhd & Hrest).
  exists lead, digits, gap1, gap2, raw. repeat split; auto.
  destruct s3 as [|c s3]; [exact I|].
  unfold not_newline in Hrest. apply negb_false_iff, Ascii.eqb_eq in Hrest.
  exact Hrest.
Qed.

Lemma CONFIG_LINE_spec s r rest :
  CONFIG_LINE s = Some (r, rest) ->
  COMMENT_LINE s = Some (r, rest) \/ SECTION_LINE s = Some (r, rest)
  \/ VALUE_LINE s = Some (r, rest).
Proof.
  unfold CONFIG_LINE. intros H.
  apply Or_spec in H as [H|H]; [apply Or_spec in H as [H|H]|]; auto.
Qed.

Lemma parseString_Ok line r :
  parseString line = Ok r ->
  exists rest, CONFIG_LINE (Py.expandtabs line) = Some (r, rest).
Proof.
  unfold parseString.
  destruct (CONFIG_LINE (Py.expandtabs line)) as [[r' rest]|];
    [|discriminate].
  intros [= <-]. eauto.
Qed.

Lemma int_from_nonneg digits : forall acc,
  (0 <= acc)%Z ->
  (0 <= fold_left (fun a c => (10 * a + Py.digit_value c)%Z) digits acc)%Z.
Proof.
  induction digits as [|c digits IH]; intros acc Hacc; cbn [fold_left];
    [exact Hacc|].
  apply IH. unfold Py.digit_value.
  pose proof (Nat2Z.is_nonneg (nat_of_ascii c - 48)). lia.
Qed.

Lemma int_nonneg digits : (0 <= Py.int digits)%Z.
Proof. apply int_from_nonneg. lia. Qed.

Lemma parseString_weight line r w :
  parseString line = Ok r -> WEIGHT r = Some w -> (0 <= w)%Z.
Proof.
  intros H Hw. apply parseString_Ok in H as [rest H].
  apply CONFIG_LINE_spec in H as [H|[H|H]].
  - apply COMMENT_LINE_spec in H as [text ->]. discriminate.
  - apply SECTION_LINE_spec in H as (name & -> & _). discriminate.
  - apply VALUE_LINE_spec in H
      as (lead & digits & g1 & g2 & raw & _ & _ & _ & _ & _ & _ & _ & _ & _
          & _ & ->).
    simpl in Hw. injection Hw as <-. apply int_nonneg.
Qed.

Lemma parse_config_weights lines : forall lineno,
  Forall weight_ok (map parsed_of (parse_config_from lineno lines)).
Proof.
  induction lines as [|line rest IH]; intros lineno; simpl; constructor;
    [|apply IH].
  unfold parsed_of, weight_ok. simpl. intros r w Hr Hw.
  destruct (Py.strip line); [discriminate|].
  destruct (parseString line) as [data| |] eqn:P; try discriminate.
  injection Hr as ->. eapply parseString_weight; eauto.
Qed.

(** ** What a finished loop and a built grammar satisfy *)

Lemma flat_map_map {A B C} (f : B -> list C) (g : A -> B) l :
  flat_map f (map g l) = flat_map (fun x => f (g x)) l.
Proof.
  induction l as [|x l IH]; simpl; [reflexivity|]. rewrite IH. reflexivity.
Qed.

Lemma loop_facts text st :
  run_loop initial_loop (parse_config text) = Ok st ->
  values_ok st
  /\ (forall x, In x (references st) <-> In x (referenced_names text))
  /\ (forall n, Config_contains (config st) n = true ->
                In n (declared_sections text))
  /\ (forall n, In n (declared_sections text) ->
                Config_contains (config st) n = true
                \/ current_section st = Some n).
Proof.
  intros H. apply run_loop_steps in H as [Hsteps _].
  unfold referenced_names, declared_sections.
  rewrite <- !(flat_map_map _ parsed_of).
  set (done := map parsed_of (parse_config text)) in *.
  assert (Hq : Forall weight_ok done) by apply parse_config_weights.
  assert (Hany : Forall (fun _ => True) done) by (apply Forall_forall; auto).
  split.
  - apply (steps_invariant weight_ok (fun _ st => values_ok st)
             (fun d s p s' Hp Hs => step_values_ok s p s' Hp Hs)
             done [] initial_loop st Hq); [|exact Hsteps].
    intros name section item Hget. discriminate.
  - pose proof (steps_invariant (fun _ => True) registry_ok
                  (fun d s p s' _ => step_registry_ok d s p s')
                  done [] initial_loop st Hany) as Hreg.
    pose proof (steps_invariant (fun _ => True) sections_ok
                  (fun d s p s' _ => step_sections_ok d s p s')
                  done [] initial_loop st Hany) as Hsec.
    simpl in Hreg, Hsec.
    split; [apply Hreg; [|exact Hsteps]; intros x; simpl; tauto|].
    destruct Hsec as (Hkeys & _ & Hdecl); [|exact Hsteps|auto].
    repeat split; simpl; try discriminate; tauto.
Qed.

Lemma check_references_Ok conf refs :
  check_references conf refs = Ok tt <->
  forall x, In x refs -> Config_contains conf x = true.
Proof.
  induction refs as [|ref rest IH]; simpl.
  - split; [contradiction|reflexivity].
  - destruct (Config_contains conf ref) eqn:C.
    + rewrite IH. split; [intros H x [<-|Hx]; auto|auto].
    + split; [discriminate|]. intros H.
      rewrite (H ref (or_introl eq_refl)) in C. discriminate.
Qed.

Lemma check_references_Raise conf refs x :
  In x refs -> Config_contains conf x = false ->
  exists missing,
    check_references conf refs
    = Raise (ValueError (quoted "Reference to missing collection " missing))
    /\ In missing refs /\ Config_contains conf missing = false.
Proof.
  induction refs as [|ref rest IH]; simpl; [contradiction|].
  intros Hx Hmiss. destruct (Config_contains conf ref) eqn:C.
  - destruct Hx as [->|Hx]; [congruence|].
    destruct (IH Hx Hmiss) as (m & E & Hm & Hc). eauto.
  - exists ref. auto.
Qed.

Lemma from_string_Ok text cfg :
  from_string text = Ok cfg ->
  exists st,
    run_loop initial_loop (parse_config text) = Ok st
    /\ check_references (config st) (references st) = Ok tt
    /\ cfg = config st.
Proof.
  unfold from_string.
  destruct (run_loop initial_loop (parse_config text)) as [st| |];
    simpl; try discriminate.
  destruct (check_references (config st) (references st)) as [[]| |] eqn:C;
    simpl; try discriminate.
  intros [= <-]. eauto.
Qed.

(** In a built grammar every reference names a collection and no weight
    is negative. *)
Lemma from_string_values text cfg :
  from_string text = Ok cfg ->
  refs_closed cfg
  /\ forall name section item,
       Config_get cfg name = Some section -> In item section ->
       (0 <= weight item)%Z.
Proof.
  intros H. apply from_string_Ok in H as (st & Hloop & Hrefs & ->).
  destruct (loop_facts _ _ Hloop) as (Hvalues & _).
  rewrite check_references_Ok in Hrefs. split.
  - intros name section item key Hget Hitem Hkey.
    apply Hrefs. eapply Hvalues; eauto.
  - intros name section item Hget Hitem. eapply Hvalues; eauto.
Qed.

Lemma run_loop_Raise lines : forall st e,
  Forall (fun entry : nat * str * result (option ParseResults) =>
            forall e', snd entry = Raise e' ->
              exists lineno line cause, e' = ConfigException lineno line cause)
         lines ->
  run_loop st lines = Raise e ->
  exists lineno line cause, e = ConfigException lineno line cause.
Proof.
  induction lines as [|[[lineno line] parsed] rest IH]; intros st e Hall H;
    [discriminate|].
  inversion Hall as [|? ? Hentry Hrest]; subst. simpl in *.
  destruct parsed as [p|e'|g]; simpl in H; try discriminate.
  - destruct (loop_body st p) as [st1|e1|g1]; simpl in H; try discriminate.
    + eapply IH; eauto.
    + injection H as <-. eauto.
  - injection H as <-. apply Hentry. reflexivity.
Qed.

Lemma parse_config_raises lines : forall lineno,
  Forall (fun entry : nat * str * result (option ParseResults) =>
            forall e', snd entry = Raise e' ->
              exists lineno line cause, e' = ConfigException lineno line cause)
         (parse_config_from lineno lines).
Proof.
  induction lines as [|line rest IH]; intros lineno; simpl; constructor;
    [|apply IH].
  simpl. intros e'. destruct (Py.strip line); [discriminate|].
  destruct (parseString line); try discriminate.
  intros [= <-]. eauto.
Qed.

Lemma split_newline_lines text : forall line,
  In line (Py.split_newline text) -> ~ In Py.newline line.
Proof.
  induction text as [|c text IH]; simpl; intros line Hline.
  - destruct Hline as [<-|[]]. auto.
  - destruct (Ascii.eqb c Py.newline) eqn:E.
    + destruct Hline as [<-|Hline]; auto.
    + apply Ascii.eqb_neq in E.
      destruct (Py.split_newline text) as [|l ls].
      * destruct Hline as [<-|[]]. intros [H|[]]. congruence.
      * destruct Hline as [<-|Hline]; [|apply IH; right; exact Hline].
        intros [H|H]; [congruence|]. apply (IH l); [left; reflexivity|exact H].
Qed.

Lemma expandtabs_from_lines s : forall col,
  ~ In Py.newline s -> ~ In Py.newline (Py.expandtabs_from col s).
Proof.
  induction s as [|c s IH]; intros col Hs; simpl; [auto|].
  assert (Hc : c <> Py.newline) by (intros ->; apply Hs; left; reflexivity).
  assert (Hs' : ~ In Py.newline s) by (intros H; apply Hs; right; exact H).
  destruct (Ascii.eqb c Py.tab).
  - rewrite in_app_iff. intros [H|H]; [|exact (IH _ Hs' H)].
    apply repeat_spec in H. discriminate.
  - destruct (Ascii.eqb c Py.newline || Ascii.eqb c Py.cr);
      (intros [H|H]; [congruence|exact (IH _ Hs' H)]).
Qed.

Lemma white_not_colon s :
  forallb white s = true -> ~ In ":"%char s.
Proof.
  rewrite forallb_forall. intros H Hin. specialize (H _ Hin). discriminate.
Qed.

Lemma digits_not_colon s :
  forallb Py.isdigit s = true -> ~ In ":"%char s.
Proof.
  rewrite forallb_forall. intros H Hin. specialize (H _ Hin). discriminate.
Qed.

(** ** Tokens *)

Lemma tokenize_from_cons k c s :
  tokenize_from k (c :: s)
  = match k with
    | S k' => tokenize_from k' s
    | O =>
        match match_marker (c :: s) with
        | Some name => Mark name :: tokenize_from (S (length name)) s
        | None => Chr c :: tokenize_from 0 s
        end
    end.
Proof. reflexivity. Qed.

Lemma text_of_cons t ts : text_of (t :: ts) = token_text t ++ text_of ts.
Proof. reflexivity. Qed.

Lemma marks_tokenize s : forall k,
  marks (tokenize_from k s) = findall_from k s.
Proof.
  induction s as [|c s IH]; intros k; [reflexivity|].
  rewrite tokenize_from_cons, findall_from_cons.
  destruct k as [|k]; [|apply IH].
  destruct (match_marker (c :: s)); simpl; rewrite IH; reflexivity.
Qed.

Lemma marker_cons name rest :
  marker name ++ rest = "<"%char :: name ++ ">"%char :: rest.
Proof. unfold marker. simpl. rewrite <- app_assoc. reflexivity. Qed.

Lemma skipn_app_exact {A} (a b : list A) : skipn (length a) (a ++ b) = b.
Proof. rewrite skipn_app, skipn_all, Nat.sub_diag. reflexivity. Qed.

Lemma skipn_name_tail name rest :
  skipn (S (length name)) (name ++ ">"%char :: rest) = rest.
Proof.
  replace (name ++ ">"%char :: rest) with ((name ++ [">"%char]) ++ rest)
    by (rewrite <- app_assoc; reflexivity).
  replace (S (length name)) with (length (name ++ [">"%char]))
    by (rewrite length_app; simpl; lia).
  apply skipn_app_exact.
Qed.

Lemma text_of_tokenize s : forall k,
  text_of (tokenize_from k s) = skipn k s.
Proof.
  induction s as [|c s IH]; intros k.
  - destruct k; reflexivity.
  - rewrite tokenize_from_cons. destruct k as [|k]; [|apply IH].
    destruct (match_marker (c :: s)) as [name|] eqn:M.
    + apply match_marker_Some in M as [_ [rest E]].
      rewrite text_of_cons, IH. change (skipn 0 (c :: s)) with (c :: s).
      cbn [token_text]. rewrite E.
      rewrite marker_cons in E. injection E as _ ->.
      rewrite skipn_name_tail. reflexivity.
    + rewrite text_of_cons, IH. reflexivity.
Qed.

Lemma closes_text ts :
  closes ts = true ->
  exists name rest,
    forallb name_char name = true /\ text_of ts = name ++ ">"%char :: rest.
Proof.
  induction ts as [|[d|m|i] ts IH]; simpl; try discriminate.
  destruct (name_char d) eqn:N.
  - intros H. destruct (IH H) as (name & rest & Hname & E).
    exists (d :: name), rest. simpl. rewrite N, Hname, E. auto.
  - intros H. apply Ascii.eqb_eq in H. subst d.
    exists [], (text_of ts). auto.
Qed.

Lemma text_closes name : forall ts rest,
  forallb name_char name = true ->
  text_of ts = name ++ ">"%char :: rest ->
  closes ts = true.
Proof.
  induction name as [|d name IH]; intros ts rest Hname E.
  - destruct ts as [|[c|m|i] ts]; [discriminate| | |].
    + injection E as -> _. reflexivity.
    + rewrite text_of_cons in E. cbn [token_text] in E.
      rewrite marker_cons in E. discriminate.
    + discriminate.
  - simpl in Hname. apply andb_prop in Hname as [Hd Hname].
    destruct ts as [|[c|m|i] ts]; [discriminate| | |].
    + injection E as -> E. simpl. rewrite Hd. eapply IH; eauto.
    + rewrite text_of_cons in E. cbn [token_text] in E.
      rewrite marker_cons in E. injection E as <- _. discriminate.
    + injection E as <- _. discriminate.
Qed.

Lemma opens_match ts :
  opens ts = true ->
  exists name, match_marker ("<"%char :: text_of ts) = Some name.
Proof.
  destruct ts as [|[d|m|i] ts]; simpl; try discriminate.
  intros H. apply andb_prop in H as [Hd H].
  destruct (closes_text ts H) as (name & rest & Hname & E).
  exists (d :: name). apply match_marker_Some. split.
  - split; [discriminate|]. simpl. rewrite Hd, Hname. reflexivity.
  - exists rest. rewrite marker_cons, E. reflexivity.
Qed.

Lemma match_opens ts name :
  match_marker ("<"%char :: text_of ts) = Some name -> opens ts = true.
Proof.
  intros H. apply match_marker_Some in H as [[Hne Hname] [rest E]].
  rewrite marker_cons in E. injection E as E.
  destruct name as [|d name]; [congruence|].
  simpl in Hname. apply andb_prop in Hname as [Hd Hname].
  destruct ts as [|[c|m|i] ts]; [discriminate| | |].
  - injection E as -> E. simpl. rewrite Hd. simpl.
    eapply text_closes; eauto.
  - rewrite text_of_cons in E. cbn [token_text] in E.
    rewrite marker_cons in E. injection E as <- _. discriminate.
  - injection E as <- _. discriminate.
Qed.

Lemma tokenize_well_formed s : forall k, well_formed (tokenize_from k s).
Proof.
  induction s as [|c s IH]; intros k; [exact I|].
  rewrite tokenize_from_cons. destruct k as [|k]; [|apply IH].
  destruct (match_marker (c :: s)) as [name|] eqn:M.
  - apply match_marker_Some in M as [Hv _]. split; [exact Hv|apply IH].
  - split; [|apply IH]. intros ->.
    destruct (opens (tokenize_from 0 s)) eqn:O; [|reflexivity].
    apply opens_match in O as [name O].
    rewrite text_of_tokenize in O. simpl in O. congruence.
Qed.

(** ** Decimal indices *)

Lemma uint_digits (u : Decimal.uint) :
  forallb Py.isdigit (chars (NilEmpty.string_of_uint u)) = true.
Proof. induction u; simpl; auto. Qed.

Lemma decimal_digits n : forallb Py.isdigit (Py.decimal n) = true.
Proof. apply uint_digits. Qed.

Lemma decimal_index n : Py.index_of_digits (Py.decimal n) = Some n.
Proof.
  unfold Py.index_of_digits, Py.decimal, chars.
  rewrite string_of_list_ascii_of_string, NilEmpty.usu.
  rewrite Unsigned.of_to. reflexivity.
Qed.

Lemma decimal_nonempty n : Py.decimal n <> [].
Proof.
  destruct n as [|n]; [discriminate|].
  intros E. pose proof (decimal_index (S n)) as H.
  rewrite E in H. discriminate.
Qed.

(** ** Replacing markers by fields *)

Lemma startswith_spec p : forall s,
  Py.startswith p s = true <-> exists rest, s = p ++ rest.
Proof.
  induction p as [|a p IH]; intros s; simpl.
  - split; [eauto|reflexivity].
  - destruct s as [|b s].
    + split; [discriminate|]. intros [rest E]. discriminate.
    + rewrite andb_true_iff, Ascii.eqb_eq, IH. split.
      * intros [-> [rest ->]]. eauto.
      * intros [rest E]. injection E as -> ->. eauto.
Qed.

Lemma replace_from_cons old new k c s :
  Py.replace_from old new k (c :: s)
  = match k with
    | S k' => Py.replace_from old new k' s
    | O =>
        if Py.startswith old (c :: s)
        then new ++ Py.replace_from old new (length old - 1) s
        else c :: Py.replace_from old new 0 s
    end.
Proof. reflexivity. Qed.

Lemma replace_from_skip old new a : forall b,
  Py.replace_from old new (length a) (a ++ b) = Py.replace_from old new 0 b.
Proof.
  induction a as [|c a IH]; intros b; simpl.
  - destruct b; reflexivity.
  - apply IH.
Qed.

Lemma replace_from_plain name new a : forall b,
  ~ In "<"%char a ->
  Py.replace_from (marker name) new 0 (a ++ b)
  = a ++ Py.replace_from (marker name) new 0 b.
Proof.
  induction a as [|c a IH]; intros b Ha; [reflexivity|].
  rewrite <- app_comm_cons, replace_from_cons.
  destruct (Py.startswith (marker name) (c :: a ++ b)) eqn:E.
  - apply startswith_spec in E as [rest E]. rewrite marker_cons in E.
    injection E as -> _. elim Ha. left. reflexivity.
  - rewrite IH; [reflexivity|]. intros H. apply Ha. right. exact H.
Qed.

Lemma name_chars_plain name c :
  forallb name_char name = true -> name_char c = false -> ~ In c name.
Proof.
  rewrite forallb_forall. intros H Hc Hin. rewrite (H _ Hin) in Hc.
  discriminate.
Qed.

Lemma digits_plain s c :
  forallb Py.isdigit s = true -> Py.isdigit c = false -> ~ In c s.
Proof.
  rewrite forallb_forall. intros H Hc Hin. rewrite (H _ Hin) in Hc.
  discriminate.
Qed.

(** Two texts that agree and are both cut at the first occurrence of
    [x] are cut at the same place. *)
Lemma app_cut_unique {A} (x : A) a : forall b l1 l2,
  ~ In x a -> ~ In x b -> a ++ x :: l1 = b ++ x :: l2 -> a = b.
Proof.
  induction a as [|c a IH]; intros [|d b] l1 l2 Ha Hb E; simpl in *.
  - reflexivity.
  - injection E as -> _. elim Hb. auto.
  - injection E as -> _. elim Ha. auto.
  - injection E as -> E. f_equal. eapply IH; eauto.
Qed.

Lemma marker_prefix_name m n rest rest' :
  valid_name m -> valid_name n ->
  marker m ++ rest = marker n ++ rest' -> m = n.
Proof.
  intros [_ Hm] [_ Hn] E. rewrite !marker_cons in E. injection E as E.
  eapply (app_cut_unique ">"%char);
    [exact (name_chars_plain _ ">"%char Hm eq_refl)
    |exact (name_chars_plain _ ">"%char Hn eq_refl)|exact E].
Qed.

Lemma field_plain idx : ~ In "<"%char (field idx).
Proof.
  unfold field. simpl. rewrite in_app_iff. simpl.
  intros [H|[H|[H|[H|[H|[]]]]]]; try discriminate.
  exact (digits_plain _ "<"%char (decimal_digits idx) eq_refl H).
Qed.

Lemma replace_tokens name idx ts :
  valid_name name -> well_formed ts ->
  Py.replace (marker name) (field idx) (text_of ts)
  = text_of (map (subst name idx) ts).
Proof.
  intros Hv. unfold Py.replace.
  induction ts as [|[c|m|i] ts IH]; intros Hwf; [reflexivity| | |].
  - destruct Hwf as [Hc Hwf]. simpl map. rewrite !text_of_cons.
    cbn [token_text app]. rewrite replace_from_cons.
    destruct (Py.startswith (marker name) (c :: text_of ts)) eqn:E.
    + apply startswith_spec in E as [rest E].
      assert (M : match_marker (c :: text_of ts) = Some name)
        by (apply match_marker_Some; eauto).
      pose proof E as E'. rewrite marker_cons in E'. injection E' as -> _.
      apply match_opens in M. rewrite (Hc eq_refl) in M. discriminate.
    + rewrite IH by exact Hwf. reflexivity.
  - destruct Hwf as [Hm Hwf]. simpl map. rewrite !text_of_cons.
    cbn [token_text subst]. destruct (Py.str_eqb m name) eqn:E.
    + apply str_eqb_eq in E. subst m. cbn [token_text].
      rewrite marker_cons at 1. rewrite replace_from_cons.
      rewrite <- marker_cons.
      assert (Hs : Py.startswith (marker name) (marker name ++ text_of ts)
                   = true) by (apply startswith_spec; eauto).
      rewrite Hs. f_equal.
      replace (name ++ ">"%char :: text_of ts)
        with ((name ++ [">"%char]) ++ text_of ts)
        by (rewrite <- app_assoc; reflexivity).
      replace (length (marker name) - 1) with (length (name ++ [">"%char])).
      * rewrite replace_from_skip. apply IH. exact Hwf.
      * unfold marker. simpl. rewrite !length_app. simpl. lia.
    + cbn [token_text]. rewrite marker_cons at 1. rewrite replace_from_cons.
      rewrite <- marker_cons.
      destruct (Py.startswith (marker name) (marker m ++ text_of ts)) eqn:P.
      * apply startswith_spec in P as [rest P].
        apply marker_prefix_name in P; [|assumption|assumption].
        subst m. rewrite str_eqb_refl in E. discriminate.
      * replace (m ++ ">"%char :: text_of ts)
          with ((m ++ [">"%char]) ++ text_of ts)
          by (rewrite <- app_assoc; reflexivity).
        rewrite replace_from_plain.
        2:{ rewrite in_app_iff. simpl. intros [H|[H|[]]]; [|discriminate H].
            exact (name_chars_plain _ "<"%char (proj2 Hm) eq_refl H). }
        rewrite IH by exact Hwf.
        rewrite marker_cons, <- app_assoc. reflexivity.
  - simpl in Hwf. simpl map. rewrite !text_of_cons. cbn [token_text subst].
    rewrite replace_from_plain by apply field_plain.
    rewrite IH by exact Hwf. reflexivity.
Qed.

Lemma closes_subst name idx ts :
  closes (map (subst name idx) ts) = closes ts.
Proof.
  induction ts as [|[c|m|i] ts IH]; simpl; try reflexivity.
  - rewrite IH. reflexivity.
  - destruct (Py.str_eqb m name); reflexivity.
Qed.

Lemma opens_subst name idx ts :
  opens (map (subst name idx) ts) = opens ts.
Proof.
  destruct ts as [|[c|m|i] ts]; simpl; try reflexivity.
  - rewrite closes_subst. reflexivity.
  - destruct (Py.str_eqb m name); reflexivity.
Qed.

Lemma well_formed_subst name idx ts :
  well_formed ts -> well_formed (map (subst name idx) ts).
Proof.
  induction ts as [|[c|m|i] ts IH]; simpl; auto.
  - intros [Hc Hwf]. rewrite opens_subst. auto.
  - intros [Hm Hwf]. destruct (Py.str_eqb m name); simpl; auto.
Qed.

Lemma assign_step name names idx t :
  assign (S idx) names (subst name idx t) = assign idx (name :: names) t.
Proof.
  destruct t as [c|m|i]; simpl; try reflexivity.
  destruct (Py.str_eqb m name) eqn:E.
  - apply str_eqb_eq in E. subst m. rewrite str_eqb_refl, Nat.add_0_r.
    reflexivity.
  - assert (E' : Py.str_eqb name m = false).
    { apply str_eqb_neq. intros ->. rewrite str_eqb_refl in E.
      discriminate. }
    rewrite E'. simpl. destruct (position m names) as [p|]; simpl;
      [|reflexivity].
    f_equal. lia.
Qed.

Lemma assign_nil idx ts : map (assign idx []) ts = ts.
Proof.
  induction ts as [|[c|m|i] ts IH]; simpl; rewrite ?IH; reflexivity.
Qed.

Lemma replace_markers_tokens names : forall idx ts,
  Forall valid_name names -> well_formed ts ->
  replace_markers idx names (text_of ts)
  = text_of (map (assign idx names) ts).
Proof.
  induction names as [|name names IH]; intros idx ts Hnames Hwf; simpl.
  - rewrite assign_nil. reflexivity.
  - inversion Hnames as [|? ? Hname Hrest]; subst.
    rewrite replace_tokens by assumption.
    rewrite IH by (try assumption; apply well_formed_subst; assumption).
    rewrite map_map. f_equal. apply map_ext. intros t. apply assign_step.
Qed.

(** ** Formatting, token by token *)

Lemma format_from_plain {S} (arg : nat -> S -> result str * S) c fs st :
  is_brace c = false ->
  format_from arg Top (c :: fs) st
  = lift_prefix [c] (format_from arg Top fs st).
Proof.
  unfold is_brace. intros H. apply orb_false_elim in H as [H1 H2].
  simpl. rewrite H1, H2. reflexivity.
Qed.

Lemma format_from_open {S} (arg : nat -> S -> result str * S) d fs st :
  Py.isdigit d = true ->
  format_from arg Top ("{"%char :: d :: fs) st
  = format_from arg (FieldIndex [d]) fs st.
Proof.
  intros Hd. simpl. rewrite Hd.
  destruct (Ascii.eqb d "{") eqn:E; [|reflexivity].
  apply Ascii.eqb_eq in E. subst d. discriminate.
Qed.

Lemma format_from_field {S} (arg : nat -> S -> result str * S) ds :
  forall acc rest st,
    forallb Py.isdigit ds = true ->
    format_from arg (FieldIndex acc)
      (ds ++ "!"%char :: "s"%char :: "}"%char :: rest) st
    = match Py.index_of_digits (acc ++ ds) with
      | Some idx =>
          match arg idx st with
          | (Ok v, st1) => lift_prefix v (format_from arg Top rest st1)
          | other => other
          end
      | None => (Stuck FormatFieldNotModelled, st)
      end.
Proof.
  induction ds as [|d ds IH]; intros acc rest st Hds.
  - rewrite app_nil_r. reflexivity.
  - simpl in Hds. apply andb_prop in Hds as [Hd Hds].
    rewrite <- app_comm_cons. cbn [format_from]. rewrite Hd.
    rewrite IH by exact Hds. rewrite <- app_assoc. reflexivity.
Qed.

Lemma field_cons idx rest :
  field idx ++ rest
  = "{"%char :: Py.decimal idx ++ "!"%char :: "s"%char :: "}"%char :: rest.
Proof. unfold field. simpl. rewrite <- app_assoc. reflexivity. Qed.

Lemma format_from_walk {S} (arg : nat -> S -> result str * S)
  (any : str -> S -> result str * S) ts :
  fielded ts ->
  forall st, format_from arg Top (text_of ts) st = walk any arg ts st.
Proof.
  induction 1 as [|[c|m|i] ts Ht _ IH]; intros st; [reflexivity| | |].
  - rewrite text_of_cons. cbn [token_text app walk].
    rewrite format_from_plain by exact Ht. rewrite IH. reflexivity.
  - contradiction.
  - rewrite text_of_cons. cbn [token_text walk]. rewrite field_cons.
    pose proof (decimal_digits i) as Hd. pose proof (decimal_index i) as Hi.
    destruct (Py.decimal i) as [|d ds] eqn:D;
      [elim (decimal_nonempty i D)|].
    simpl in Hd. apply andb_prop in Hd as [Hd Hds].
    rewrite <- app_comm_cons, format_from_open by exact Hd.
    rewrite (format_from_field arg ds [d] (text_of ts) st Hds).
    cbn [app]. rewrite Hi.
    destruct (arg i st) as [[v| |] st1]; try reflexivity.
    rewrite IH. reflexivity.
Qed.

(** ** From the value text to the rendered string *)

Lemma position_In name names :
  In name names ->
  exists p, position name names = Some p /\ nth_error names p = Some name.
Proof.
  induction names as [|n names IH]; [contradiction|].
  intros H. simpl. destruct (Py.str_eqb n name) eqn:E.
  - apply str_eqb_eq in E. subst n. exists 0. auto.
  - destruct H as [->|H]; [rewrite str_eqb_refl in E; discriminate|].
    destruct (IH H) as (p & -> & Hp). exists (S p). auto.
Qed.

Lemma tokenize_tokens s : forall k t,
  In t (tokenize_from k s) ->
  match t with
  | Chr c => In c s
  | Mark m => In m (findall_from k s)
  | Fld _ => False
  end.
Proof.
  induction s as [|c s IH]; intros k t Ht; [contradiction|].
  rewrite tokenize_from_cons in Ht. rewrite findall_from_cons.
  destruct k as [|k].
  - destruct (match_marker (c :: s)) as [name|].
    + destruct Ht as [<-|Ht]; [left; reflexivity|].
      specialize (IH _ _ Ht). destruct t; simpl; auto.
    + destruct Ht as [<-|Ht]; [left; reflexivity|].
      specialize (IH _ _ Ht). destruct t; simpl; auto.
  - specialize (IH _ _ Ht). destruct t; simpl; auto.
Qed.

Lemma findall_valid raw : Forall valid_name (unique (findall raw)).
Proof.
  apply Forall_forall. intros n Hn.
  apply (proj1 (unique_In _ _)) in Hn.
  apply (findall_from_occurs raw 0 n Hn).
Qed.

Lemma assigned_tokens raw names :
  brace_free raw ->
  (forall n, In n (findall raw) -> In n names) ->
  Forall (fun t => match t with
                   | Chr c => is_brace c = false
                   | Mark _ => False
                   | Fld p => p < length names
                   end)
         (map (assign 0 names) (tokenize raw)).
Proof.
  intros Hraw Hnames. apply Forall_forall. intros t Ht.
  apply in_map_iff in Ht as (t0 & <- & Ht0).
  apply tokenize_tokens in Ht0. destruct t0 as [c|m|i]; simpl.
  - unfold brace_free in Hraw. rewrite forallb_forall in Hraw.
    specialize (Hraw c Ht0). apply negb_true_iff in Hraw. exact Hraw.
  - destruct (position_In m names (Hnames m Ht0)) as (p & -> & Hp).
    apply nth_error_Some. congruence.
  - contradiction.
Qed.

Lemma assigned_fielded raw names :
  brace_free raw ->
  (forall n, In n (findall raw) -> In n names) ->
  fielded (map (assign 0 names) (tokenize raw)).
Proof.
  intros Hraw Hnames. eapply Forall_impl; [|apply assigned_tokens; eauto].
  intros [c|m|i]; auto.
Qed.

Lemma walk_test n (any : str -> unit -> result str * unit) ts :
  Forall (fun t => match t with
                   | Chr c => is_brace c = false
                   | Mark _ => False
                   | Fld p => p < n
                   end) ts ->
  exists out,
    walk any
      (fun idx (_ : unit) =>
         if idx <? n then (Ok (chars "test"), tt)
         else (Raise tuple_index_error, tt))
      ts tt = (Ok out, tt).
Proof.
  induction 1 as [|[c|m|i] ts Ht _ [out IH]]; cbn [walk].
  - eauto.
  - rewrite IH. cbn [lift_prefix]. eauto.
  - contradiction.
  - apply Nat.ltb_lt in Ht. rewrite Ht, IH. cbn [lift_prefix]. eauto.
Qed.

Lemma replace_markers_raw raw :
  replace_markers 0 (unique (findall raw)) raw
  = text_of (map (assign 0 (unique (findall raw))) (tokenize raw)).
Proof.
  rewrite <- (replace_markers_tokens _ 0 (tokenize raw)).
  - unfold tokenize. rewrite text_of_tokenize. reflexivity.
  - apply findall_valid.
  - apply tokenize_well_formed.
Qed.

(** A text without braces always passes the trial formatting. *)
Lemma ReferenceFormat_init_brace_free raw :
  brace_free raw ->
  ReferenceFormat_init (replace_markers 0 (unique (findall raw)) raw)
    (unique (findall raw))
  = Ok (ReferenceFormat (replace_markers 0 (unique (findall raw)) raw)
          (unique (findall raw))).
Proof.
  intros Hraw. unfold ReferenceFormat_init, py_format.
  rewrite replace_markers_raw at 1.
  pose proof (assigned_tokens raw (unique (findall raw)) Hraw
                (fun n H => proj2 (unique_In _ n) H)) as Htok.
  rewrite (format_from_walk _ (fun _ st => (Ok [], st)))
    by (apply assigned_fielded; [exact Hraw|intros n; apply unique_In]).
  destruct (walk_test _ (fun _ st => (Ok [], st)) _ Htok) as [out ->].
  reflexivity.
Qed.

Lemma walk_assigned (render : RandomString -> World -> result str * World)
  names ts :
  (forall t, In t ts ->
     match t with
     | Chr _ => True
     | Mark m => In m names
     | Fld _ => False
     end) ->
  forall w,
    walk (fun _ st => (Ok [], st)) (substitution_str render names)
      (map (assign 0 names) ts) w
    = walk (Reference_str render) (fun _ st => (Ok [], st)) ts w.
Proof.
  induction ts as [|[c|m|i] ts IH]; intros Hts w; [reflexivity| | |].
  - simpl. rewrite IH; [reflexivity|]. intros t Ht. apply Hts. right. exact Ht.
  - assert (Hm : In m names) by (apply (Hts (Mark m)); left; reflexivity).
    destruct (position_In m names Hm) as (p & Hp & Hnth).
    simpl. rewrite Hp. simpl. unfold substitution_str at 1. rewrite Hnth.
    destruct (Reference_str render m w) as [[v| |] w1]; try reflexivity.
    rewrite IH; [reflexivity|]. intros t Ht. apply Hts. right. exact Ht.
  - elim (Hts (Fld i)). left. reflexivity.
Qed.

Lemma walk_plain {S} (f : str -> S -> result str * S)
  (g : nat -> S -> result str * S) s : forall st,
  findall s = [] -> walk f g (tokenize s) st = (Ok s, st).
Proof.
  unfold findall, tokenize. induction s as [|c s IH]; intros st H;
    [reflexivity|].
  rewrite findall_from_cons in H. rewrite tokenize_from_cons.
  destruct (match_marker (c :: s)); [discriminate|].
  simpl. rewrite IH by exact H. reflexivity.
Qed.

(** Where a text that reaches [x] after [b] also reaches a different
    [y] after [n], and [x] is not in [n], [n] is the shorter. *)
Lemma app_cut_shorter {A} (x y : A) b : forall n l1 l2,
  b ++ x :: l1 = n ++ y :: l2 -> ~ In x n -> x <> y -> length n < length b.
Proof.
  induction b as [|c b IH]; intros [|d n] l1 l2 E Hn Hxy; simpl in *.
  - injection E as -> _. congruence.
  - injection E as -> _. elim Hn. auto.
  - lia.
  - injection E as -> E. apply IH in E; [lia| |exact Hxy].
    intros H. apply Hn. auto.
Qed.

(** Markers cannot overlap, so [findall] misses none. *)
Lemma findall_complete before : forall k name after,
  valid_name name -> k <= length before ->
  In name (findall_from k (before ++ marker name ++ after)).
Proof.
  induction before as [|c before IH]; intros k name after Hv Hk.
  - assert (M : match_marker (marker name ++ after) = Some name)
      by (apply match_marker_Some; split; [exact Hv|eauto]).
    simpl in Hk. replace k with 0 by lia.
    change ([] ++ marker name ++ after) with (marker name ++ after).
    rewrite marker_cons in M |- *.
    rewrite findall_from_cons, M. left. reflexivity.
  - rewrite <- app_comm_cons, findall_from_cons. destruct k as [|k].
    + destruct (match_marker (c :: before ++ marker name ++ after))
        as [found|] eqn:M; [|apply IH; [exact Hv|lia]].
      right. apply IH; [exact Hv|].
      apply match_marker_Some in M as [[_ Hfound] [rest E]].
      rewrite !marker_cons in E. injection E as _ E.
      apply app_cut_shorter in E; [lia| |discriminate].
      exact (name_chars_plain _ "<"%char Hfound eq_refl).
    + apply IH; [exact Hv|]. simpl in Hk. lia.
Qed.

Lemma findall_occurs raw name :
  In name (findall raw) <-> valid_name name /\ occurs name raw.
Proof.
  split.
  - apply findall_from_occurs.
  - intros [Hv (before & after & ->)]. apply findall_complete; [exact Hv|lia].
Qed.

(** The stored value renders as the value text does when it is read
    from left to right and every marker is converted on the spot. *)
Lemma str_item_substitute (fuel : nat) (refs : ReferenceCollection)
  (raw : str) (text : TemplateValue) (refs' : ReferenceCollection) (w : World) :
  brace_free raw ->
  format refs raw = (Ok text, refs') ->
  str_item (RandomString_str fuel) text w
  = substitute (Reference_str (RandomString_str fuel)) raw w.
Proof.
  intros Hraw Hformat. unfold substitute.
  destruct (format_cases refs raw)
    as [[F E]|[(name & Hv & -> & F & E)|(F & _ & E)]];
    rewrite E in Hformat.
  - injection Hformat as <- _. simpl. rewrite walk_plain by exact F.
    reflexivity.
  - injection Hformat as <- _.
    assert (T : tokenize (marker name) = [Mark name]).
    { assert (M : match_marker (marker name) = Some name).
      { apply match_marker_Some. split; [exact Hv|].
        exists []. rewrite app_nil_r. reflexivity. }
      unfold tokenize. rewrite <- (app_nil_r (marker name)) in *.
      rewrite marker_cons in *. rewrite tokenize_from_cons, M. f_equal.
      pose proof (text_of_tokenize (name ++ [">"%char]) (S (length name)))
        as Ht.
      rewrite skipn_name_tail in Ht.
      destruct (tokenize_from (S (length name)) (name ++ [">"%char]))
        as [|[c|m|i] ts]; [reflexivity|discriminate| |discriminate].
      rewrite text_of_cons in Ht. cbn [token_text] in Ht.
      rewrite marker_cons in Ht. discriminate. }
    rewrite T. simpl.
    destruct (Reference_str (RandomString_str fuel) name w)
      as [[v| |] w1]; simpl; rewrite ?app_nil_r; reflexivity.
  - injection Hformat as Hinit _.
    rewrite ReferenceFormat_init_brace_free in Hinit by exact Hraw.
    injection Hinit as <-. simpl. unfold ReferenceFormat_str, py_format.
    rewrite replace_markers_raw.
    rewrite (format_from_walk _ (fun _ st => (Ok [], st)))
      by (apply assigned_fielded; [exact Hraw|intros n; apply unique_In]).
    apply walk_assigned. intros t Ht. apply tokenize_tokens in Ht.
    destruct t as [c|m|i]; [exact I| |exact Ht].
    apply unique_In. exact Ht.
Qed.


(** ** Distinct names *)

Lemma mem_false x l : mem x l = false <-> ~ In x l.
Proof.
  rewrite <- mem_In. destruct (mem x l); split; congruence.
Qed.

Lemma mem_same s1 s2 x :
  (forall y, In y s1 <-> In y s2) -> mem x s1 = mem x s2.
Proof.
  intros H. destruct (mem x s2) eqn:E.
  - apply mem_In, H, mem_In. exact E.
  - apply mem_false. intros Hin. apply H, mem_In in Hin. congruence.
Qed.

(** Only the set of names seen matters. *)
Lemma unique_from_same seq : forall s1 s2,
  (forall y, In y s1 <-> In y s2) ->
  unique_from s1 seq = unique_from s2 seq.
Proof.
  induction seq as [|x seq IH]; intros s1 s2 H; [reflexivity|].
  simpl. rewrite (mem_same s1 s2 x H).
  destruct (mem x s2); [apply IH; exact H|].
  f_equal. apply IH. intros y. simpl. rewrite H. tauto.
Qed.

Lemma unique_from_app a : forall seen b,
  unique_from seen (a ++ b)
  = unique_from seen a ++ unique_from (a ++ seen) b.
Proof.
  induction a as [|x a IH]; intros seen b; [reflexivity|].
  simpl. destruct (mem x seen) eqn:M.
  - rewrite IH. f_equal. apply unique_from_same.
    intros y. simpl. rewrite !in_app_iff. apply mem_In in M.
    split; [tauto|]. intros [->|H]; tauto.
  - simpl. rewrite IH. f_equal. f_equal. apply unique_from_same.
    intros y. simpl. rewrite !in_app_iff. simpl. tauto.
Qed.

Lemma unique_from_filter b : forall a seen,
  unique_from (a ++ seen) b
  = filter (fun x => negb (mem x a)) (unique_from seen b).
Proof.
  induction b as [|x b IH]; intros a seen; [reflexivity|].
  simpl. destruct (mem x seen) eqn:Ms.
  - replace (mem x (a ++ seen)) with true; [apply IH|].
    symmetry. apply mem_In, in_app_iff. right. apply mem_In. exact Ms.
  - simpl. destruct (mem x a) eqn:Ma; simpl.
    + replace (mem x (a ++ seen)) with true
        by (symmetry; apply mem_In, in_app_iff; left; apply mem_In; exact Ma).
      rewrite <- IH. apply unique_from_same.
      intros y. rewrite !in_app_iff. simpl. apply mem_In in Ma.
      split; [tauto|]. intros [H|[->|H]]; tauto.
    + replace (mem x (a ++ seen)) with false.
      * f_equal. rewrite <- IH. apply unique_from_same.
        intros y. simpl. rewrite !in_app_iff. simpl. tauto.
      * symmetry. apply mem_false. rewrite in_app_iff.
        apply mem_false in Ms, Ma. tauto.
Qed.

Lemma unique_from_fixed seq : forall seen,
  NoDup seq -> (forall x, In x seq -> ~ In x seen) ->
  unique_from seen seq = seq.
Proof.
  induction seq as [|x seq IH]; intros seen Hnd Hseen; [reflexivity|].
  inversion Hnd as [|? ? Hx Hrest]; subst. simpl.
  replace (mem x seen) with false
    by (symmetry; apply mem_false, Hseen; left; reflexivity).
  f_equal. apply IH; [exact Hrest|].
  intros y Hy [<-|H]; [contradiction|]. apply (Hseen y); [right|]; assumption.
Qed.

Lemma unique_from_absorb seq : forall s t,
  (forall x, In x t -> In x s) ->
  unique_from s (unique_from t seq) = unique_from s seq.
Proof.
  induction seq as [|x seq IH]; intros s t Hts; [reflexivity|].
  simpl. destruct (mem x t) eqn:Mt.
  - replace (mem x s) with true
      by (symmetry; apply mem_In, Hts, mem_In; exact Mt).
    apply IH. exact Hts.
  - simpl. destruct (mem x s) eqn:Ms.
    + apply IH. intros y [<-|H]; [apply mem_In; exact Ms|auto].
    + f_equal. apply IH. intros y [<-|H]; [left; reflexivity|right; auto].
Qed.

(** ** The registry, exactly *)

Lemma registry_getitem_unique refs key :
  ReferenceCollection_getitem refs key = refs ++ unique_from refs [key].
Proof.
  unfold ReferenceCollection_getitem. simpl.
  destruct (mem key refs); [rewrite app_nil_r|]; reflexivity.
Qed.

Lemma registry_fold_unique names : forall refs,
  fold_left ReferenceCollection_getitem names refs
  = refs ++ unique_from refs names.
Proof.
  induction names as [|n names IH]; intros refs; simpl.
  - rewrite app_nil_r. reflexivity.
  - rewrite IH. unfold ReferenceCollection_getitem.
    destruct (mem n refs); [reflexivity|].
    rewrite <- app_assoc. simpl. f_equal. f_equal.
    apply unique_from_same. intros y. rewrite in_app_iff. simpl. tauto.
Qed.

(** Whatever its outcome, [format] adds to the registry the names that
    [findall] reports and that are not there yet, in that order. *)
Lemma format_registry refs raw :
  snd (format refs raw) = refs ++ unique_from refs (findall raw).
Proof.
  destruct (format_cases refs raw)
    as [[F ->]|[(name & Hv & -> & F & ->)|(F & _ & ->)]]; simpl.
  - rewrite F, app_nil_r. reflexivity.
  - rewrite F. apply registry_getitem_unique.
  - rewrite registry_fold_unique. f_equal.
    apply unique_from_absorb. contradiction.
Qed.

Lemma step_registry_exact done st parsed st' :
  references st = unique (flat_map references_of done) ->
  step st parsed st' ->
  references st' = unique (flat_map references_of (done ++ [parsed])).
Proof.
  intros Hst Hstep. rewrite flat_map_snoc.
  inversion Hstep as [ |? ? ? Hc|? ? ? Hc Hs|
                       ? ? raw ? ? ? ? ? Hc Hs Hv Hw Hcur Hf]; subst; simpl.
  - rewrite app_nil_r. exact Hst.
  - rewrite Hc, app_nil_r. exact Hst.
  - rewrite Hc, Hs, app_nil_r. exact Hst.
  - rewrite Hc, Hs, Hv, Hw.
    pose proof (format_registry (references st) raw) as R.
    rewrite Hf in R. simpl in R. rewrite R, Hst.
    unfold unique. rewrite unique_from_app, app_nil_r. f_equal.
    apply unique_from_same. intros y. exact (unique_In _ y).
Qed.

(** ** Slots and draws *)

Lemma iter_positive {V} (pool : WeightedCollection V) slot :
  In slot (iter pool) -> In slot pool /\ (0 < weight slot)%Z.
Proof.
  intros H. split; [apply iter_In; exact H|].
  induction pool as [|i rest IH]; simpl in H; [contradiction|].
  apply in_app_iff in H as [H|H]; [|auto].
  destruct (Z.to_nat (weight i)) eqn:E; [contradiction|].
  apply repeat_spec in H. subst slot. lia.
Qed.




Lemma RandomString_str_S fuel self w :
  RandomString_str (S fuel) self w
  = match list_of self with
    | Ok slots =>
        match random_choice slots (rng w) with
        | (Ok item, rng') =>
            str_item (RandomString_str fuel) (value item)
              (mkWorld (grammar w) rng')
        | (Raise e, rng') => (Raise e, mkWorld (grammar w) rng')
        | (Stuck g, rng') => (Stuck g, mkWorld (grammar w) rng')
        end
    | Raise e => (Raise e, w)
    | Stuck g => (Stuck g, w)
    end.
Proof. reflexivity. Qed.

(** The call on a pool that [list] accepts. *)
Lemma RandomString_str_fits fuel self w :
  list_of self = Ok (iter self) ->
  RandomString_str (S fuel) self w
  = match random_choice (iter self) (rng w) with
    | (Ok item, rng') =>
        str_item (RandomString_str fuel) (value item)
          (mkWorld (grammar w) rng')
    | (Raise e, rng') => (Raise e, mkWorld (grammar w) rng')
    | (Stuck g, rng') => (Stuck g, mkWorld (grammar w) rng')
    end.
Proof. intros H. rewrite RandomString_str_S, H. reflexivity. Qed.


Lemma Config_getitem_found cfg key section :
  Config_get cfg key = Some section ->
  Config_getitem cfg key = (Ok section, cfg).
Proof. unfold Config_getitem. intros ->. reflexivity. Qed.

(** ** The loop, line by line *)

Lemma run_loop_app l1 : forall st l2,
  run_loop st (l1 ++ l2)
  = bind (run_loop st l1) (fun st1 => run_loop st1 l2).
Proof.
  induction l1 as [|[[lineno line] parsed] l1 IH]; intros st l2;
    [reflexivity|].
  simpl. destruct parsed as [p| |]; simpl; try reflexivity.
  destruct (wrap lineno line (loop_body st p)); simpl; try reflexivity.
  apply IH.
Qed.

Lemma Config_setitem_keys cfg key v :
  map fst (Config_setitem cfg key v)
  = if Config_contains cfg key then map fst cfg else map fst cfg ++ [key].
Proof.
  unfold Config_contains. induction cfg as [|[k v0] rest IH]; simpl;
    [reflexivity|].
  destruct (Py.str_eqb k key) eqn:E; simpl; [reflexivity|].
  rewrite IH. destruct (Config_get rest key); reflexivity.
Qed.

Lemma extends_refl cfg : extends cfg cfg.
Proof.
  split.
  - intros name section H. exists []. rewrite app_nil_r. exact H.
  - exists []. rewrite app_nil_r. reflexivity.
Qed.

Lemma extends_trans a b c : extends a b -> extends b c -> extends a c.
Proof.
  intros [Hab [kab Kab]] [Hbc [kbc Kbc]]. split.
  - intros name section H. destruct (Hab _ _ H) as [m1 H1].
    destruct (Hbc _ _ H1) as [m2 H2]. exists (m1 ++ m2).
    rewrite app_assoc. exact H2.
  - exists (kab ++ kbc). rewrite Kbc, Kab, app_assoc. reflexivity.
Qed.

Lemma Config_add_extends conf cur text w conf' :
  Config_add conf cur text w = Ok conf' -> extends conf conf'.
Proof.
  intros Hadd. pose proof Hadd as Hkeys.
  destruct (Config_add_get _ _ _ _ _ Hadd) as [Hsame Hother]. split.
  - intros name section H.
    destruct (list_eq_dec ascii_dec name cur) as [->|Hne].
    + exists [mkItem text w]. rewrite Hsame. unfold section_or_new.
      rewrite H. reflexivity.
    + exists []. rewrite app_nil_r, Hother by exact Hne. exact H.
  - rewrite Config_add_Ok in Hkeys. injection Hkeys as <-.
    rewrite Config_setitem_keys. unfold Config_getitem.
    destruct (Config_get conf cur) as [section|] eqn:G; simpl.
    + unfold Config_contains. rewrite G. exists []. rewrite app_nil_r.
      reflexivity.
    + unfold Config_contains. rewrite Config_get_setitem_same.
      rewrite Config_setitem_keys. unfold Config_contains. rewrite G.
      exists [cur]. reflexivity.
Qed.

Lemma step_extends st parsed st' :
  step st parsed st' -> extends (config st) (config st').
Proof.
  intros Hstep. inversion Hstep; subst; simpl; try apply extends_refl.
  eapply Config_add_extends; eauto.
Qed.

Lemma steps_extends st todo st' :
  steps st todo st' -> extends (config st) (config st').
Proof.
  induction 1; [apply extends_refl|].
  eapply extends_trans; [eapply step_extends|]; eauto.
Qed.

(** ** What the build can raise *)

Lemma parseString_shape line r : parseString line = Ok r -> line_shape r.
Proof.
  intros H. apply parseString_Ok in H as [rest H].
  apply CONFIG_LINE_spec in H as [H|[H|H]].
  - apply COMMENT_LINE_spec in H as [text ->]. left. eauto.
  - apply SECTION_LINE_spec in H as (name & -> & _). right. left. eauto.
  - apply VALUE_LINE_spec in H
      as (lead & digits & g1 & g2 & raw & _ & _ & _ & _ & _ & _ & _ & _ & _
          & _ & ->).
    right. right. eauto.
Qed.

Lemma lift_prefix_fst_Raise {S} pre (r : result str * S) e :
  fst (lift_prefix pre r) = Raise e -> fst r = Raise e.
Proof. destruct r as [[out| |] st]; simpl; congruence. Qed.

(** A failure of the formatting is a complaint about a single brace or
    the failure of a conversion. *)
Lemma format_from_raises {S} (arg : nat -> S -> result str * S)
  (P : exn -> Prop) :
  (forall idx st e, fst (arg idx st) = Raise e -> P e) ->
  P (ValueError (chars "Single '{' encountered in format string")) ->
  P (ValueError (chars "Single '}' encountered in format string")) ->
  forall fs m st e, fst (format_from arg m fs st) = Raise e -> P e.
Proof.
  intros Harg Hopen Hclose. induction fs as [|c fs IH]; intros m st e H.
  - destruct m; simpl in H; try discriminate; injection H as <-; assumption.
  - destruct m; simpl in H;
      repeat match type of H with
             | context [if ?b then _ else _] => destruct b
             end;
      try apply lift_prefix_fst_Raise in H;
      try (eapply IH; eassumption);
      try discriminate;
      try (simpl in H; injection H as <-; assumption).
    destruct (Py.index_of_digits digits) as [idx|]; [|discriminate].
    destruct (arg idx st) as [[v| |] st1] eqn:A; simpl in H;
      try discriminate.
    + apply lift_prefix_fst_Raise in H. eapply IH; eassumption.
    + injection H as <-. apply (Harg idx st). rewrite A. reflexivity.
Qed.

Lemma format_Raise refs raw e :
  fst (format refs raw) = Raise e -> line_cause e.
Proof.
  destruct (format_cases refs raw)
    as [[F ->]|[(name & Hv & -> & F & ->)|(F & _ & ->)]]; simpl;
    try discriminate.
  unfold ReferenceFormat_init, py_format.
  match goal with
  | |- context [fst (format_from ?a Top ?fs tt)] =>
      destruct (fst (format_from a Top fs tt)) as [out|e'|g] eqn:E
  end; try discriminate.
  intros [= <-]. revert E.
  apply format_from_raises; unfold line_cause; auto 10.
  intros idx [] e0. destruct (idx <? _); simpl; [discriminate|].
  intros [= <-]. auto 10.
Qed.

Lemma check_section_Raise conf name e :
  check_section conf name = Raise e ->
  (exists n, e = ValueError (quoted "Empty collection " n))
  \/ e = OverflowError
  \/ e = ValueError (chars "__len__() should return >= 0").
Proof.
  destruct name as [n|]; simpl; [|discriminate].
  unfold Config_getitem. destruct (Config_get conf n) as [section|]; simpl.
  - destruct (builtin_len (len section)) as [size| |] eqn:B; cbn [bind].
    + destruct (size <? 1)%Z; [|discriminate]. intros [= <-]. eauto.
    + intros [= <-]. destruct (builtin_len_Raise _ _ B) as [->|[-> _]]; auto.
    + discriminate.
  - intros [= <-]. eauto.
Qed.

Lemma check_section_cause conf name e :
  check_section conf name = Raise e -> line_cause e.
Proof.
  intros H. apply check_section_Raise in H as [H|[H|H]];
    unfold line_cause; auto 10.
Qed.

Lemma loop_body_Raise st parsed e :
  (forall r, parsed = Some r -> line_shape r) ->
  loop_body st parsed = Raise e -> line_cause e.
Proof.
  intros Hshape. destruct parsed as [r|]; simpl.
  - destruct (Hshape r eq_refl) as [[t ->]|[[n ->]|(w & raw & ->)]]; simpl.
    + discriminate.
    + destruct (check_section (config st) (current_section st)) eqn:K;
        simpl; try discriminate.
      intros [= <-]. exact (check_section_cause _ _ _ K).
    + destruct (current_section st) as [cur|].
      * destruct (format (references st) raw) as [[text|e'|g] refs] eqn:F;
          simpl; try discriminate.
        -- rewrite Config_add_Ok. simpl. discriminate.
        -- intros [= <-]. apply (format_Raise (references st) raw).
           rewrite F. reflexivity.
      * intros [= <-]. unfold line_cause. auto.
  - destruct (check_section (config st) (current_section st)) eqn:K;
      simpl; try discriminate.
    intros [= <-]. exact (check_section_cause _ _ _ K).
Qed.

Lemma run_loop_cons st lineno line parsed rest :
  run_loop st ((lineno, line, parsed) :: rest)
  = bind parsed (fun p =>
      bind (wrap lineno line (loop_body st p)) (fun st' =>
        run_loop st' rest)).
Proof. reflexivity. Qed.

Lemma parse_config_from_cons n line rest :
  parse_config_from n (line :: rest)
  = (n, line,
     match Py.strip line with
     | [] => Ok None
     | _ :: _ =>
         match parseString line with
         | Ok data => Ok (Some data)
         | Raise e => Raise (ConfigException n line e)
         | Stuck g => Stuck g
         end
     end) :: parse_config_from (S n) rest.
Proof. reflexivity. Qed.

(** What [parse_config] yields for one line. *)
Lemma parse_config_line n line rest :
  exists parsed,
    parse_config_from n (line :: rest)
    = (n, line, parsed) :: parse_config_from (S n) rest
    /\ match parsed with
       | Ok p => forall r, p = Some r -> line_shape r
       | Raise e => e = ConfigException n line ParseException
       | Stuck _ => False
       end.
Proof.
  rewrite parse_config_from_cons. eexists. split; [reflexivity|].
  destruct (Py.strip line); [discriminate|].
  destruct (parseString line) as [r|e|g] eqn:P.
  - intros r' [= <-]. eapply parseString_shape. exact P.
  - unfold parseString in P.
    destruct (CONFIG_LINE (Py.expandtabs line)) as [[r' rest']|];
      [discriminate|].
    injection P as <-. reflexivity.
  - unfold parseString in P.
    destruct (CONFIG_LINE (Py.expandtabs line)) as [[r' rest']|];
      discriminate.
Qed.

(** Where the loop stops: at the first line it cannot take, with that
    line and its number. *)
Lemma run_loop_stops lines : forall n st e,
  run_loop st (parse_config_from n lines) = Raise e ->
  exists i line cause,
    e = ConfigException (n + i) line cause
    /\ nth_error lines i = Some line
    /\ line_cause cause
    /\ exists st', run_loop st (parse_config_from n (firstn i lines)) = Ok st'.
Proof.
  induction lines as [|line rest IH]; intros n st e H; [discriminate|].
  destruct (parse_config_line n line rest) as (parsed & E & Hparsed).
  rewrite E, run_loop_cons in H.
  destruct parsed as [p|e0|g0]; cbn [bind] in H; [| |contradiction].
  - destruct (loop_body st p) as [st1|e1|g1] eqn:B; cbn [wrap bind] in H;
      try discriminate.
    + destruct (IH _ _ _ H) as (i & l & cause & -> & Hn & Hc & st' & Hst).
      exists (S i), l, cause. split; [f_equal; lia|].
      split; [exact Hn|]. split; [exact Hc|]. exists st'.
      cbn [firstn].
      destruct (parse_config_line n line (firstn i rest))
        as (parsed' & E' & _).
      rewrite parse_config_from_cons in E, E'.
      injection E as Ep. injection E' as Ep'.
      rewrite parse_config_from_cons, Ep, run_loop_cons. cbn [bind].
      rewrite B. cbn [wrap bind]. exact Hst.
    + injection H as <-. exists 0, line, e1. rewrite Nat.add_0_r.
      split; [reflexivity|]. split; [reflexivity|].
      split; [|exists st; reflexivity].
      eapply loop_body_Raise; [|exact B]. exact Hparsed.
  - injection H as <-. subst e0. exists 0, line, ParseException.
    rewrite Nat.add_0_r.
    split; [reflexivity|]. split; [reflexivity|].
    split; [|exists st; reflexivity].
    unfold line_cause. auto.
Qed.

Lemma from_string_Raise text e :
  from_string text = Raise e ->
  (exists st missing,
     run_loop initial_loop (parse_config text) = Ok st
     /\ e = ValueError (quoted "Reference to missing collection " missing)
     /\ In missing (references st)
     /\ Config_contains (config st) missing = false)
  \/ run_loop initial_loop (parse_config text) = Raise e.
Proof.
  unfold from_string.
  destruct (run_loop initial_loop (parse_config text)) as [st|e'|g] eqn:L;
    simpl; try discriminate.
  - destruct (check_references (config st) (references st)) as [[]|e'|g]
      eqn:C; simpl; try discriminate.
    intros [= <-]. left. exists st.
    assert (Hex : exists x, In x (references st)
                            /\ Config_contains (config st) x = false).
    { clear L. induction (references st) as [|ref refs IH];
        simpl in C; [discriminate|].
      destruct (Config_contains (config st) ref) eqn:K.
      - destruct (IH C) as (x & Hx & Hk). exists x. split; [right|]; auto.
      - exists ref. split; [left|]; auto. }
    destruct Hex as (x & Hx & Hk).
    destruct (check_references_Raise _ _ _ Hx Hk) as (m & E & Hm & Hc).
    rewrite E in C. injection C as <-. exists m. auto.
  - intros [= <-]. right. reflexivity.
Qed.

(** ** Recognising a line *)

Lemma white_cases c :
  white c = true ->
  c = Py.space \/ c = Py.newline \/ c = Py.tab \/ c = Py.cr.
Proof.
  unfold white. rewrite !orb_true_iff, !Ascii.eqb_eq. tauto.
Qed.

Lemma white_not_name c : white c = true -> name_char c = false.
Proof. intros H. apply white_cases in H as [->|[->|[->| ->]]]; reflexivity. Qed.

Lemma white_not_digit c : white c = true -> Py.isdigit c = false.
Proof. intros H. apply white_cases in H as [->|[->|[->| ->]]]; reflexivity. Qed.

Lemma preParse_app ws rest :
  forallb white ws = true ->
  match rest with c :: _ => white c = false | [] => True end ->
  preParse (ws ++ rest) = rest.
Proof.
  induction ws as [|c ws IH]; simpl; intros Hws Hrest.
  - destruct rest as [|c rest]; [reflexivity|]. simpl. rewrite Hrest.
    reflexivity.
  - apply andb_prop in Hws as [Hc Hws]. rewrite Hc. apply IH; assumption.
Qed.

Lemma preParse_lines s : ~ In Py.newline s -> ~ In Py.newline (preParse s).
Proof.
  intros H Hin. destruct (preParse_spec s) as (ws & E & _).
  apply H. rewrite E. apply in_app_iff. right. exact Hin.
Qed.

Lemma span_all p s : forallb p s = true -> Py.span p s = (s, []).
Proof.
  intros H. rewrite <- (app_nil_r s) at 1. apply span_app; [exact H|exact I].
Qed.

Lemma not_newline_all s :
  ~ In Py.newline s -> forallb not_newline s = true.
Proof.
  intros H. apply forallb_forall. intros c Hc. unfold not_newline.
  apply negb_true_iff, Ascii.eqb_neq. intros ->. contradiction.
Qed.

Lemma Suppress_head lit s rest :
  preParse s = lit :: rest -> Suppress lit s = Some rest.
Proof. unfold Suppress. intros ->. rewrite Ascii.eqb_refl. reflexivity. Qed.

Lemma Suppress_other lit s c rest :
  preParse s = c :: rest -> c <> lit -> Suppress lit s = None.
Proof.
  unfold Suppress. intros -> H. apply Ascii.eqb_neq in H. rewrite H.
  reflexivity.
Qed.

Lemma run_of_other cls s c rest :
  preParse s = c :: rest -> cls c = false -> run_of cls s = None.
Proof. unfold run_of. intros -> H. simpl. rewrite H. reflexivity. Qed.

Lemma run_of_token cls ws tok rest :
  forallb white ws = true ->
  forallb cls tok = true ->
  match tok with c :: _ => white c = false | [] => False end ->
  match rest with c :: _ => cls c = false | [] => True end ->
  run_of cls (ws ++ tok ++ rest) = Some (tok, rest).
Proof.
  intros Hws Htok Hhead Hrest. unfold run_of.
  rewrite preParse_app; [rewrite span_app by assumption| |].
  - destruct tok; [contradiction|reflexivity].
  - exact Hws.
  - destruct tok as [|c tok]; [contradiction|]. exact Hhead.
Qed.

Lemma head_not_white cls tok :
  (forall c, cls c = true -> white c = false) ->
  tok <> [] -> forallb cls tok = true ->
  match tok with c :: _ => white c = false | [] => False end.
Proof.
  intros Hcls Hne Hall. destruct tok as [|c tok]; [congruence|].
  simpl in Hall. apply andb_prop in Hall as [Hc _]. apply Hcls. exact Hc.
Qed.

Lemma Suppress_after ws lit rest :
  forallb white ws = true -> white lit = false ->
  Suppress lit (ws ++ lit :: rest) = Some rest.
Proof.
  intros Hws Hlit. apply Suppress_head. apply preParse_app; assumption.
Qed.

Lemma name_not_white c : name_char c = true -> white c = false.
Proof.
  intros H. destruct (white c) eqn:W; [|reflexivity].
  apply white_not_name in W. congruence.
Qed.

Lemma digit_not_white c : Py.isdigit c = true -> white c = false.
Proof.
  intros H. destruct (white c) eqn:W; [|reflexivity].
  apply white_not_digit in W. congruence.
Qed.

Lemma comment_parses line rest :
  ~ In Py.newline line ->
  preParse (Py.expandtabs line) = "#"%char :: rest ->
  parseString line = Ok (mkResults (Some (preParse rest)) None None None).
Proof.
  intros Hline Hfirst.
  assert (Hno : ~ In Py.newline (preParse rest)).
  { apply preParse_lines. intros H.
    apply (preParse_lines _ (expandtabs_from_lines line 0 Hline)).
    fold (Py.expandtabs line). rewrite Hfirst. right. exact H. }
  unfold parseString, CONFIG_LINE, Or.
  assert (C : COMMENT_LINE (Py.expandtabs line)
              = Some (mkResults (Some (preParse rest)) None None None, [])).
  { unfold COMMENT_LINE. rewrite (Suppress_head _ _ _ Hfirst).
    unfold Regex_dot_star_end.
    rewrite (span_all _ _ (not_newline_all _ Hno)). reflexivity. }
  assert (S : SECTION_LINE (Py.expandtabs line) = None).
  { unfold SECTION_LINE.
    rewrite (Suppress_other _ _ _ _ Hfirst); [reflexivity|discriminate]. }
  assert (V : VALUE_LINE (Py.expandtabs line) = None).
  { unfold VALUE_LINE.
    rewrite (run_of_other _ _ _ _ Hfirst); reflexivity. }
  rewrite C, S, V. reflexivity.
Qed.

(** ** Lines that are not blank *)

Lemma expandtabs_from_In x s : forall col,
  In x (Py.expandtabs_from col s) -> x = Py.space \/ In x s.
Proof.
  induction s as [|c s IH]; intros col; simpl; [tauto|].
  destruct (Ascii.eqb c Py.tab).
  - rewrite in_app_iff. intros [H|H].
    + apply repeat_spec in H. left. exact H.
    + destruct (IH _ H); auto.
  - destruct (Ascii.eqb c Py.newline || Ascii.eqb c Py.cr);
      (intros [H|H]; [auto|destruct (IH _ H); auto]).
Qed.

Lemma lstrip_In x s :
  In x s -> Py.isspace x = false -> In x (Py.lstrip s).
Proof.
  induction s as [|c s IH]; simpl; [tauto|]. intros [->|H] Hx.
  - rewrite Hx. left. reflexivity.
  - destruct (Py.isspace c); [apply IH; assumption|right; exact H].
Qed.

Lemma strip_In x s :
  In x s -> Py.isspace x = false -> In x (Py.strip s).
Proof.
  intros H Hx. unfold Py.strip, Py.rstrip. apply -> in_rev.
  apply lstrip_In; [|exact Hx]. apply -> in_rev.
  apply lstrip_In; assumption.
Qed.

Lemma preParse_In x s : In x (preParse s) -> In x s.
Proof.
  destruct (preParse_spec s) as (ws & E & _). intros H. rewrite E.
  apply in_app_iff. right. exact H.
Qed.

Lemma comment_not_blank line rest :
  preParse (Py.expandtabs line) = "#"%char :: rest -> Py.strip line <> [].
Proof.
  intros Hfirst.
  assert (H : In "#"%char line).
  { destruct (expandtabs_from_In "#"%char line 0) as [H|H].
    - apply preParse_In. fold (Py.expandtabs line). rewrite Hfirst.
      left. reflexivity.
    - discriminate H.
    - exact H. }
  apply strip_In in H; [|reflexivity]. intros E. rewrite E in H. exact H.
Qed.

(** ** Line numbers *)

Lemma check_references_ValueError conf refs e :
  check_references conf refs = Raise e ->
  exists missing,
    e = ValueError (quoted "Reference to missing collection " missing).
Proof.
  induction refs as [|r refs IH]; simpl; [discriminate|].
  destruct (Config_contains conf r); [exact IH|].
  intros H. injection H as <-. eexists. reflexivity.
Qed.

Lemma run_loop_shift lines : forall n st,
  run_loop st (parse_config_from (S n) lines)
  = renumber 0 (run_loop st (parse_config_from n lines)).
Proof.
  induction lines as [|line rest IH]; intros n st; [reflexivity|].
  rewrite !parse_config_from_cons, !run_loop_cons.
  destruct (Py.strip line).
  - cbn [bind].
    destruct (loop_body st None) as [st'|e|g]; cbn [wrap bind renumber];
      [apply IH|reflexivity..].
  - destruct (parseString line) as [r|e|g]; cbn [bind renumber];
      [|reflexivity..].
    destruct (loop_body st (Some r)) as [st'|e|g]; cbn [wrap bind renumber];
      [apply IH|reflexivity..].
Qed.

Lemma renumber_from lines n st :
  renumber n (run_loop st (parse_config_from n lines))
  = renumber 0 (run_loop st (parse_config_from n lines)).
Proof.
  destruct (run_loop st (parse_config_from n lines)) as [st'|e|g] eqn:E;
    [reflexivity| |reflexivity].
  destruct (run_loop_stops _ _ _ _ E) as (i & l & cause & -> & _).
  simpl. destruct (n + i <? n) eqn:L; [|reflexivity].
  apply Nat.ltb_lt in L. lia.
Qed.

Lemma run_loop_comment (pre : list str) (c rest : str) (post : list str) :
  ~ In Py.newline c ->
  preParse (Py.expandtabs c) = "#"%char :: rest ->
  forall n st,
  run_loop st (parse_config_from n (pre ++ c :: post))
  = renumber (n + length pre)
      (run_loop st (parse_config_from n (pre ++ post))).
Proof.
  intros Hline Hc. induction pre as [|line pre IH]; intros n st.
  - simpl app. rewrite Nat.add_0_r, renumber_from, <- run_loop_shift.
    rewrite parse_config_from_cons, run_loop_cons.
    destruct (Py.strip c) eqn:E;
      [exfalso; exact (comment_not_blank _ _ Hc E)|].
    rewrite (comment_parses _ _ Hline Hc). reflexivity.
  - rewrite <- !app_comm_cons, !parse_config_from_cons, !run_loop_cons.
    assert (L : (n <? n + length (line :: pre)) = true)
      by (apply Nat.ltb_lt; simpl; lia).
    assert (N : n + length (line :: pre) = S n + length pre)
      by (simpl; lia).
    destruct (Py.strip line).
    + cbn [bind].
      destruct (loop_body st None) as [st'|e|g]; cbn [wrap bind].
      * rewrite IH, N. reflexivity.
      * cbn [renumber]. rewrite L. reflexivity.
      * reflexivity.
    + destruct (parseString line) as [r|e|g]; cbn [bind].
      * destruct (loop_body st (Some r)) as [st'|e|g]; cbn [wrap bind].
        -- rewrite IH, N. reflexivity.
        -- cbn [renumber]. rewrite L. reflexivity.
        -- reflexivity.
      * cbn [renumber]. rewrite L. reflexivity.
      * reflexivity.
Qed.

(** ** Rendering a grammar in good order *)

Lemma lift_prefix_fst_Ok {S} pre (r : result str * S) out :
  fst (lift_prefix pre r) = Ok out -> exists out', fst r = Ok out'.
Proof. destruct r as [[out'| |] st]; simpl; try discriminate. eauto. Qed.

Lemma fine_lift {S} lax (Inv : S -> Prop) pre b (r : result str * S) :
  pre <> [] -> fine lax Inv b r -> fine lax Inv true (lift_prefix pre r).
Proof.
  intros Hpre. destruct r as [[out| |[]] st]; simpl; try tauto.
  intros [HI _]. split; [exact HI|]. intros _ E.
  apply app_eq_nil in E as [E _]. exact (Hpre E).
Qed.

Section FormatFine.

Variable S : Type.
Variable arg : nat -> S -> result str * S.
Variable n : nat.
Variable lax : bool.
Variable Inv : S -> Prop.

Hypothesis Harg :
  forall idx st, idx < n -> Inv st -> fine lax Inv true (arg idx st).

(** A format string that passed the trial on [n] copies of "test"
    formats any [n] arguments whose conversions are fine. *)
Lemma format_from_fine : forall fs m st,
  Inv st ->
  (exists out,
     fst (format_from
            (fun (idx : nat) (_ : unit) =>
               if idx <? n then (Ok (chars "test"), tt)
               else (Raise tuple_index_error, tt)) m fs tt) = Ok out) ->
  fine lax Inv (some_output m fs) (format_from arg m fs st).
Proof.
  induction fs as [|c fs IH]; intros m st HI [out Hv].
  - destruct m; simpl in Hv; try discriminate Hv.
    simpl. split; [exact HI|discriminate].
  - destruct m; cbn [format_from] in Hv |- *; cbn [some_output].
    + destruct (Ascii.eqb c "{"); [apply (IH AfterOpen); eauto|].
      destruct (Ascii.eqb c "}"); [apply (IH AfterClose); eauto|].
      apply lift_prefix_fst_Ok in Hv.
      apply (fine_lift _ _ _ (some_output Top fs)); [discriminate|].
      apply IH; assumption.
    + destruct (Ascii.eqb c "{").
      { apply lift_prefix_fst_Ok in Hv.
        apply (fine_lift _ _ _ (some_output Top fs)); [discriminate|].
        apply IH; assumption. }
      destruct (Py.isdigit c); [|discriminate Hv].
      apply (IH (FieldIndex [c])); eauto.
    + destruct (Ascii.eqb c "}"); [|discriminate Hv].
      apply lift_prefix_fst_Ok in Hv.
      apply (fine_lift _ _ _ (some_output Top fs)); [discriminate|].
      apply IH; assumption.
    + destruct (Py.isdigit c); [apply (IH (FieldIndex _)); eauto|].
      destruct (Ascii.eqb c "!"); [|discriminate Hv].
      apply (IH (FieldBang _)); eauto.
    + destruct (Ascii.eqb c "s"); [|discriminate Hv].
      apply (IH (FieldConv _)); eauto.
    + destruct (Ascii.eqb c "}"); [|discriminate Hv].
      destruct (Py.index_of_digits digits) as [idx|]; [|discriminate Hv].
      destruct (idx <? n) eqn:L; [|discriminate Hv].
      apply Nat.ltb_lt in L. apply lift_prefix_fst_Ok in Hv.
      pose proof (Harg idx st L HI) as Ha.
      destruct (arg idx st) as [[v| |[]] st1]; simpl in Ha;
        try contradiction.
      * destruct Ha as [HI1 Hne].
        apply (fine_lift _ _ _ (some_output Top fs)); [auto|].
        apply IH; assumption.
      * exact Ha.
Qed.

End FormatFine.

Lemma replace_from_nonempty old new s :
  new <> [] -> s <> [] -> Py.replace_from old new 0 s <> [].
Proof.
  intros Hnew Hs. destruct s as [|c s]; [congruence|].
  rewrite replace_from_cons.
  destruct (Py.startswith old (c :: s)); [|discriminate].
  intros E. apply app_eq_nil in E as [E _]. exact (Hnew E).
Qed.

Lemma replace_markers_nonempty names : forall idx raw,
  raw <> [] -> replace_markers idx names raw <> [].
Proof.
  induction names as [|name names IH]; intros idx raw Hraw; [exact Hraw|].
  simpl. apply IH. apply replace_from_nonempty; [|exact Hraw].
  intros E. pose proof (field_cons idx []) as F. rewrite E in F.
  discriminate F.
Qed.

Lemma format_sound refs raw v refs' :
  raw <> [] -> format refs raw = (Ok v, refs') -> sound_value v.
Proof.
  intros Hraw.
  destruct (format_cases refs raw)
    as [[F ->]|[(name & Hv & -> & F & ->)|(F & _ & ->)]].
  - intros [= <- _]. exact Hraw.
  - intros [= <- _]. exact I.
  - intros [= H _]. pose proof (ReferenceFormat_init_Ok _ _ _ H) as ->.
    split; [|exact H]. apply replace_markers_nonempty. exact Hraw.
Qed.

Lemma parseString_value line r raw :
  parseString line = Ok r -> VALUE r = Some raw -> raw <> [].
Proof.
  intros H Hv. apply parseString_Ok in H as [rest H].
  apply CONFIG_LINE_spec in H as [H|[H|H]].
  - apply COMMENT_LINE_spec in H as [text ->]. discriminate.
  - apply SECTION_LINE_spec in H as (name & -> & _). discriminate.
  - apply VALUE_LINE_spec in H
      as (lead & digits & g1 & g2 & raw' & _ & _ & _ & _ & _ & _ & Hne & _
          & _ & _ & ->).
    simpl in Hv. injection Hv as <-. exact Hne.
Qed.

Lemma parse_config_values lines : forall lineno,
  Forall value_nonempty (map parsed_of (parse_config_from lineno lines)).
Proof.
  induction lines as [|line rest IH]; intros lineno; simpl; constructor;
    [|apply IH].
  unfold parsed_of, value_nonempty. simpl. intros r raw Hr Hv.
  destruct (Py.strip line); [discriminate|].
  destruct (parseString line) as [data| |] eqn:P; try discriminate.
  injection Hr as ->. eapply parseString_value; eauto.
Qed.

Lemma step_values_sound st parsed st' :
  value_nonempty parsed -> values_sound (config st) -> step st parsed st' ->
  values_sound (config st').
Proof.
  intros Hq Hst Hstep. inversion Hstep; subst; try exact Hst.
  intros name section item Hget Hitem. simpl in *.
  destruct (Config_add_section _ _ _ _ _ _ _ H5 Hget)
    as [[-> ->]|[_ Hold]]; [|exact (Hst _ _ _ Hold Hitem)].
  apply in_app_iff in Hitem as [Hitem|[<-|[]]].
  - unfold section_or_new in Hitem.
    destruct (Config_get (config st) cur) as [sec|] eqn:G; [|contradiction].
    exact (Hst _ _ _ G Hitem).
  - simpl. eapply format_sound; [|exact H4]. exact (Hq r raw eq_refl H1).
Qed.

Lemma from_string_sound text cfg :
  from_string text = Ok cfg -> values_sound cfg.
Proof.
  intros H. apply from_string_Ok in H as (st & Hloop & _ & ->).
  apply run_loop_steps in Hloop as [Hsteps _].
  apply (steps_invariant value_nonempty
           (fun _ st => values_sound (config st))
           (fun done st parsed st' Hq HP Hstep =>
              step_values_sound st parsed st' Hq HP Hstep)
           (map parsed_of (parse_config text)) [] initial_loop st).
  - apply parse_config_values.
  - intros name section item Hget. discriminate Hget.
  - exact Hsteps.
Qed.

Lemma Config_get_In cfg name section :
  Config_get cfg name = Some section -> In (name, section) cfg.
Proof.
  induction cfg as [|[k v] cfg IH]; simpl; [discriminate|].
  destruct (Py.str_eqb k name) eqn:E.
  - apply str_eqb_eq in E. intros [= <-]. left. congruence.
  - intros H. right. exact (IH H).
Qed.

Lemma random_choice_draws {A} (seq : list A) r :
  seq <> [] ->
  exists a, In a seq /\ random_choice seq r = (Ok a, snd (next_random r)).
Proof.
  intros Hne. unfold random_choice. destruct (next_random r) as [x r'].
  destruct (nth_error seq (x mod length seq)) as [a|] eqn:N.
  - exists a. split; [eapply nth_error_In; exact N|reflexivity].
  - exfalso. apply nth_error_None in N.
    assert (length seq <> 0) by (destruct seq; [congruence|discriminate]).
    pose proof (Nat.mod_upper_bound x (length seq)). lia.
Qed.

Lemma random_choice_In {A} (seq : list A) r a r' :
  random_choice seq r = (Ok a, r') -> In a seq.
Proof.
  unfold random_choice. destruct (next_random r) as [x r1].
  destruct (nth_error seq (x mod length seq)) as [b|] eqn:N;
    [|discriminate].
  intros [= <- _]. eapply nth_error_In. exact N.
Qed.

Section RenderFine.

Variable cfg : Config.
Variable lax : bool.
Variable rank : str -> nat.

Hypothesis Hsound : values_sound cfg.
Hypothesis Hclosed : refs_closed cfg.
Hypothesis Hweights :
  forall name section item,
    Config_get cfg name = Some section -> In item section ->
    (0 <= weight item)%Z.
Hypothesis Hfull :
  forall name section,
    Config_get cfg name = Some section -> (1 <= len section <= capacity)%Z.
Hypothesis Hrank : lax = false -> ranked cfg rank.

Lemma RandomString_str_fine fuel : forall name section w,
  Config_get cfg name = Some section -> grammar w = cfg ->
  (lax = false -> rank name < fuel) ->
  fine lax (fun w' => grammar w' = cfg) true
    (RandomString_str fuel section w).
Proof.
  induction fuel as [|fuel IH]; intros name section w Hget Hw Hfuel.
  - simpl. destruct lax; [auto|]. specialize (Hfuel eq_refl). lia.
  - rewrite RandomString_str_fits.
    2:{ apply list_of_nonneg; [|apply (Hfull _ _ Hget)].
        apply Forall_forall. intros item Hin.
        exact (Hweights _ _ _ Hget Hin). }
    assert (Hne : iter section <> []).
    { pose proof (Hfull _ _ Hget). pose proof (iter_length_ge section).
      destruct (iter section); [simpl in *; lia|discriminate]. }
    destruct (random_choice_draws (iter section) (rng w) Hne)
      as (item & Hin & ->).
    apply iter_In in Hin.
    assert (Href : forall key w',
               In key (refs_of (value item)) -> grammar w' = cfg ->
               fine lax (fun w' => grammar w' = cfg) true
                 (Reference_str (RandomString_str fuel) key w')).
    { intros key w' Hkey Hw'. unfold Reference_str. rewrite Hw'.
      destruct (Config_getitem_present cfg key
                  (Hclosed _ _ _ _ Hget Hin Hkey)) as (sec & Hsec & ->).
      apply (IH key); [exact Hsec|reflexivity|].
      intros Hl. specialize (Hfuel Hl).
      pose proof (Hrank Hl _ _ _ _ Hget Hin Hkey). lia. }
    pose proof (Hsound _ _ _ Hget Hin) as Hv.
    destruct (value item) as [text|key|fs subs]; cbn [str_item].
    + simpl. split; [exact Hw|]. intros _. exact Hv.
    + apply Href; [left; reflexivity|exact Hw].
    + destruct Hv as [Hfs Hinit].
      unfold ReferenceFormat_str, py_format.
      assert (Hm : some_output Top fs = true)
        by (destruct fs; [congruence|reflexivity]).
      rewrite <- Hm.
      apply (format_from_fine _ _ (length subs)); [|exact Hw|].
      * intros idx st Hidx Hst. unfold substitution_str.
        destruct (nth_error subs idx) as [key|] eqn:N.
        -- apply Href; [|exact Hst]. eapply nth_error_In. exact N.
        -- apply nth_error_None in N. lia.
      * unfold ReferenceFormat_init, py_format in Hinit.
        destruct (fst (format_from _ Top fs tt)) as [out| |] eqn:E;
          try discriminate Hinit.
        exists out. reflexivity.
Qed.

Lemma Why_call_fine fuel source r :
  Config_contains cfg source = true ->
  (lax = false -> rank source < fuel) ->
  fine lax (fun w' => grammar w' = cfg) true (Why_call fuel cfg source r).
Proof.
  intros Hsrc Hfuel. unfold Why_call, Why_reason.
  destruct (Config_getitem_present cfg source Hsrc) as (section & Hget & ->).
  pose proof (RandomString_str_fine fuel source section (mkWorld cfg r)
                Hget eq_refl Hfuel) as H.
  destruct (RandomString_str fuel section (mkWorld cfg r))
    as [[out| |[]] w]; simpl in H |- *; try contradiction.
  - destruct H as [Hw Hout]. destruct out as [|c out]; [tauto|].
    simpl. split; [exact Hw|]. discriminate.
  - exact H.
Qed.

End RenderFine.

(** ** References in a circle *)

Lemma RandomString_str_circle cfg names fuel :
  closed_circle cfg names ->
  (forall name section,
     In name names -> Config_get cfg name = Some section ->
     list_of section = Ok (iter section)) ->
  forall name section w,
    In name names -> Config_get cfg name = Some section -> grammar w = cfg ->
    fst (RandomString_str fuel section w) = Stuck FuelExhausted
    \/ fst (RandomString_str fuel section w)
       = Raise (IndexError (chars "list index out of range")).
Proof.
  intros Hcircle Hfit. induction fuel as [|fuel IH];
    intros name section w Hname Hget Hw; [left; reflexivity|].
  rewrite (RandomString_str_fits fuel section w (Hfit _ _ Hname Hget)).
  destruct (random_choice (iter section) (rng w)) as [[item|e|g] rng'] eqn:E.
  - apply random_choice_In, iter_positive in E as [Hin Hpos].
    destruct (Hcircle name Hname) as (sec & Hsec & Hitems).
    rewrite Hget in Hsec. injection Hsec as <-.
    destruct (Hitems item Hin Hpos) as (key & -> & Hkey).
    cbn [str_item]. unfold Reference_str. cbn [grammar]. rewrite Hw.
    destruct (Hcircle key Hkey) as (sec' & Hsec' & _).
    rewrite (Config_getitem_found _ _ _ Hsec').
    apply (IH key); [exact Hkey|exact Hsec'|reflexivity].
  - right. unfold random_choice in E.
    destruct (next_random (rng w)) as [x r1].
    destruct (nth_error (iter section) (x mod length (iter section)));
      [discriminate E|].
    injection E as <- _. reflexivity.
  - exfalso. unfold random_choice in E.
    destruct (next_random (rng w)) as [x r1].
    destruct (nth_error (iter section) (x mod length (iter section)));
      discriminate E.
Qed.

(** ** The [__repr__] methods *)

Lemma WeightedItem_repr_raises {V}
  (field_str : WeightedItem V -> str -> result str) (self : WeightedItem V)
  name :
  field_str self (chars "0.__class__.__name__") = Ok name ->
  WeightedItem_repr field_str self
  = Raise (ValueError (chars "Single '}' encountered in format string")).
Proof.
  intros H. unfold WeightedItem_repr, WeightedItem_repr_format.
  cbn. cbn in H. rewrite H. reflexivity.
Qed.

(** ** files.py *)

Lemma splitext_app p base ext :
  Posixpath.splitext p = (base, ext) -> p = base ++ ext.
Proof.
  unfold Posixpath.splitext.
  destruct (_ <? _)%Z; [|intros [= <- <-]; symmetry; apply app_nil_r].
  destruct (existsb _ _);
    intros [= <- <-]; symmetry; [apply firstn_skipn|apply app_nil_r].
Qed.

Lemma In_firstn {A} (x : A) k l : In x (firstn k l) -> In x l.
Proof.
  intros H. rewrite <- (firstn_skipn k l). apply in_app_iff. left. exact H.
Qed.

Lemma In_firstn_skipn {A} (x : A) j k l :
  In x (firstn k (skipn j l)) -> In x (firstn (j + k) l).
Proof.
  revert l. induction j as [|j IH]; intros l; [simpl; auto|].
  destruct l as [|a l]; simpl.
  - rewrite firstn_nil. auto.
  - intros H. right. apply IH. exact H.
Qed.

Lemma rfind_ge c s : (-1 <= Posixpath.rfind c s)%Z.
Proof.
  induction s as [|x s IH]; simpl; [lia|].
  destruct (0 <=? Posixpath.rfind c s)%Z eqn:E.
  - apply Z.leb_le in E. lia.
  - destruct (Ascii.eqb x c); lia.
Qed.

(** A base name that comes with an extension has a character that is
    not a dot. *)
Lemma splitext_base p base ext :
  Posixpath.splitext p = (base, ext) -> ext <> [] ->
  exists c, In c base /\ c <> "."%char.
Proof.
  unfold Posixpath.splitext.
  destruct (_ <? _)%Z eqn:L; [|intros [= <- <-]; congruence].
  destruct (existsb _ _) eqn:E; [|intros [= <- <-]; congruence].
  intros [= <- <-] _. apply existsb_exists in E as (c & Hin & Hc).
  exists c. split.
  - apply In_firstn_skipn in Hin.
    apply Z.ltb_lt in L. pose proof (rfind_ge Posixpath.sep p).
    replace (Z.to_nat (Posixpath.rfind Posixpath.sep p + 1)
             + Z.to_nat (Posixpath.rfind Posixpath.extsep p
                         - (Posixpath.rfind Posixpath.sep p + 1)))
      with (Z.to_nat (Posixpath.rfind Posixpath.extsep p)) in Hin by lia.
    exact Hin.
  - apply negb_true_iff, Ascii.eqb_neq in Hc. exact Hc.
Qed.

Lemma find_in_Some name path filenames file :
  find_in name path filenames = Some file ->
  Posixpath.splitext (name ++ chars ".cfg") = (name, chars ".cfg")
  /\ In (name ++ chars ".cfg") filenames
  /\ file = Posixpath.join path (name ++ chars ".cfg").
Proof.
  induction filenames as [|f rest IH]; cbn [find_in]; [discriminate|].
  destruct (Posixpath.splitext f) as [base ext] eqn:E.
  destruct (Py.str_eqb ext (chars ".cfg") && Py.str_eqb base name) eqn:C.
  - apply andb_prop in C as [E1 E2].
    apply str_eqb_eq in E1, E2. subst base ext.
    pose proof (splitext_app _ _ _ E) as ->.
    intros [= <-]. split; [exact E|]. split; [left|]; reflexivity.
  - intros H. destruct (IH H) as (A & B & C'). split; [exact A|].
    split; [right; exact B|exact C'].
Qed.

Lemma find_in_None name path filenames :
  find_in name path filenames = None ->
  Posixpath.splitext (name ++ chars ".cfg") = (name, chars ".cfg") ->
  ~ In (name ++ chars ".cfg") filenames.
Proof.
  intros H Hsplit. induction filenames as [|f rest IH]; [intros []|].
  cbn [find_in] in H.
  destruct (Posixpath.splitext f) as [base ext] eqn:E.
  destruct (Py.str_eqb ext (chars ".cfg") && Py.str_eqb base name) eqn:C;
    [discriminate H|].
  intros [->|Hin]; [|exact (IH H Hin)].
  rewrite Hsplit in E. injection E as <- <-.
  rewrite !str_eqb_refl in C. discriminate C.
Qed.

Lemma find_config_in_Found sys name paths file :
  find_config_in sys name paths = Found file ->
  Posixpath.splitext (name ++ chars ".cfg") = (name, chars ".cfg")
  /\ exists before path after filenames,
       paths = before ++ path :: after
       /\ listdir sys path = Some filenames
       /\ In (name ++ chars ".cfg") filenames
       /\ file = Posixpath.join path (name ++ chars ".cfg")
       /\ forall q, In q before ->
            exists fs, listdir sys q = Some fs
                       /\ ~ In (name ++ chars ".cfg") fs.
Proof.
  induction paths as [|path rest IH]; simpl; [discriminate|].
  destruct (listdir sys path) as [filenames|] eqn:L; [|discriminate].
  destruct (find_in name path filenames) as [f|] eqn:F.
  - intros [= <-]. destruct (find_in_Some _ _ _ _ F) as (A & B & C).
    split; [exact A|]. exists [], path, rest, filenames.
    repeat split; auto. intros q [].
  - intros H. destruct (IH H)
      as (A & before & p & after & fs & -> & Hl & Hin & Hf & Hb).
    split; [exact A|]. exists (path :: before), p, after, fs.
    repeat split; auto. intros q [<-|Hq]; [|exact (Hb q Hq)].
    exists filenames. split; [exact L|].
    exact (find_in_None _ _ _ F A).
Qed.

Lemma readable_In sys candidates p :
  In p (readable sys candidates) ->
  In (Some p) candidates /\ is_readable_dir sys (Some p) = true.
Proof.
  induction candidates as [|[q|] rest IH]; cbn [readable].
  - intros [].
  - destruct (is_readable_dir sys (Some q)) eqn:R.
    + intros [<-|H]; [split; [left; reflexivity|exact R]|].
      destruct (IH H). split; [right|]; assumption.
    + intros H. destruct (IH H). split; [right|]; assumption.
  - intros H. destruct (IH H). split; [right|]; assumption.
Qed.

Lemma is_readable_dir_true sys p :
  is_readable_dir sys (Some p) = true ->
  p <> [] /\ isdir sys p = true /\ access_rx sys p = true.
Proof.
  destruct p as [|c p]; simpl; [discriminate|].
  intros H. apply andb_prop in H as [A B]. repeat split; auto. discriminate.
Qed.

Lemma get_config_paths_readable sys p :
  In p (get_config_paths sys) ->
  p <> [] /\ isdir sys p = true /\ access_rx sys p = true.
Proof.
  unfold get_config_paths. intros H. apply readable_In in H as [_ H].
  exact (is_readable_dir_true sys p H).
Qed.

(** ** Entries and the open collection *)

Lemma isdigit_not_space c : Py.isdigit c = true -> Py.isspace c = false.
Proof.
  unfold Py.isdigit, Py.isspace. intros H.
  apply andb_prop in H as [H1 H2]. apply Nat.leb_le in H1.
  apply orb_false_iff. split; apply andb_false_iff; right;
    apply Nat.leb_gt; lia.
Qed.

Lemma entry_not_blank line w raw :
  parseString line = Ok (mkResults None None (Some w) (Some raw)) ->
  Py.strip line <> [].
Proof.
  intros H. apply parseString_Ok in H as [rest H].
  apply CONFIG_LINE_spec in H as [H|[H|H]].
  - apply COMMENT_LINE_spec in H as [text H]. discriminate H.
  - apply SECTION_LINE_spec in H as (name & H & _). discriminate H.
  - apply VALUE_LINE_spec in H
      as (lead & digits & g1 & g2 & raw' & E & _ & _ & _ & Hne & Hdig & _).
    destruct digits as [|d digits]; [congruence|].
    simpl in Hdig. apply andb_prop in Hdig as [Hd _].
    assert (Hin : In d line).
    { destruct (expandtabs_from_In d line 0) as [->|Hin].
      - fold (Py.expandtabs line). rewrite E. apply in_app_iff. right.
        left. reflexivity.
      - discriminate Hd.
      - exact Hin. }
    apply strip_In in Hin; [|apply isdigit_not_space; exact Hd].
    intros E0. rewrite E0 in Hin. exact Hin.
Qed.

Lemma parse_config_from_app a : forall n b,
  parse_config_from n (a ++ b)
  = parse_config_from n a ++ parse_config_from (n + length a) b.
Proof.
  induction a as [|line a IH]; intros n b.
  - simpl. rewrite Nat.add_0_r. reflexivity.
  - rewrite <- app_comm_cons, !parse_config_from_cons, IH.
    replace (S n + length a) with (n + length (line :: a)) by (simpl; lia).
    reflexivity.
Qed.

Lemma run_loop_blank_last st0 n before blank st :
  Py.strip blank = [] ->
  run_loop st0 (parse_config_from n (before ++ [blank])) = Ok st ->
  current_section st = None.
Proof.
  intros Hblank. rewrite parse_config_from_app, run_loop_app.
  destruct (run_loop st0 (parse_config_from n before)) as [st1| |];
    cbn [bind]; try discriminate.
  rewrite parse_config_from_cons, run_loop_cons, Hblank. cbn [bind].
  unfold loop_body.
  destruct (check_section (config st1) (current_section st1)) as [conf| |];
    cbn [bind wrap]; try discriminate.
  simpl. intros [= <-]. reflexivity.
Qed.

(** ** Texts whose values have no braces *)

Lemma check_section_plain conf name :
  (forall n section,
     name = Some n -> Config_get conf n = Some section ->
     (0 <= len section)%Z) ->
  match check_section conf name with
  | Ok _ => True
  | Raise e => build_cause e
  | Stuck _ => False
  end.
Proof.
  intros Hpos. destruct name as [n|]; simpl; [|exact I].
  unfold Config_getitem.
  destruct (Config_get conf n) as [section|] eqn:G; simpl.
  - specialize (Hpos n section eq_refl G).
    destruct (builtin_len (len section)) as [size|e|g] eqn:B; cbn [bind].
    + destruct (size <? 1)%Z; [|exact I]. unfold build_cause. eauto.
    + destruct (builtin_len_Raise _ _ B) as [->|[_ Hneg]];
        [unfold build_cause; auto|lia].
    + exact (builtin_len_Stuck _ _ B).
  - unfold build_cause. eauto.
Qed.

Lemma format_plain refs raw :
  brace_free raw -> exists text, fst (format refs raw) = Ok text.
Proof.
  intros Hraw.
  destruct (format_cases refs raw)
    as [[F ->]|[(name & Hv & -> & F & ->)|(F & _ & ->)]];
    [eexists; reflexivity..|].
  rewrite (ReferenceFormat_init_brace_free raw Hraw). eexists. reflexivity.
Qed.

Lemma loop_body_plain st parsed :
  values_ok st ->
  (forall r, parsed = Some r -> line_shape r) ->
  (forall r raw, parsed = Some r -> VALUE r = Some raw -> brace_free raw) ->
  match loop_body st parsed with
  | Ok _ => True
  | Raise e => build_cause e
  | Stuck _ => False
  end.
Proof.
  intros Hst Hshape Hplain.
  assert (Hcheck : match check_section (config st) (current_section st) with
                   | Ok _ => True
                   | Raise e => build_cause e
                   | Stuck _ => False
                   end).
  { apply check_section_plain. intros n section _ G.
    apply len_nonneg, Forall_forall. intros item Hin.
    exact (proj1 (Hst n section item G Hin)). }
  destruct parsed as [r|]; simpl.
  - destruct (Hshape r eq_refl) as [[t ->]|[[n ->]|(w & raw & ->)]]; simpl.
    + exact I.
    + destruct (check_section (config st) (current_section st));
        simpl; auto.
    + destruct (current_section st) as [cur|];
        [|unfold build_cause; auto].
      destruct (format_plain (references st) raw
                  (Hplain _ raw eq_refl eq_refl)) as [text F].
      destruct (format (references st) raw) as [out refs]. simpl in F.
      subst out. cbn [bind]. rewrite Config_add_Ok. exact I.
  - destruct (check_section (config st) (current_section st)); simpl; auto.
Qed.

Lemma run_loop_plain lines : forall n st,
  values_ok st ->
  (forall line r raw,
     In line lines -> parseString line = Ok r -> VALUE r = Some raw ->
     brace_free raw) ->
  match run_loop st (parse_config_from n lines) with
  | Ok _ => True
  | Raise e =>
      exists lineno line cause,
        e = ConfigException lineno line cause /\ build_cause cause
  | Stuck _ => False
  end.
Proof.
  induction lines as [|line rest IH]; intros n st Hst Hplain; [exact I|].
  rewrite parse_config_from_cons, run_loop_cons.
  assert (Hrest : forall l r raw,
             In l rest -> parseString l = Ok r -> VALUE r = Some raw ->
             brace_free raw)
    by (intros l r raw Hin; apply Hplain; right; exact Hin).
  assert (Hturn : forall p,
             (forall r, p = Some r -> parseString line = Ok r) ->
             match
               bind (wrap n line (loop_body st p))
                 (fun st' => run_loop st' (parse_config_from (S n) rest))
             with
             | Ok _ => True
             | Raise e =>
                 exists lineno l cause,
                   e = ConfigException lineno l cause /\ build_cause cause
             | Stuck _ => False
             end).
  { intros p Hp.
    pose proof (loop_body_plain st p Hst
                  (fun r E => parseString_shape line r (Hp r E))
                  (fun r raw E V =>
                     Hplain line r raw (or_introl eq_refl) (Hp r E) V)) as B.
    destruct (loop_body st p) as [st1|e|g] eqn:L; cbn [wrap bind].
    - apply IH; [|exact Hrest].
      apply (step_values_ok st p st1); [|exact Hst|].
      + intros r w E W. exact (parseString_weight line r w (Hp r E) W).
      + apply loop_body_step. exact L.
    - exists n, line, e. split; [reflexivity|exact B].
    - exact B. }
  destruct (Py.strip line).
  - cbn [bind]. apply Hturn. discriminate.
  - destruct (parseString line) as [r|e|g] eqn:P; cbn [bind].
    + apply Hturn. intros r' [= <-]. reflexivity.
    + exists n, line, e. split; [reflexivity|].
      unfold parseString in P.
      destruct (CONFIG_LINE (Py.expandtabs line)) as [[r' rest']|];
        [discriminate|].
      injection P as <-. unfold build_cause. auto.
    + unfold parseString in P.
      destruct (CONFIG_LINE (Py.expandtabs line)) as [[r' rest']|];
        discriminate.
Qed.

Lemma check_references_Stuck conf refs g :
  check_references conf refs <> Stuck g.
Proof.
  induction refs as [|r refs IH]; simpl; [discriminate|].
  destruct (Config_contains conf r); [exact IH|discriminate].
Qed.

Lemma values_ok_initial : values_ok initial_loop.
Proof. intros name section item G. discriminate G. Qed.

(** The values of a text given line by line, looked through one by
    one. *)
Ltac plain_values_by_cases :=
  let line := fresh "line" in
  let r := fresh "r" in
  let raw := fresh "raw" in
  let Hin := fresh "Hin" in
  let Hp := fresh "Hp" in
  let Hv := fresh "Hv" in
  intros line r raw Hin Hp Hv; vm_compute in Hin;
  repeat (destruct Hin as [Hin|Hin];
          [subst line; vm_compute in Hp;
           first [discriminate Hp
                 |injection Hp as Hp; subst r; vm_compute in Hv;
                  first [discriminate Hv
                        |injection Hv as Hv; subst raw; reflexivity]]
          |]);
  contradiction.

(** * The claims *)

(** C1, as amended.  A call for a name that is not a key of the grammar
    fails at render time, but with the [IndexError] of a draw from an
    empty pool: the lookup first creates an empty collection under the
    name, which stays in the grammar, and the random source has been
    asked for one number.  No [KeyError] is raised. *)
Theorem C1_missing_entry_point (cfg : Config) (name : str) (fuel : nat)
  (r : Rand) (Hmissing : Config_contains cfg name = false) :
  Why_call (S fuel) cfg name r
  = (Raise (IndexError (chars "list index out of range")),
     mkWorld (cfg ++ [(name, [])]) (snd (next_random r))).
Proof.
  unfold Why_call, Why_reason.
  rewrite (Config_getitem_absent cfg name Hmissing).
  simpl. unfold random_choice. destruct (next_random r) as [x r'].
  simpl. destruct x; reflexivity.
Qed.

Lemma C1_missing_entry_point_witness :
  Why_call 1 [(chars "a", [mkItem (Text (chars "x")) 1%Z])] (chars "b") [7]
  = (Raise (IndexError (chars "list index out of range")),
     mkWorld [(chars "a", [mkItem (Text (chars "x")) 1%Z]); (chars "b", [])]
       []).
Proof.
  apply (C1_missing_entry_point
           [(chars "a", [mkItem (Text (chars "x")) 1%Z])] (chars "b") 0 [7]).
  reflexivity.
Defined.

(** C1 as stated fails: on a grammar built from a text, a call for a
    missing name raises an [IndexError], not a [KeyError]. *)
Lemma C1_counterexample :
  let cfg := [(chars "a", [mkItem (Text (chars "x")) 1%Z])] in
  from_string (join_lines ["[a]"; "1: x"; ""]%string) = Ok cfg
  /\ Config_contains cfg (chars "b") = false
  /\ fst (Why_call 1 cfg (chars "b") [])
     = Raise (IndexError (chars "list index out of range"))
  /\ is_KeyError (IndexError (chars "list index out of range")) = false.
Proof. repeat split. Qed.

(** C2, as amended.  A value made by [format] from a text without
    braces renders as that text read from left to right with every
    occurrence of a marker replaced by the string of its reference,
    converted when that occurrence is reached: every occurrence draws
    afresh, also when the name has occurred before. *)
Theorem C2_one_draw_per_occurrence (fuel : nat) (refs : ReferenceCollection)
  (raw : str) (text : TemplateValue) (refs' : ReferenceCollection) (w : World)
  (Hraw : brace_free raw)
  (Hformat : format refs raw = (Ok text, refs')) :
  str_item (RandomString_str fuel) text w
  = substitute (Reference_str (RandomString_str fuel)) raw w.
Proof. exact (str_item_substitute fuel refs raw text refs' w Hraw Hformat). Qed.

Lemma C2_one_draw_per_occurrence_witness :
  let w := mkWorld [(chars "a", [mkItem (Text (chars "x")) 1%Z;
                                 mkItem (Text (chars "y")) 1%Z])] [0; 1] in
  str_item (RandomString_str 1)
    (ReferenceFormat (chars "{0!s} and {0!s}") [chars "a"]) w
  = substitute (Reference_str (RandomString_str 1)) (chars "<a> and <a>") w.
Proof.
  intros w.
  apply (C2_one_draw_per_occurrence 1 [] (chars "<a> and <a>")
           (ReferenceFormat (chars "{0!s} and {0!s}") [chars "a"])
           [chars "a"] w).
  - reflexivity.
  - reflexivity.
Defined.

(** C2 as stated fails: in one render of the value [<a> and <a>] the
    two occurrences of [a] show two different strings. *)
Lemma C2_counterexample :
  let cfg := [(chars "a", [mkItem (Text (chars "x")) 1%Z;
                           mkItem (Text (chars "y")) 1%Z]);
              (chars "t",
               [mkItem (ReferenceFormat (chars "{0!s} and {0!s}")
                          [chars "a"]) 1%Z])] in
  from_string
    (join_lines ["[a]"; "1: x"; "1: y"; ""; "[t]"; "1: <a> and <a>"; ""]
                %string) = Ok cfg
  /\ fst (Why_reason 2 cfg (chars "t") [0; 0; 1]) = Ok (chars "x and y")
  /\ forall s, chars "x and y" <> s ++ chars " and " ++ s.
Proof.
  split; [reflexivity|]. split; [reflexivity|].
  intros s E. pose proof (f_equal (@length ascii) E) as L.
  rewrite !length_app in L. simpl in L.
  destruct s as [|c [|c' s]]; simpl in L; try lia.
  simpl in E. injection E as <- E. discriminate E.
Qed.

(** C3, as amended.  The weight of an entry is read from a run of
    decimal digits, so no grammar that is built holds a negative
    weight; a weight of zero is not refused. *)
Theorem C3_weights_not_negative (text : str) (cfg : Config)
  (Hbuilt : from_string text = Ok cfg) :
  forall name section item,
    Config_get cfg name = Some section -> In item section ->
    (0 <= weight item)%Z.
Proof. apply (from_string_values text cfg Hbuilt). Qed.

Lemma C3_weights_not_negative_witness :
  (0 <= weight (mkItem (Text (chars "foo")) 0%Z))%Z.
Proof.
  apply (C3_weights_not_negative
           (join_lines ["[a]"; "0: foo"; "1: bar"; ""]%string)
           [(chars "a", [mkItem (Text (chars "foo")) 0%Z;
                         mkItem (Text (chars "bar")) 1%Z])]
           eq_refl (chars "a")
           [mkItem (Text (chars "foo")) 0%Z; mkItem (Text (chars "bar")) 1%Z]).
  - reflexivity.
  - left. reflexivity.
Defined.

(** C3 as stated fails: the text below has the entry [0: foo] and is
    built into a grammar that holds an entry of weight zero. *)
Lemma C3_counterexample :
  from_string (join_lines ["[a]"; "0: foo"; "1: bar"; ""]%string)
  = Ok [(chars "a", [mkItem (Text (chars "foo")) 0%Z;
                     mkItem (Text (chars "bar")) 1%Z])].
Proof. reflexivity. Qed.

(** C4.  A header that is the last line of the input, with no line feed
    after it, is never closed: the build succeeds and the grammar does
    not even hold the collection.  With a blank line or another header
    after it the same header is refused as an empty collection. *)
Theorem C4_header_at_end_of_input :
  from_string (join_lines ["[foo]"]%string) = Ok []
  /\ from_string (join_lines ["[foo]"; ""]%string)
     = Raise (ConfigException 2 []
                (ValueError (chars "Empty collection 'foo'")))
  /\ from_string (join_lines ["[foo]"; "[bar]"; "1: x"]%string)
     = Raise (ConfigException 2 (chars "[bar]")
                (ValueError (chars "Empty collection 'foo'")))
  /\ forall conf, check_section conf None = Ok conf.
Proof. repeat split. Qed.

(** C5.  Take a text whose lines the loop accepts and whose last open
    collection is not empty.  If every name referred to is declared by
    a header, before or after the line that refers to it, the build
    succeeds.  For any text, if some name referred to is declared
    nowhere, the build itself raises (a line error, or the complaint
    about a reference to a missing collection), provided the text stays
    inside the modelled fragment of [str.format]; and a grammar that is
    built has no reference left to fail at render time. *)
Theorem C5_references_checked_at_build (text : str) :
  (forall st,
     run_loop initial_loop (parse_config text) = Ok st ->
     check_section (config st) (current_section st) = Ok (config st) ->
     (forall n, In n (referenced_names text) ->
                In n (declared_sections text)) ->
     from_string text = Ok (config st))
  /\ ((exists n, In n (referenced_names text)
                 /\ ~ In n (declared_sections text)) ->
      (forall g, from_string text <> Stuck g) ->
      exists e,
        from_string text = Raise e
        /\ ((exists lineno line cause, e = ConfigException lineno line cause)
            \/ exists missing,
                 e = ValueError
                       (quoted "Reference to missing collection " missing)))
  /\ (forall cfg, from_string text = Ok cfg -> refs_closed cfg).
Proof.
  split; [|split].
  - intros st Hloop Hclosed Hdeclared.
    destruct (loop_facts _ _ Hloop) as (_ & Hreg & _ & Hdecl).
    unfold from_string. rewrite Hloop. simpl.
    assert (Hall : check_references (config st) (references st) = Ok tt).
    { apply check_references_Ok. intros x Hx.
      apply Hreg, Hdeclared, Hdecl in Hx. destruct Hx as [Hx|Hx]; [exact Hx|].
      eapply check_section_contains; eauto. }
    rewrite Hall. reflexivity.
  - intros (n & Href & Hundeclared) Hmodelled.
    unfold from_string in *.
    destruct (run_loop initial_loop (parse_config text)) as [st|e|g] eqn:Hloop;
      simpl in *.
    + destruct (loop_facts _ _ Hloop) as (_ & Hreg & Hkeys & _).
      assert (Hmiss : Config_contains (config st) n = false).
      { destruct (Config_contains (config st) n) eqn:C; [|reflexivity].
        elim Hundeclared. auto. }
      apply Hreg in Href.
      destruct (check_references_Raise _ _ _ Href Hmiss) as (m & -> & _).
      simpl. eauto.
    + exists e. split; [reflexivity|]. left.
      eapply run_loop_Raise; [|exact Hloop]. apply parse_config_raises.
    + elim (Hmodelled g). reflexivity.
  - intros cfg Hbuilt. apply (from_string_values text cfg Hbuilt).
Qed.

Lemma C5_references_checked_at_build_witness :
  from_string
    (join_lines ["[a]"; "1: see <later>"; ""; "[later]"; "1: x"]%string)
  = Ok [(chars "a",
         [mkItem (ReferenceFormat (chars "see {0!s}") [chars "later"]) 1%Z]);
        (chars "later", [mkItem (Text (chars "x")) 1%Z])]
  /\ exists e,
       from_string (join_lines ["[a]"; "1: <b>"; ""]%string) = Raise e
       /\ ((exists lineno line cause, e = ConfigException lineno line cause)
           \/ exists missing,
                e = ValueError
                      (quoted "Reference to missing collection " missing)).
Proof.
  split.
  - destruct (C5_references_checked_at_build
                (join_lines ["[a]"; "1: see <later>"; ""; "[later]"; "1: x"]
                            %string))
      as (Hsucceeds & _ & _).
    apply (Hsucceeds
             (mkLoop
                [(chars "a",
                  [mkItem (ReferenceFormat (chars "see {0!s}")
                             [chars "later"]) 1%Z]);
                 (chars "later", [mkItem (Text (chars "x")) 1%Z])]
                [chars "later"] (Some (chars "later")))).
    + reflexivity.
    + reflexivity.
    + vm_compute. intros n [<-|[]]. right. left. reflexivity.
  - destruct (C5_references_checked_at_build
                (join_lines ["[a]"; "1: <b>"; ""]%string))
      as (_ & Hfails & _).
    apply Hfails.
    + exists (chars "b"). vm_compute.
      split; [left; reflexivity|intros [H|[]]; discriminate H].
    + intros g. vm_compute. discriminate.
Defined.

(** C6, as amended.  For a pool whose weights are not negative, [len]
    is the sum of the weights, and the number of slots that belong to
    the entry at position [j] of the expanded pool is its weight.
    [list] expands the pool whenever the weights add up to no more
    than [capacity]; and whenever [list] expands it, the built-in
    [len] returns the sum, the list has [len] slots and gives every
    entry, in insertion order, as many consecutive slots as its weight,
    and [RandomString.__str__] converts the value of the slot whose
    number is the random number reduced modulo [len]: an entry is
    drawn with [weight] of the [len] equally likely slots. *)
Theorem C6_weighted_draw (pool : RandomString)
  (Hw : Forall (fun i => (0 <= weight i)%Z) pool) :
  len pool = fold_right Z.add 0%Z (map weight pool)
  /\ (forall j item,
        nth_error pool j = Some item ->
        count_occ Nat.eq_dec (slot_owners pool) j = Z.to_nat (weight item))
  /\ ((len pool <= capacity)%Z -> list_of pool = Ok (iter pool))
  /\ (forall slots,
        list_of pool = Ok slots ->
        builtin_len (len pool) = Ok (len pool)
        /\ Z.of_nat (length slots) = len pool
        /\ (forall before item after,
              pool = before ++ item :: after ->
              slots
              = iter before ++ repeat item (Z.to_nat (weight item))
                ++ iter after)
        /\ (forall fuel x r g,
              (0 < len pool)%Z ->
              exists slot,
                nth_error slots (x mod Z.to_nat (len pool)) = Some slot
                /\ RandomString_str (S fuel) pool (mkWorld g (x :: r))
                   = str_item (RandomString_str fuel) (value slot)
                       (mkWorld g r))).
Proof.
  pose proof (iter_length pool Hw) as Hlen.
  pose proof (len_nonneg pool Hw) as Hpos.
  split; [apply len_sum|].
  split; [intros j item Hj; apply (owners_count pool 0 j item Hj)|].
  split; [apply list_of_nonneg; exact Hw|].
  intros slots Hlist. destruct (list_of_Ok pool slots Hlist) as [-> Hfit].
  pose proof capacity_maxsize as Hc.
  split; [apply builtin_len_fits; lia|]. split; [exact Hlen|].
  split; [intros before item after ->; rewrite iter_app; reflexivity|].
  intros fuel x r g Hsome.
  replace (Z.to_nat (len pool)) with (length (iter pool)) by lia.
  destruct (choice_slot (iter pool) x r) as (slot & Hnth & Hdraw).
  { intros E. rewrite E in Hlen. simpl in Hlen. lia. }
  exists slot. split; [exact Hnth|].
  rewrite (RandomString_str_fits fuel pool _ Hlist). cbn [rng grammar].
  rewrite Hdraw. reflexivity.
Qed.

Lemma C6_weighted_draw_witness :
  let pool := [mkItem (Text (chars "a")) 3%Z; mkItem (Text (chars "b")) 1%Z] in
  len pool = 4%Z
  /\ list_of pool
     = Ok [mkItem (Text (chars "a")) 3%Z; mkItem (Text (chars "a")) 3%Z;
           mkItem (Text (chars "a")) 3%Z; mkItem (Text (chars "b")) 1%Z]
  /\ RandomString_str 1 pool (mkWorld [] [7; 9])
     = (Ok (chars "b"), mkWorld [] [9])
  /\ count_occ Nat.eq_dec (slot_owners pool) 0 = 3
  /\ count_occ Nat.eq_dec (slot_owners pool) 1 = 1.
Proof.
  intros pool.
  assert (Hw : Forall (fun i => (0 <= weight i)%Z) pool)
    by (repeat constructor; simpl; lia).
  destruct (C6_weighted_draw pool Hw) as (H1 & H2 & H3 & H4).
  assert (Hlist : list_of pool = Ok (iter pool))
    by (apply H3; unfold capacity, len; simpl; lia).
  destruct (H4 (iter pool) Hlist) as (_ & _ & _ & H5).
  split; [rewrite H1; reflexivity|]. split; [exact Hlist|].
  split.
  - destruct (H5 0 7 [9] []) as (slot & Hnth & ->);
      [unfold len; simpl; lia|].
    vm_compute in Hnth. injection Hnth as <-. reflexivity.
  - split; [apply (H2 0 (mkItem (Text (chars "a")) 3%Z)); reflexivity
           |apply (H2 1 (mkItem (Text (chars "b")) 1%Z)); reflexivity].
Defined.

(** C6 as stated fails for a pool of great weight: with one entry of
    weight 2^63, the built-in [len] has no answer, [list] does not
    expand the pool, and the draw raises before the random source is
    asked. *)
Lemma C6_counterexample :
  let pool := [mkItem (Text (chars "a")) (2 ^ 63)%Z] in
  Forall (fun i => (1 <= weight i)%Z) pool
  /\ builtin_len (len pool) = Raise OverflowError
  /\ list_of pool = Raise OverflowError
  /\ RandomString_str 1 pool (mkWorld [] [0])
     = (Raise OverflowError, mkWorld [] [0]).
Proof.
  intros pool. split; [repeat constructor; vm_compute; discriminate|].
  repeat split; reflexivity.
Qed.

(** C7.  What [format] stores for a value text: the text itself when no
    marker occurs in it; the reference when the text is one marker and
    nothing else; otherwise, whenever a value is stored at all, a
    format template whose references are the distinct names that occur,
    each once, in the order in which they first occur, and whose format
    string is the text with the markers of the name at position [i]
    replaced by the field [i].  For a text without braces the template
    is always stored, and it renders as the text with the strings of
    the references put in the places of the markers. *)
Theorem C7_template_value_forms (refs : ReferenceCollection) (raw : str) :
  ((forall name, valid_name name -> ~ occurs name raw) ->
   format refs raw = (Ok (Text raw), refs))
  /\ (forall name,
        valid_name name -> raw = marker name ->
        format refs raw
        = (Ok (Reference name), ReferenceCollection_getitem refs name))
  /\ ((exists name, valid_name name /\ occurs name raw) ->
      (forall name, valid_name name -> raw <> marker name) ->
      let subs := unique (findall raw) in
      let fs := replace_markers 0 subs raw in
      NoDup subs
      /\ (forall name, In name subs <-> valid_name name /\ occurs name raw)
      /\ (forall text, fst (format refs raw) = Ok text ->
                       text = ReferenceFormat fs subs)
      /\ (brace_free raw ->
          fst (format refs raw) = Ok (ReferenceFormat fs subs)
          /\ forall fuel w,
               ReferenceFormat_str (RandomString_str fuel) fs subs w
               = substitute (Reference_str (RandomString_str fuel)) raw w)).
Proof.
  split; [|split].
  - intros Hnone.
    destruct (format_cases refs raw)
      as [[_ E]|[(name & Hv & -> & F & _)|(F & _ & _)]]; [exact E| |].
    + elim (Hnone name Hv). exists [], []. rewrite app_nil_r. reflexivity.
    + destruct (findall raw) as [|name others] eqn:Fa; [congruence|].
      assert (Hin : In name (findall raw)) by (rewrite Fa; left; reflexivity).
      apply findall_occurs in Hin as [Hv Ho]. elim (Hnone name Hv Ho).
  - intros name Hv ->.
    destruct (format_cases refs (marker name))
      as [[F _]|[(name' & Hv' & Hm & F & E)|(_ & Hnot & _)]].
    + rewrite findall_marker in F by exact Hv. discriminate.
    + rewrite findall_marker in F by exact Hv. injection F as <-. exact E.
    + elim (Hnot name Hv). reflexivity.
  - intros (name & Hv & Ho) Hmixed subs fs.
    assert (Hfound : In name (findall raw)) by (apply findall_occurs; auto).
    destruct (format_cases refs raw)
      as [[F _]|[(name' & Hv' & Hm & _)|(_ & _ & E)]].
    + rewrite F in Hfound. contradiction.
    + elim (Hmixed name' Hv' Hm).
    + split; [apply unique_NoDup|].
      split; [intros n; unfold subs; rewrite unique_In; apply findall_occurs|].
      split.
      * intros text Htext. rewrite E in Htext. simpl in Htext.
        apply ReferenceFormat_init_Ok in Htext. exact Htext.
      * intros Hraw.
        assert (Hok : fst (format refs raw) = Ok (ReferenceFormat fs subs)).
        { rewrite E. simpl. apply ReferenceFormat_init_brace_free. exact Hraw. }
        split; [exact Hok|]. intros fuel w.
        destruct (format refs raw) as [text refs'] eqn:Ef. simpl in Hok.
        subst text.
        exact (str_item_substitute fuel refs raw _ refs' w Hraw Ef).
Qed.

Lemma C7_template_value_forms_witness :
  format [] (chars "hello, world") = (Ok (Text (chars "hello, world")), [])
  /\ format [] (chars "<foo>") = (Ok (Reference (chars "foo")), [chars "foo"])
  /\ fst (format [] (chars "<a>, <b> and <a>"))
     = Ok (ReferenceFormat (chars "{0!s}, {1!s} and {0!s}")
             [chars "a"; chars "b"]).
Proof.
  split; [|split].
  - destruct (C7_template_value_forms [] (chars "hello, world"))
      as (Hplain & _ & _).
    apply Hplain. intros name Hv Ho.
    assert (H : In name (findall (chars "hello, world")))
      by (apply findall_occurs; auto).
    vm_compute in H. exact H.
  - destruct (C7_template_value_forms [] (chars "<foo>"))
      as (_ & Hsingle & _).
    apply (Hsingle (chars "foo")).
    + split; [discriminate|reflexivity].
    + reflexivity.
  - destruct (C7_template_value_forms [] (chars "<a>, <b> and <a>"))
      as (_ & _ & Hmixed).
    apply Hmixed.
    + exists (chars "a"). split; [split; [discriminate|reflexivity]|].
      exists [], (chars ", <b> and <a>"). reflexivity.
    + intros name Hv E. pose proof (findall_marker name Hv) as F.
      rewrite <- E in F. vm_compute in F. discriminate F.
    + reflexivity.
Defined.

(** C8, as amended.  On a grammar built from a text, any number of
    calls for names that are keys of the grammar leave the grammar as it
    was. *)
Theorem C8_render_keeps_grammar (text : str) (cfg : Config) (fuel : nat)
  (sources : list str) (r : Rand)
  (Hbuilt : from_string text = Ok cfg)
  (Hkeys : Forall (fun source => Config_contains cfg source = true) sources) :
  grammar (snd (Why_calls fuel cfg sources r)) = cfg.
Proof.
  apply Why_calls_keep; [|exact Hkeys].
  apply (from_string_values text cfg Hbuilt).
Qed.

Lemma C8_render_keeps_grammar_witness :
  let cfg := [(chars "a", [mkItem (Reference (chars "b")) 1%Z]);
              (chars "b", [mkItem (Text (chars "x")) 2%Z])] in
  grammar (snd (Why_calls 3 cfg [chars "a"; chars "b"; chars "a"] [0; 1]))
  = cfg.
Proof.
  intros cfg.
  apply (C8_render_keeps_grammar
           (join_lines ["[a]"; "1: <b>"; ""; "[b]"; "2: x"; ""]%string)
           cfg 3 [chars "a"; chars "b"; chars "a"] [0; 1]).
  - reflexivity.
  - repeat constructor.
Defined.

(** C8 as stated fails: a call for a name that is not a key adds an
    empty collection under that name to the grammar. *)
Lemma C8_counterexample :
  let cfg := [(chars "a", [mkItem (Text (chars "x")) 1%Z])] in
  from_string (join_lines ["[a]"; "1: x"; ""]%string) = Ok cfg
  /\ grammar (snd (Why_call 1 cfg (chars "b") []))
     = [(chars "a", [mkItem (Text (chars "x")) 1%Z]); (chars "b", [])]
  /\ grammar (snd (Why_call 1 cfg (chars "b") [])) <> cfg.
Proof. repeat split. discriminate. Qed.

(** C9, as amended.  For a weighted entry among the lines of a text,
    the value text is what follows the first colon of the line, tabs
    first expanded to spaces, less all the white space (spaces, tabs,
    carriage returns) that comes right after the colon: it is not
    empty, it starts with a character that is not white, and it runs
    unchanged to the end of the line. *)
Theorem C9_value_text (text line : str) (r : ParseResults) (raw : str)
  (Hline : In line (Py.split_newline text))
  (Hparsed : parseString line = Ok r)
  (Hvalue : VALUE r = Some raw) :
  exists before gap,
    Py.expandtabs line = before ++ ":"%char :: gap ++ raw
    /\ ~ In ":"%char before
    /\ forallb white gap = true
    /\ raw <> []
    /\ forall c rest, raw = c :: rest -> white c = false.
Proof.
  apply parseString_Ok in Hparsed as [rest H].
  apply CONFIG_LINE_spec in H as [H|[H|H]].
  - apply COMMENT_LINE_spec in H as [t ->]. discriminate.
  - apply SECTION_LINE_spec in H as (name & -> & _). discriminate.
  - apply VALUE_LINE_spec in H
      as (lead & digits & gap1 & gap2 & raw' & E & Hlead & Hgap1 & Hgap2
          & _ & Hdigits & Hraw & _ & Hhd & Hrest & ->).
    simpl in Hvalue. injection Hvalue as ->.
    assert (Hend : rest = []).
    { destruct rest as [|c rest]; [reflexivity|]. subst c.
      elim (expandtabs_from_lines line 0 (split_newline_lines _ _ Hline)).
      fold (Py.expandtabs line). rewrite E.
      repeat (rewrite in_app_iff; right). right.
      repeat (rewrite in_app_iff; right). left. reflexivity. }
    subst rest. rewrite app_nil_r in E.
    exists (lead ++ digits ++ gap1), gap2. repeat split.
    + rewrite E, <- !app_assoc. reflexivity.
    + rewrite !in_app_iff.
      intros [H|[H|H]];
        [exact (white_not_colon _ Hlead H)
        |exact (digits_not_colon _ Hdigits H)
        |exact (white_not_colon _ Hgap1 H)].
    + exact Hgap2.
    + exact Hraw.
    + intros c tail ->. exact Hhd.
Qed.

Lemma C9_value_text_witness :
  exists before gap,
    Py.expandtabs (chars "1:  foo") = before ++ ":"%char :: gap ++ chars "foo"
    /\ ~ In ":"%char before
    /\ forallb white gap = true
    /\ chars "foo" <> []
    /\ forall c rest, chars "foo" = c :: rest -> white c = false.
Proof.
  apply (C9_value_text (join_lines ["[a]"; "1:  foo"]%string)
           (chars "1:  foo")
           (mkResults None None (Some 1%Z) (Some (chars "foo")))
           (chars "foo")).
  - right. left. reflexivity.
  - reflexivity.
  - reflexivity.
Defined.

(** C9 as stated fails: after the colon of [1:  foo] come two spaces,
    and both are dropped, not one. *)
Lemma C9_counterexample :
  parseString (chars "1:  foo")
  = Ok (mkResults None None (Some 1%Z) (Some (chars "foo")))
  /\ value_text_as_specified (chars "1:  foo") = Some (chars " foo")
  /\ chars "foo" <> chars " foo".
Proof. repeat split. discriminate. Qed.

(** C10.  When the string rendered for the entry point is empty, the
    call fails with the [IndexError] of indexing its first character;
    nothing is returned. *)
Theorem C10_empty_reason_fails (fuel : nat) (data : Config) (source : str)
  (r : Rand) (w : World)
  (Hvalid : validated data)
  (Hempty : Why_reason fuel data source r = (Ok [], w)) :
  Why_call fuel data source r
  = (Raise (IndexError (chars "string index out of range")), w).
Proof. unfold Why_call. rewrite Hempty. reflexivity. Qed.

Lemma C10_empty_reason_fails_witness :
  Why_call 1 [(DEFAULT_SOURCE, [mkItem (Text []) 1%Z])] DEFAULT_SOURCE []
  = (Raise (IndexError (chars "string index out of range")),
     mkWorld [(DEFAULT_SOURCE, [mkItem (Text []) 1%Z])] []).
Proof.
  apply (C10_empty_reason_fails 1
           [(DEFAULT_SOURCE, [mkItem (Text []) 1%Z])] DEFAULT_SOURCE []).
  - split.
    + intros name section H. simpl in H.
      destruct (Py.str_eqb DEFAULT_SOURCE name); [|discriminate].
      injection H as <-. vm_compute. discriminate.
    + intros name section item key H Hitem Hkey. simpl in H.
      destruct (Py.str_eqb DEFAULT_SOURCE name); [|discriminate].
      injection H as <-. destruct Hitem as [<-|[]]. destruct Hkey.
  - reflexivity.
Defined.

(** * Further properties of the code *)

(** X1.  [unique] gives every element of the sequence once; it leaves a
    sequence without repetitions as it is, so doing it twice changes
    nothing; and it keeps the elements in the order of their first
    occurrence: the first element comes first, followed by the distinct
    elements of the rest that differ from it. *)
Theorem X1_unique (seq : list str) :
  NoDup (unique seq)
  /\ (forall x, In x (unique seq) <-> In x seq)
  /\ (NoDup seq -> unique seq = seq)
  /\ unique (unique seq) = unique seq
  /\ (forall x, unique (x :: seq)
                = x :: filter (fun y => negb (mem y [x])) (unique seq)).
Proof.
  split; [apply unique_NoDup|].
  split; [intros x; apply unique_In|].
  split; [intros H; apply unique_from_fixed; auto|].
  split; [apply unique_from_absorb; auto|].
  intros x. unfold unique. simpl. f_equal.
  apply (unique_from_filter seq [x] []).
Qed.

Lemma X1_unique_witness :
  unique [chars "foo"; chars "bar"; chars "baz"]
  = [chars "foo"; chars "bar"; chars "baz"].
Proof.
  destruct (X1_unique [chars "foo"; chars "bar"; chars "baz"])
    as (_ & _ & Hfixed & _).
  apply Hfixed.
  repeat constructor; simpl; intros H;
    repeat (destruct H as [H|H]; [discriminate H|]); exact H.
Defined.

(** X2.  When the loop of [from_string] has accepted every line of a
    text, the keys of the registry of references are the names that
    the entries of the text refer to: every such name is a key, nothing
    else is, and no name is kept twice. *)
Theorem X2_registry_is_unique_references (text : str) (st : Loop)
  (Hloop : run_loop initial_loop (parse_config text) = Ok st) :
  (forall name,
     In name (references st) <-> In name (referenced_names text))
  /\ NoDup (references st)
  /\ length (references st) = length (unique (referenced_names text)).
Proof.
  assert (E : references st = unique (referenced_names text)).
  { apply run_loop_steps in Hloop as [Hsteps _].
    unfold referenced_names. rewrite <- (flat_map_map _ parsed_of).
    apply (steps_invariant (fun _ => True)
             (fun d s => references s = unique (flat_map references_of d))
             (fun d s p s' _ => step_registry_exact d s p s')
             (map parsed_of (parse_config text)) [] initial_loop st);
      [apply Forall_forall; auto|reflexivity|exact Hsteps]. }
  rewrite E. split; [intros name; apply unique_In|].
  split; [apply unique_NoDup|reflexivity].
Qed.

Lemma X2_registry_is_unique_references_witness :
  In (chars "c")
    (references
       (mkLoop
          [(chars "t",
            [mkItem (ReferenceFormat (chars "{0!s} and {1!s}")
                       [chars "b"; chars "a"]) 1%Z;
             mkItem (Reference (chars "a")) 2%Z;
             mkItem (ReferenceFormat (chars "{0!s}, {1!s}")
                       [chars "b"; chars "c"]) 1%Z])]
          [chars "b"; chars "a"; chars "c"]
          (Some (chars "t"))))
  /\ length (unique (referenced_names
                       (join_lines ["[t]"; "1: <b> and <a>"; "2: <a>";
                                    "1: <b>, <c>"]%string))) = 3.
Proof.
  destruct (X2_registry_is_unique_references
              (join_lines ["[t]"; "1: <b> and <a>"; "2: <a>";
                           "1: <b>, <c>"]%string)
              (mkLoop
                 [(chars "t",
                   [mkItem (ReferenceFormat (chars "{0!s} and {1!s}")
                              [chars "b"; chars "a"]) 1%Z;
                    mkItem (Reference (chars "a")) 2%Z;
                    mkItem (ReferenceFormat (chars "{0!s}, {1!s}")
                              [chars "b"; chars "c"]) 1%Z])]
                 [chars "b"; chars "a"; chars "c"]
                 (Some (chars "t")))
              eq_refl) as (Hin & _ & Hlen).
  split.
  - apply Hin. right. right. right. right. left. reflexivity.
  - rewrite <- Hlen. reflexivity.
Defined.





(** X5.  Looking a name up in the grammar always gives a collection.
    A name that is a key gives its collection and leaves the grammar as
    it is; a name that is not gives a new empty collection, put under
    that name after all the other keys, whose collections stay as they
    are.  A second lookup of the same name changes nothing more. *)
Theorem X5_lookup_creates_once (cfg : Config) (key : str) :
  exists section,
    Config_getitem cfg key = (Ok section, snd (Config_getitem cfg key))
    /\ Config_get (snd (Config_getitem cfg key)) key = Some section
    /\ (Config_contains cfg key = true ->
        Config_get cfg key = Some section
        /\ snd (Config_getitem cfg key) = cfg)
    /\ (Config_contains cfg key = false ->
        section = [] /\ snd (Config_getitem cfg key) = cfg ++ [(key, [])])
    /\ (forall other, other <> key ->
          Config_get (snd (Config_getitem cfg key)) other
          = Config_get cfg other)
    /\ Config_getitem (snd (Config_getitem cfg key)) key
       = (Ok section, snd (Config_getitem cfg key)).
Proof.
  destruct (Config_contains cfg key) eqn:C.
  - destruct (Config_getitem_present cfg key C) as (section & Hget & E).
    exists section. rewrite E. simpl. repeat split; auto; discriminate.
  - rewrite (Config_getitem_absent cfg key C). simpl. exists [].
    pose proof (Config_get_setitem_same cfg key []) as G.
    rewrite (Config_setitem_new cfg key [] C) in G.
    repeat split; auto; try discriminate.
    + intros other Hne.
      pose proof (Config_get_setitem_other cfg key [] other Hne) as O.
      rewrite (Config_setitem_new cfg key [] C) in O. exact O.
    + apply Config_getitem_found. exact G.
Qed.

Lemma X5_lookup_creates_once_witness :
  snd (Config_getitem [(chars "a", [mkItem (Text (chars "x")) 1%Z])]
         (chars "b"))
  = [(chars "a", [mkItem (Text (chars "x")) 1%Z]); (chars "b", [])].
Proof.
  destruct (X5_lookup_creates_once
              [(chars "a", [mkItem (Text (chars "x")) 1%Z])] (chars "b"))
    as (section & _ & _ & _ & Hnew & _).
  apply Hnew. reflexivity.
Defined.

(** X6.  The loop of [from_string] only ever appends.  When it accepts
    a run of lines, it has accepted every beginning of that run, and
    what the remaining lines do to the grammar reached so far is to add
    entries at the end of its collections, also of a collection whose
    header comes again, and new collections after the ones it has:
    no entry is dropped, changed or moved. *)
Theorem X6_loop_appends (st st2 : Loop)
  (l1 l2 : list (nat * str * result (option ParseResults)))
  (Hloop : run_loop st (l1 ++ l2) = Ok st2) :
  exists st1,
    run_loop st l1 = Ok st1
    /\ run_loop st1 l2 = Ok st2
    /\ extends (config st1) (config st2).
Proof.
  rewrite run_loop_app in Hloop.
  destruct (run_loop st l1) as [st1| |] eqn:H1; simpl in Hloop;
    try discriminate.
  exists st1. split; [reflexivity|]. split; [exact Hloop|].
  apply run_loop_steps in Hloop as [Hsteps _].
  eapply steps_extends. exact Hsteps.
Qed.

Lemma X6_loop_appends_witness :
  exists st1,
    run_loop initial_loop
      (parse_config (join_lines ["[a]"; "1: x"; ""; "[b]"; "1: y"]%string))
    = Ok st1
    /\ run_loop st1
         (parse_config_from 6 [chars "[a]"; chars "2: z"])
       = Ok (mkLoop [(chars "a", [mkItem (Text (chars "x")) 1%Z;
                                  mkItem (Text (chars "z")) 2%Z]);
                     (chars "b", [mkItem (Text (chars "y")) 1%Z])]
               [] (Some (chars "a")))
    /\ extends (config st1)
         [(chars "a", [mkItem (Text (chars "x")) 1%Z;
                       mkItem (Text (chars "z")) 2%Z]);
          (chars "b", [mkItem (Text (chars "y")) 1%Z])].
Proof.
  apply (X6_loop_appends initial_loop
           (mkLoop [(chars "a", [mkItem (Text (chars "x")) 1%Z;
                                 mkItem (Text (chars "z")) 2%Z]);
                    (chars "b", [mkItem (Text (chars "y")) 1%Z])]
              [] (Some (chars "a")))
           (parse_config (join_lines ["[a]"; "1: x"; ""; "[b]"; "1: y"]
                                     %string))
           (parse_config_from 6 [chars "[a]"; chars "2: z"])).
  reflexivity.
Defined.

(** X7.  A [ConfigException] of [from_string] points at the line that
    made the build stop: its number counts the lines from 1, its line is
    that line of the text as it was written, and the loop had accepted
    all the lines before it. *)
Theorem X7_error_points_at_line (text : str) (lineno : nat) (line : str)
  (cause : exn)
  (Hfails : from_string text = Raise (ConfigException lineno line cause)) :
  1 <= lineno
  /\ nth_error (Py.split_newline text) (lineno - 1) = Some line
  /\ exists st,
       run_loop initial_loop
         (parse_config_from 1 (firstn (lineno - 1) (Py.split_newline text)))
       = Ok st.
Proof.
  apply from_string_Raise in Hfails as [(st & m & _ & E & _)|Hloop];
    [discriminate|].
  apply run_loop_stops in Hloop as (i & l & c & E & Hn & _ & Hst).
  injection E as -> -> ->.
  replace (1 + i - 1) with i by lia.
  replace (S i - 1) with i by lia.
  split; [lia|]. split; [exact Hn|exact Hst].
Qed.

Lemma X7_error_points_at_line_witness :
  nth_error
    (Py.split_newline
       (join_lines ["[a]"; "1: x"; "# note"; "what?"; "2: y"]%string))
    (4 - 1)
  = Some (chars "what?").
Proof.
  apply (X7_error_points_at_line
           (join_lines ["[a]"; "1: x"; "# note"; "what?"; "2: y"]%string)
           4 (chars "what?") ParseException).
  reflexivity.
Defined.

(** X8.  For a text whose values have no braces, the build gives a
    grammar or fails in one of two ways.  Either every line was
    accepted and some name in the registry is not a key of the grammar:
    a bare [ValueError] about a reference to a missing collection.  Or
    a [ConfigException] wraps what went wrong on a line: the line does
    not parse, a collection is closed empty, an entry stands outside
    any section, or the weights of a collection that is closed add up
    to more than the built-in [len] can return.  Nothing else is
    raised: no [ValueError] for an invalid line, no [KeyError]. *)
Theorem X8_build_failures (text : str) (Hplain : plain_values text) :
  match from_string text with
  | Ok _ => True
  | Raise e =>
      (exists st missing,
         run_loop initial_loop (parse_config text) = Ok st
         /\ e = ValueError (quoted "Reference to missing collection " missing)
         /\ In missing (referenced_names text)
         /\ Config_contains (config st) missing = false)
      \/ (exists lineno line cause,
             e = ConfigException lineno line cause /\ build_cause cause)
  | Stuck _ => False
  end.
Proof.
  pose proof (run_loop_plain (Py.split_newline text) 1 initial_loop
                values_ok_initial Hplain) as Hloop.
  fold (parse_config text) in Hloop.
  destruct (from_string text) as [cfg|e|g] eqn:F; [exact I| |].
  - apply from_string_Raise in F as [(st & m & L & E & Hm & Hc)|L].
    + left. exists st, m. repeat split; auto.
      destruct (loop_facts _ _ L) as (_ & Hreg & _). apply Hreg. exact Hm.
    + right. rewrite L in Hloop. exact Hloop.
  - unfold from_string in F.
    destruct (run_loop initial_loop (parse_config text)) as [st|e|g'];
      cbn [bind] in F; [|discriminate F|exact Hloop].
    destruct (check_references (config st) (references st)) as [u|e|g']
      eqn:C; cbn [bind] in F; try discriminate F.
    exact (check_references_Stuck _ _ _ C).
Qed.

Lemma X8_build_failures_witness :
  match from_string (join_lines ["[a]"; "1: <b> x"; ""; "2: y"]%string) with
  | Ok _ => True
  | Raise e =>
      (exists st missing,
         run_loop initial_loop
           (parse_config (join_lines ["[a]"; "1: <b> x"; ""; "2: y"]%string))
         = Ok st
         /\ e = ValueError (quoted "Reference to missing collection " missing)
         /\ In missing
              (referenced_names
                 (join_lines ["[a]"; "1: <b> x"; ""; "2: y"]%string))
         /\ Config_contains (config st) missing = false)
      \/ (exists lineno line cause,
             e = ConfigException lineno line cause /\ build_cause cause)
  | Stuck _ => False
  end.
Proof.
  apply (X8_build_failures
           (join_lines ["[a]"; "1: <b> x"; ""; "2: y"]%string)).
  plain_values_by_cases.
Defined.

(** X9.  What the first character of a line that is not white decides.
    A line that starts with [#] is a comment, whatever follows.  A line
    that starts with anything but [#], an opening bracket or a digit is
    not accepted: [parseString] raises [ParseException] for it. *)
Theorem X9_first_character_decides (line : str) (c : ascii) (rest : str)
  (Hline : ~ In Py.newline line)
  (Hfirst : preParse (Py.expandtabs line) = c :: rest) :
  (c = "#"%char ->
   parseString line = Ok (mkResults (Some (preParse rest)) None None None))
  /\ (c <> "#"%char -> c <> "["%char -> Py.isdigit c = false ->
      parseString line = Raise ParseException).
Proof.
  split.
  - intros ->. exact (comment_parses _ _ Hline Hfirst).
  - intros H1 H2 H3. unfold parseString, CONFIG_LINE, Or.
    assert (C : COMMENT_LINE (Py.expandtabs line) = None).
    { unfold COMMENT_LINE.
      rewrite (Suppress_other _ _ _ _ Hfirst); [reflexivity|exact H1]. }
    assert (S : SECTION_LINE (Py.expandtabs line) = None).
    { unfold SECTION_LINE.
      rewrite (Suppress_other _ _ _ _ Hfirst); [reflexivity|exact H2]. }
    assert (V : VALUE_LINE (Py.expandtabs line) = None).
    { unfold VALUE_LINE.
      rewrite (run_of_other _ _ _ _ Hfirst); [reflexivity|exact H3]. }
    rewrite C, S, V. reflexivity.
Qed.

Lemma X9_first_character_decides_witness :
  parseString (chars "  #  [a] 1: x")
  = Ok (mkResults (Some (chars "[a] 1: x")) None None None)
  /\ parseString (chars "what?") = Raise ParseException.
Proof.
  split.
  - apply (X9_first_character_decides (chars "  #  [a] 1: x") "#"%char
             (chars "  [a] 1: x")).
    + simpl. intros H. repeat (destruct H as [H|H]; [discriminate H|]).
      exact H.
    + reflexivity.
    + reflexivity.
  - apply (X9_first_character_decides (chars "what?") "w"%char
             (chars "hat?")).
    + simpl. intros H. repeat (destruct H as [H|H]; [discriminate H|]).
      exact H.
    + reflexivity.
    + discriminate.
    + discriminate.
    + reflexivity.
Defined.

(** X10.  A section header is an opening bracket, a name and a closing
    bracket; white space may come before each of the three, and
    whatever follows the closing bracket is ignored. *)
Theorem X10_header_anatomy (line lead gap1 name gap2 junk : str)
  (Hlead : forallb white lead = true)
  (Hgap1 : forallb white gap1 = true)
  (Hgap2 : forallb white gap2 = true)
  (Hname : valid_name name)
  (Htext : Py.expandtabs line
           = lead ++ "["%char :: gap1 ++ name ++ gap2 ++ "]"%char :: junk) :
  parseString line = Ok (mkResults None (Some name) None None).
Proof.
  destruct Hname as [Hne Hall].
  assert (Hfirst : preParse (Py.expandtabs line)
                   = "["%char :: gap1 ++ name ++ gap2 ++ "]"%char :: junk)
    by (rewrite Htext; apply preParse_app; [exact Hlead|reflexivity]).
  assert (S : SECTION_LINE (Py.expandtabs line)
              = Some (mkResults None (Some name) None None, junk)).
  { unfold SECTION_LINE. rewrite (Suppress_head _ _ _ Hfirst).
    rewrite (run_of_token name_char gap1 name (gap2 ++ "]"%char :: junk)
               Hgap1 Hall (head_not_white _ _ name_not_white Hne Hall)).
    - rewrite Suppress_after by (auto; reflexivity). reflexivity.
    - destruct gap2 as [|c gap2]; [reflexivity|]. simpl in *.
      apply andb_prop in Hgap2 as [Hc _]. apply white_not_name. exact Hc. }
  assert (C : COMMENT_LINE (Py.expandtabs line) = None).
  { unfold COMMENT_LINE.
    rewrite (Suppress_other _ _ _ _ Hfirst); [reflexivity|discriminate]. }
  assert (V : VALUE_LINE (Py.expandtabs line) = None).
  { unfold VALUE_LINE. rewrite (run_of_other _ _ _ _ Hfirst); reflexivity. }
  unfold parseString, CONFIG_LINE, Or. rewrite C, S, V. reflexivity.
Qed.

Lemma X10_header_anatomy_witness :
  parseString (chars " [ greeting ] and more")
  = Ok (mkResults None (Some (chars "greeting")) None None).
Proof.
  apply (X10_header_anatomy (chars " [ greeting ] and more")
           (chars " ") (chars " ") (chars "greeting") (chars " ")
           (chars " and more")).
  - reflexivity.
  - reflexivity.
  - reflexivity.
  - split; [discriminate|reflexivity].
  - reflexivity.
Defined.

(** X11.  A weighted entry is a run of digits, a colon and a value;
    white space may come before each of the three.  Its weight is the
    decimal number that the digits spell, leading zeros allowed, and
    its value runs from the first character after the colon that is not
    white to the end of the line. *)
Theorem X11_entry_anatomy (line lead digits gap1 gap2 raw : str)
  (Hline : ~ In Py.newline line)
  (Hlead : forallb white lead = true)
  (Hgap1 : forallb white gap1 = true)
  (Hgap2 : forallb white gap2 = true)
  (Hdigits : digits <> [] /\ forallb Py.isdigit digits = true)
  (Hraw : exists c rest, raw = c :: rest /\ white c = false)
  (Htext : Py.expandtabs line
           = lead ++ digits ++ gap1 ++ ":"%char :: gap2 ++ raw) :
  parseString line
  = Ok (mkResults None None (Some (Py.int digits)) (Some raw))
  /\ (0 <= Py.int digits)%Z
  /\ Py.int ("0"%char :: digits) = Py.int digits.
Proof.
  destruct Hdigits as [Hne Hall]. destruct Hraw as (c & rest & -> & Hc).
  split; [|split; [apply int_nonneg|reflexivity]].
  assert (Hno : ~ In Py.newline (c :: rest)).
  { intros H. apply (expandtabs_from_lines line 0 Hline).
    fold (Py.expandtabs line). rewrite Htext.
    repeat (apply in_app_iff; right). right.
    apply in_app_iff. right. exact H. }
  destruct digits as [|d digits]; [congruence|].
  assert (Hd : Py.isdigit d = true) by (simpl in Hall; apply andb_prop in Hall; tauto).
  assert (Hfirst : preParse (Py.expandtabs line)
                   = d :: digits ++ gap1 ++ ":"%char :: gap2 ++ c :: rest).
  { rewrite Htext. apply preParse_app; [exact Hlead|].
    simpl. apply digit_not_white. exact Hd. }
  assert (V : VALUE_LINE (Py.expandtabs line)
              = Some (mkResults None None (Some (Py.int (d :: digits)))
                        (Some (c :: rest)), [])).
  { unfold VALUE_LINE. rewrite Htext.
    rewrite (run_of_token Py.isdigit lead (d :: digits)
               (gap1 ++ ":"%char :: gap2 ++ c :: rest)
               Hlead Hall (digit_not_white _ Hd)).
    - rewrite Suppress_after by (auto; reflexivity).
      unfold Regex_dot_plus.
      rewrite <- (app_nil_r (c :: rest)) at 1.
      rewrite (run_of_token not_newline gap2 (c :: rest) []
                 Hgap2 (not_newline_all _ Hno) Hc I).
      reflexivity.
    - destruct gap1 as [|g gap1]; [reflexivity|]. simpl in *.
      apply andb_prop in Hgap1 as [Hg _]. apply white_not_digit. exact Hg. }
  assert (C : COMMENT_LINE (Py.expandtabs line) = None).
  { unfold COMMENT_LINE.
    rewrite (Suppress_other _ _ _ _ Hfirst); [reflexivity|].
    intros ->. discriminate. }
  assert (S : SECTION_LINE (Py.expandtabs line) = None).
  { unfold SECTION_LINE.
    rewrite (Suppress_other _ _ _ _ Hfirst); [reflexivity|].
    intros ->. discriminate. }
  unfold parseString, CONFIG_LINE, Or. rewrite C, S, V. reflexivity.
Qed.

Lemma X11_entry_anatomy_witness :
  parseString (chars "  007 :   a  b ")
  = Ok (mkResults None None (Some 7%Z) (Some (chars "a  b "))).
Proof.
  destruct (X11_entry_anatomy (chars "  007 :   a  b ")
              (chars "  ") (chars "007") (chars " ") (chars "   ")
              (chars "a  b ")) as (H & _ & _).
  - simpl. intros H. repeat (destruct H as [H|H]; [discriminate H|]).
    exact H.
  - reflexivity.
  - reflexivity.
  - reflexivity.
  - split; [discriminate|reflexivity].
  - exists "a"%char, (chars "  b "). split; reflexivity.
  - reflexivity.
  - exact H.
Defined.

(** X12.  Comment lines are skipped.  Putting a comment line anywhere
    into a text changes nothing of what [from_string] builds; when the
    text is refused, it is refused for the same line and the same
    cause, and only the line number reported moves with the line. *)
Theorem X12_comment_lines_are_skipped (text text' : str)
  (pre post : list str) (c rest : str)
  (Htext : Py.split_newline text = pre ++ post)
  (Htext' : Py.split_newline text' = pre ++ c :: post)
  (Hcomment : preParse (Py.expandtabs c) = "#"%char :: rest) :
  from_string text' = renumber (S (length pre)) (from_string text).
Proof.
  assert (Hline : ~ In Py.newline c).
  { apply (split_newline_lines text'). rewrite Htext'.
    apply in_app_iff. right. left. reflexivity. }
  unfold from_string, parse_config. rewrite Htext, Htext'.
  rewrite (run_loop_comment pre c rest post Hline Hcomment 1 initial_loop).
  change (1 + length pre) with (S (length pre)).
  destruct (run_loop initial_loop (parse_config_from 1 (pre ++ post)))
    as [st|e|g]; cbn [bind renumber].
  - destruct (check_references (config st) (references st)) as [u|e|g] eqn:K;
      cbn [bind renumber]; try reflexivity.
    destruct (check_references_ValueError _ _ _ K) as (missing & ->).
    reflexivity.
  - destruct e; reflexivity.
  - reflexivity.
Qed.

Lemma X12_comment_lines_are_skipped_witness :
  from_string (join_lines ["[a]"; "# why"; "oops"]%string)
  = renumber 2 (from_string (join_lines ["[a]"; "oops"]%string)).
Proof.
  apply (X12_comment_lines_are_skipped
           (join_lines ["[a]"; "oops"]%string)
           (join_lines ["[a]"; "# why"; "oops"]%string)
           [chars "[a]"] [chars "oops"] (chars "# why") (chars " why"));
    reflexivity.
Defined.

(** X13.  A grammar built from a text whose values have no braces
    renders without an error.  When every collection of it has a total
    weight from 1 to [capacity], a call for one of its keys either
    returns a reason that is not empty, so that taking its first
    character cannot fail, or never comes back from the nesting of
    references; the grammar is as it was afterwards. *)
Theorem X13_built_grammar_renders (text : str) (cfg : Config)
  (source : str) (fuel : nat) (r : Rand)
  (Hplain : plain_values text)
  (Hbuilt : from_string text = Ok cfg)
  (Hfull : forall name section,
             Config_get cfg name = Some section ->
             (1 <= len section <= capacity)%Z)
  (Hsource : Config_contains cfg source = true) :
  match Why_call fuel cfg source r with
  | (Ok reason, w) => reason <> [] /\ grammar w = cfg
  | (Stuck FuelExhausted, w) => grammar w = cfg
  | _ => False
  end.
Proof.
  pose proof (Why_call_fine cfg true (fun _ => 0)
                (from_string_sound _ _ Hbuilt)
                (proj1 (from_string_values _ _ Hbuilt))
                (proj2 (from_string_values _ _ Hbuilt)) Hfull
                (fun H => False_ind _ (diff_true_false H))
                fuel source r Hsource
                (fun H => False_ind _ (diff_true_false H))) as H.
  destruct (Why_call fuel cfg source r) as [[out| |[]] w]; simpl in H;
    try contradiction.
  - destruct H as [Hw Hout]. split; [apply Hout; reflexivity|exact Hw].
  - apply H.
Qed.

Lemma X13_built_grammar_renders_witness :
  let cfg :=
    [(chars "default",
      [mkItem (ReferenceFormat (chars "because {0!s} said so") [chars "who"])
         1%Z]);
     (chars "who", [mkItem (Text (chars "I")) 2%Z])] in
  match Why_call 3 cfg (chars "default") [0; 1] with
  | (Ok reason, w) => reason <> [] /\ grammar w = cfg
  | (Stuck FuelExhausted, w) => grammar w = cfg
  | _ => False
  end.
Proof.
  intros cfg.
  apply (X13_built_grammar_renders
           (join_lines ["[default]"; "1: because <who> said so";
                        "[who]"; "2: I"; ""]%string)
           cfg (chars "default") 3 [0; 1]).
  - plain_values_by_cases.
  - reflexivity.
  - intros name section G. apply Config_get_In in G.
    destruct G as [G|[G|[]]]; injection G as _ <-;
      unfold capacity, len; simpl; lia.
  - reflexivity.
Defined.

(** X14.  When the references of such a grammar form no cycle, a call
    returns: with every collection ranked above the collections it
    refers to, a nesting depth above the rank of the entry point is
    enough for a reason, which is not empty. *)
Theorem X14_acyclic_grammar_returns (text : str) (cfg : Config)
  (rank : str -> nat) (source : str) (fuel : nat) (r : Rand)
  (Hplain : plain_values text)
  (Hbuilt : from_string text = Ok cfg)
  (Hfull : forall name section,
             Config_get cfg name = Some section ->
             (1 <= len section <= capacity)%Z)
  (Hranked : ranked cfg rank)
  (Hsource : Config_contains cfg source = true)
  (Hfuel : rank source < fuel) :
  exists reason w,
    Why_call fuel cfg source r = (Ok reason, w)
    /\ reason <> [] /\ grammar w = cfg.
Proof.
  pose proof (Why_call_fine cfg false rank
                (from_string_sound _ _ Hbuilt)
                (proj1 (from_string_values _ _ Hbuilt))
                (proj2 (from_string_values _ _ Hbuilt)) Hfull
                (fun _ => Hranked)
                fuel source r Hsource (fun _ => Hfuel)) as H.
  destruct (Why_call fuel cfg source r) as [[out| |[]] w]; simpl in H;
    try contradiction.
  - destruct H as [Hw Hout]. exists out, w. auto.
  - destruct H as [H _]. discriminate H.
Qed.

Lemma X14_acyclic_grammar_returns_witness :
  let cfg :=
    [(chars "default",
      [mkItem (ReferenceFormat (chars "because {0!s} said so") [chars "who"])
         1%Z]);
     (chars "who", [mkItem (Text (chars "I")) 2%Z])] in
  exists reason w,
    Why_call 2 cfg (chars "default") [0; 1] = (Ok reason, w)
    /\ reason <> [] /\ grammar w = cfg.
Proof.
  intros cfg.
  apply (X14_acyclic_grammar_returns
           (join_lines ["[default]"; "1: because <who> said so";
                        "[who]"; "2: I"; ""]%string)
           cfg
           (fun name => if Py.str_eqb name (chars "default") then 1 else 0)
           (chars "default") 2 [0; 1]).
  - plain_values_by_cases.
  - reflexivity.
  - intros name section G. apply Config_get_In in G.
    destruct G as [G|[G|[]]]; injection G as _ <-;
      unfold capacity, len; simpl; lia.
  - intros name section item key G Hitem Hkey. apply Config_get_In in G.
    destruct G as [G|[G|[]]]; injection G as <- <-.
    + destruct Hitem as [<-|[]]. destruct Hkey as [<-|[]].
      vm_compute. lia.
    + destruct Hitem as [<-|[]]. destruct Hkey.
  - reflexivity.
  - vm_compute. lia.
Defined.

(** X15.  Nothing looks for cycles among the references.  When some
    collections lead only to one another, each entry of theirs that
    can be drawn being a reference to one of them, and [list] expands
    each of them, a call for any of them returns no reason, however
    deep the calls may nest: the nesting runs out, unless the way leads
    to a collection of the circle with nothing to draw. *)
Theorem X15_reference_cycle_never_returns (cfg : Config) (names : list str)
  (source : str) (fuel : nat) (r : Rand)
  (Hcircle : closed_circle cfg names)
  (Hlists : forall name section,
              In name names -> Config_get cfg name = Some section ->
              list_of section = Ok (iter section))
  (Hsource : In source names) :
  fst (Why_call fuel cfg source r) = Stuck FuelExhausted
  \/ fst (Why_call fuel cfg source r)
     = Raise (IndexError (chars "list index out of range")).
Proof.
  unfold Why_call, Why_reason.
  destruct (Hcircle source Hsource) as (section & Hget & _).
  rewrite (Config_getitem_found _ _ _ Hget).
  pose proof (RandomString_str_circle cfg names fuel Hcircle Hlists source
                section (mkWorld cfg r) Hsource Hget eq_refl) as H.
  destruct (RandomString_str fuel section (mkWorld cfg r)) as [out w].
  simpl in *. destruct H as [-> | ->]; [left|right]; reflexivity.
Qed.

Lemma X15_reference_cycle_never_returns_witness :
  let cfg :=
    [(chars "a", [mkItem (Reference (chars "b")) 1%Z]);
     (chars "b", [mkItem (Reference (chars "a")) 1%Z;
                  mkItem (Text (chars "never")) 0%Z])] in
  fst (Why_call 50 cfg (chars "a") [0; 1; 2]) = Stuck FuelExhausted
  \/ fst (Why_call 50 cfg (chars "a") [0; 1; 2])
     = Raise (IndexError (chars "list index out of range")).
Proof.
  intros cfg.
  apply (X15_reference_cycle_never_returns cfg [chars "a"; chars "b"]).
  - intros name [<-|[<-|[]]]; (eexists; split; [reflexivity|]).
    + intros item [<-|[]] _. exists (chars "b"). split; [reflexivity|].
      right. left. reflexivity.
    + intros item [<-|[<-|[]]] Hpos.
      * exists (chars "a"). split; [reflexivity|]. left. reflexivity.
      * simpl in Hpos. lia.
  - intros name section [<-|[<-|[]]] G; injection G as <-; reflexivity.
  - left. reflexivity.
Defined.

(** X16.  The text form of a collection that is not empty fails every
    other time.  [WeightedItem.__repr__] never returns: its format
    string has a closing brace with no opening one, so that [format]
    raises as soon as the class name has been written.  The failure
    leaves [WeightedCollection.__repr__] with [_run_repr] set, so that
    the next call answers that it is recursive and clears the mark.
    Only an empty collection has a text form. *)
Theorem X16_repr_fails_every_other_time (V : Type)
  (field_str : WeightedItem V -> str -> result str) (class_name : str)
  (pool : WeightedCollection V)
  (Hclass : forall item,
     exists name, field_str item (chars "0.__class__.__name__") = Ok name)
  (Hpool : pool <> []) :
  (forall item,
     WeightedItem_repr field_str item
     = Raise (ValueError (chars "Single '}' encountered in format string")))
  /\ WeightedCollection_repr field_str class_name pool false
     = (Raise (ValueError (chars "Single '}' encountered in format string")),
        true)
  /\ WeightedCollection_repr field_str class_name pool true
     = (Ok (chars "recursive..."), false)
  /\ WeightedCollection_repr field_str class_name [] false
     = (Ok (class_name ++ chars "()"), false).
Proof.
  assert (Hitem : forall item,
            WeightedItem_repr field_str item
            = Raise (ValueError
                       (chars "Single '}' encountered in format string"))).
  { intros item. destruct (Hclass item) as [name H].
    exact (WeightedItem_repr_raises field_str item name H). }
  split; [exact Hitem|]. split; [|split; reflexivity].
  unfold WeightedCollection_repr.
  destruct pool as [|item rest]; [congruence|].
  cbn [map join_results]. rewrite Hitem.
  destruct (map (WeightedItem_repr field_str) rest); reflexivity.
Qed.

Lemma X16_repr_fails_every_other_time_witness :
  let field_str := fun (_ : WeightedItem nat) (f : str) =>
    if Py.str_eqb f (chars "0.__class__.__name__")
    then Ok (chars "WeightedItem") else Stuck FormatFieldNotModelled in
  WeightedCollection_repr field_str (chars "RandomString")
    [mkItem 7 1%Z; mkItem 8 2%Z] false
  = (Raise (ValueError (chars "Single '}' encountered in format string")),
     true).
Proof.
  intros field_str.
  destruct (X16_repr_fails_every_other_time nat field_str
              (chars "RandomString") [mkItem 7 1%Z; mkItem 8 2%Z])
    as (_ & H & _).
  - intros item. exists (chars "WeightedItem"). reflexivity.
  - discriminate.
  - exact H.
Defined.

(** X17.  [find_config] returns the file of the first directory, in
    the order searched, that holds a file called exactly the name
    followed by [.cfg]: every directory before it could be listed and
    holds no such file.  The name has a character that is not a dot, so
    that an empty name or a name of dots is never found.  An empty
    list of paths counts as none given: the directories searched are
    then those of [get_config_paths], and the directory of the file is
    one that exists and may be read. *)
Theorem X17_find_config_first_match (sys : System) (name : str)
  (paths : option (list str)) (file : str)
  (Hfound : find_config sys name paths = Found file) :
  (exists before path after filenames,
     search_paths sys paths = before ++ path :: after
     /\ listdir sys path = Some filenames
     /\ In (name ++ chars ".cfg") filenames
     /\ file = Posixpath.join path (name ++ chars ".cfg")
     /\ (forall q, In q before ->
           exists fs, listdir sys q = Some fs
                      /\ ~ In (name ++ chars ".cfg") fs)
     /\ (paths = None \/ paths = Some [] ->
         path <> [] /\ isdir sys path = true /\ access_rx sys path = true))
  /\ exists c, In c name /\ c <> "."%char.
Proof.
  unfold find_config in Hfound.
  destruct (find_config_in_Found _ _ _ _ Hfound)
    as (Hsplit & before & path & after & fs & E & Hl & Hin & Hf & Hb).
  split; [|apply (splitext_base _ _ _ Hsplit); discriminate].
  exists before, path, after, fs.
  split; [exact E|]. split; [exact Hl|]. split; [exact Hin|].
  split; [exact Hf|]. split; [exact Hb|].
  intros Hnone. apply (get_config_paths_readable sys).
  replace (get_config_paths sys) with (search_paths sys paths)
    by (destruct Hnone as [-> | ->]; reflexivity).
  rewrite E. apply in_app_iff. right. left. reflexivity.
Qed.

Lemma X17_find_config_first_match_witness :
  let sys :=
    mkSystem (fun _ => None) (fun _ => true) (fun _ => true)
      (fun path =>
         if Py.str_eqb path (chars "/a")
         then Some [chars "x.cfg"; chars "why.txt"]
         else if Py.str_eqb path (chars "/b")
         then Some [chars "why.cfg"] else None)
      (chars "/home/me") (chars "/usr/share/whynot") (chars "/src/data") in
  find_config sys (chars "why") (Some [chars "/a"; chars "/b"; chars "/c"])
  = Found (chars "/b/why.cfg")
  /\ exists c, In c (chars "why") /\ c <> "."%char.
Proof.
  intros sys. split; [reflexivity|].
  destruct (X17_find_config_first_match sys (chars "why")
              (Some [chars "/a"; chars "/b"; chars "/c"])
              (chars "/b/why.cfg") eq_refl) as [_ H].
  exact H.
Defined.

(** X18.  A blank line ends the collection, so that a collection
    cannot go on after one.  A weighted entry that comes first in the
    text, or right after a blank line, is refused as an item outside a
    section, with the number of its line, whatever the lines before
    it declared. *)
Theorem X18_entry_needs_open_collection (text : str) (pre post : list str)
  (entry : str) (w : Z) (raw : str) (st : Loop)
  (Htext : Py.split_newline text = pre ++ entry :: post)
  (Hentry : parseString entry = Ok (mkResults None None (Some w) (Some raw)))
  (Hpre : run_loop initial_loop (parse_config_from 1 pre) = Ok st)
  (Hclosed : pre = []
             \/ exists before blank,
                  pre = before ++ [blank] /\ Py.strip blank = []) :
  from_string text
  = Raise (ConfigException (S (length pre)) entry
             (ValueError (chars "Item outside section"))).
Proof.
  assert (Hnone : current_section st = None).
  { destruct Hclosed as [->|(before & blank & -> & Hblank)].
    - simpl in Hpre. injection Hpre as <-. reflexivity.
    - exact (run_loop_blank_last _ _ _ _ _ Hblank Hpre). }
  unfold from_string, parse_config.
  rewrite Htext, parse_config_from_app, run_loop_app, Hpre. cbn [bind].
  rewrite parse_config_from_cons, run_loop_cons.
  destruct (Py.strip entry) eqn:E;
    [exfalso; exact (entry_not_blank _ _ _ Hentry E)|].
  rewrite Hentry. cbn [bind]. unfold loop_body.
  cbn [COMMENT SECTION VALUE WEIGHT]. rewrite Hnone. reflexivity.
Qed.

Lemma X18_entry_needs_open_collection_witness :
  from_string (join_lines ["[a]"; "1: x"; ""; "2: y"]%string)
  = Raise (ConfigException 4 (chars "2: y")
             (ValueError (chars "Item outside section"))).
Proof.
  apply (X18_entry_needs_open_collection
           (join_lines ["[a]"; "1: x"; ""; "2: y"]%string)
           [chars "[a]"; chars "1: x"; []] [] (chars "2: y") 2%Z (chars "y")
           (mkLoop [(chars "a", [mkItem (Text (chars "x")) 1%Z])] [] None)).
  - reflexivity.
  - reflexivity.
  - reflexivity.
  - right. exists [chars "[a]"; chars "1: x"], []. split; reflexivity.
Defined.
